(** * MiniMC: the supervisor, the log hub, the endpoints and the download

    A shallow embedding of the two Go packages that hold the concurrency of
    MiniMC:

    - [Chan]: a buffered [chan string], as both packages make them;
    - [LogHub]: [Subscribe], [GetSessionLogs] and [sessionWriter.Write]
      (the log writer installed by [SetLogger]) together with the consumer
      loop of [logsHandler];
    - [Server]: the registry [activeServer], the [Server] struct, the package
      functions [Start], [Stop], [Kill], [RunCommand], [GetStatus], the
      methods of [*Server] and the goroutines of [startInternal].

    Go code is written in a small monad of computations on the shared state:
    a computation finishes ([Done]), waits for another goroutine ([Parked]:
    a mutex that is held, a send on a full channel, a receive on an empty
    one) or panics.  The package functions and methods of [server] are
    written once as the source has them ([Start], [Stop], [Kill],
    [RunCommand], [GetStatus]); the program is then a transition system in
    which the goroutines interleave:

    - a caller enters a package function by taking [serverMu], and goes on
      statement by statement ([call_step]) until its deferred unlock; since
      it holds [serverMu] from its first statement to its return, at most one
      caller is inside.  Run without interruption, the steps of a call are
      the function of the source ([call_steps]);
    - each goroutine of [startInternal] moves from one blocking point to the
      next: the return of [Wait], the section under [s.mu], the section under
      [serverMu].  The goroutine started first reads [s.cmd] and
      [s.cmd.Process] without synchronisation; it finds what
      [startInternal] has assigned at the moment it runs;
    - the child terminates when it pleases.

    A transition that cannot be made in the current state is [Parked]: the
    goroutine waits, and the others go on.  What the operating system
    answers to a launch is an argument of [Start].  The two [pipeAndLog]
    goroutines and the calls of [log.Println] made by the supervisor only
    produce log lines and are left out of [Server].

    The rest of the program comes after these:

    - [Command]: [commandHandler] of main.go, on [Server];
    - [Stream]: [logsHandler] of main.go, on [LogHub];
    - [Prog]: programs over the calls they make to the operating system and
      to the network, with their runs;
    - [Files]: [sanitizePath] and the file endpoints of main.go, with the
      functions of [strings] and [path/filepath] they call;
    - [Paper]: [GetPaper];
    - [Console]: [pipeAndLog], with the line scanner of [bufio].

    [SetLogger] and [main] are not embedded. *)

From stdpp Require Import base list strings pretty.
From Stdlib Require Import Lia ZArith.

Open Scope string_scope.
Open Scope list_scope.

(** ** Buffered channels *)

Module Chan.

(** A [chan string] with a buffer: its capacity and the values sent and not
    yet received, oldest first. *)
Record t := Mk { cap : nat; buf : list string }.

(** [make(chan string, n)]. *)
Definition make (n : nat) : t := Mk n [].

(** [ch <- msg]: completes when the buffer has room, and otherwise the
    sender waits ([None]). *)
Definition send (msg : string) (ch : t) : option t :=
  if decide (length (buf ch) < cap ch)
  then Some (Mk (cap ch) (buf ch ++ [msg]))
  else None.

(** [msg := <-ch], as one turn of [for msg := range ch]: the oldest value,
    and [None] when the receiver waits. *)
Definition recv (ch : t) : option (string * t) :=
  match buf ch with
  | [] => None
  | msg :: rest => Some (msg, Mk (cap ch) rest)
  end.

(** [select { case ch <- msg: default: }]. *)
Definition trySend (msg : string) (ch : t) : t :=
  match send msg ch with
  | Some ch' => ch'
  | None => ch
  end.

Definition full (ch : t) : Prop := cap ch <= length (buf ch).

Definition wf (ch : t) : Prop := length (buf ch) <= cap ch.

End Chan.

(** ** The session log hub *)

Module LogHub.

(** The package variables [sessionLogs] and [subscribers].  A subscriber
    channel is named by its position in [subscribers]: the slice is only
    ever appended to. *)
Record state := Mk { sessionLogs : list string; subscribers : list Chan.t }.

Definition init : state := Mk [] [].

(** [func Subscribe() <-chan string]. *)
Definition Subscribe (h : state) : nat * state :=
  let ch := Chan.make 100 in
  (length (subscribers h), Mk (sessionLogs h) (subscribers h ++ [ch])).

(** [func GetSessionLogs() []string]: a copy of [sessionLogs]. *)
Definition GetSessionLogs (h : state) : list string := sessionLogs h.

(** [func (sessionWriter) Write(p []byte) (n int, err error)]; the result is
    [len(p)] and a nil error. *)
Definition Write (p : string) (h : state) : nat * state :=
  let msg := p in
  (String.length p,
   Mk (sessionLogs h ++ [msg]) (Chan.trySend msg <$> subscribers h)).

(** One turn of the loop [for msg := range ch] of [logsHandler] on the
    channel [i]. *)
Definition Receive (i : nat) (h : state) : option (string * state) :=
  match subscribers h !! i with
  | None => None
  | Some ch =>
      match Chan.recv ch with
      | None => None
      | Some (msg, ch') =>
          Some (msg, Mk (sessionLogs h) (<[i := ch']> (subscribers h)))
      end
  end.

(** What can happen to the hub. *)
Inductive event :=
| EvSubscribe
| EvWrite (p : string)
| EvReceive (i : nat).

Definition step (e : event) (h : state) : state :=
  match e with
  | EvSubscribe => (Subscribe h).2
  | EvWrite p => (Write p h).2
  | EvReceive i =>
      match Receive i h with
      | Some (_, h') => h'
      | None => h
      end
  end.

Definition run (es : list event) (h : state) : state :=
  foldl (fun h e => step e h) h es.

(** The lines published by a run, in order. *)
Definition published (es : list event) : list string :=
  omap (fun e => match e with EvWrite p => Some p | _ => None end) es.

(** The lines the consumer of channel [i] has received in a run. *)
Fixpoint received (i : nat) (es : list event) (h : state) : list string :=
  match es with
  | [] => []
  | e :: es' =>
      match e with
      | EvReceive j =>
          if decide (j = i)
          then match Receive i h with
               | Some (msg, _) => [msg]
               | None => []
               end
          else []
      | _ => []
      end ++ received i es' (step e h)
  end.

(** The buffer of channel [i]. *)
Definition pending (i : nat) (h : state) : list string :=
  match subscribers h !! i with
  | Some ch => Chan.buf ch
  | None => []
  end.

(** Channel [i] has room whenever the run publishes a line. *)
Fixpoint keeps_up (i : nat) (es : list event) (h : state) : Prop :=
  match es with
  | [] => True
  | e :: es' =>
      match e with
      | EvWrite _ => length (pending i h) < 100
      | _ => True
      end /\ keeps_up i es' (step e h)
  end.

Definition wf (h : state) : Prop :=
  Forall (fun ch => Chan.cap ch = 100 /\ Chan.wf ch) (subscribers h).

End LogHub.

(** ** The supervisor *)

Module Server.

(** The errors the package returns.  [LaunchError] stands for the [err] of
    the call of os/exec that failed. *)
Inductive launch_step := StdoutPipe | StderrPipe | StdinPipe | CmdStart.

Inductive error :=
| ErrServerExists                 (* "a server is already running" *)
| ErrNotRunning                   (* errors.New("server is not running") *)
| ErrAlreadyRunning               (* errors.New("server is already running") *)
| LaunchError (f : launch_step)
| KillError.                      (* the err of s.cmd.Process.Kill() *)

(** A Go [error] value; [None] is [nil]. *)
Definition result := option error.

(** What the operating system answers to one launch: the first call that
    fails, if any. *)
Inductive launch := Fails (f : launch_step) | Launches.

(** The child process behind [s.cmd.Process]. *)
Inductive process :=
| NotStarted      (* [s.cmd.Process == nil] *)
| Alive
| Exited          (* terminated, no [Wait] has returned yet *)
| Reaped.         (* terminated and waited for *)

(** [*exec.Cmd]: the argument vector and the working directory. *)
Record Cmd := MkCmd { Args : list string; Dir : string }.

(** [exec.Command("java", ...)] followed by [s.cmd.Dir = "minecraft"]. *)
Definition java : Cmd :=
  MkCmd [ "java"; "-Xms2G"; "-Xmx4G"; "-XX:+UseG1GC";
          "-XX:+ParallelRefProcEnabled"; "-XX:+UnlockExperimentalVMOptions";
          "-XX:+DisableExplicitGC"; "-XX:+AlwaysPreTouch";
          "-XX:G1HeapWastePercent=5"; "-XX:G1MixedGCCountTarget=4";
          "-XX:MaxGCPauseMillis=50"; "-XX:G1NewSizePercent=30";
          "-XX:G1MaxNewSizePercent=40"; "-XX:G1HeapRegionSize=8M";
          "-XX:+PerfDisableSharedMem"; "-XX:MaxDirectMemorySize=1G";
          "-jar"; "server.jar"; "nogui" ]
        "minecraft".

(** The goroutine started first by [startInternal] (the one that tests
    [s.cmd == nil]). *)
Inductive early_pc :=
| ENone           (* not started *)
| ESpawned        (* at [if s == nil || s.cmd == nil] *)
| EWaiting        (* inside [s.cmd.Wait()] on a started process *)
| EWaited         (* at [s.mu.Lock()] *)
| EClearing       (* at [serverMu.Lock()] *)
| EDone.          (* returned *)

(** The goroutine started last by [startInternal]. *)
Inductive watcher_pc :=
| WNone           (* not started *)
| WWaiting        (* inside [s.cmd.Wait()] *)
| WWaited         (* at [s.mu.Lock()] *)
| WHolding        (* holds [s.mu], at [serverMu.Lock()] *)
| WDone.          (* returned *)

(** [type Server struct], the process and pipe it owns, and where its
    goroutines stand. *)
Record Server := MkServer {
  cmd : option Cmd;
  stdin : Chan.t;
  done : bool;                (* [done] is closed *)
  mu : bool;                  (* [mu] is locked *)
  isRunning : bool;
  proc : process;
  piped : list string;        (* the arguments of [stdinPipe.Write], in call order *)
  early : early_pc;
  watcher : watcher_pc;
  writer : bool               (* the goroutine ranging over [stdin] runs *)
}.

Definition set_cmd (v : option Cmd) (x : Server) : Server :=
  MkServer v (stdin x) (done x) (mu x) (isRunning x) (proc x) (piped x)
           (early x) (watcher x) (writer x).
Definition set_stdin (v : Chan.t) (x : Server) : Server :=
  MkServer (cmd x) v (done x) (mu x) (isRunning x) (proc x) (piped x)
           (early x) (watcher x) (writer x).
Definition set_done (v : bool) (x : Server) : Server :=
  MkServer (cmd x) (stdin x) v (mu x) (isRunning x) (proc x) (piped x)
           (early x) (watcher x) (writer x).
Definition set_mu (v : bool) (x : Server) : Server :=
  MkServer (cmd x) (stdin x) (done x) v (isRunning x) (proc x) (piped x)
           (early x) (watcher x) (writer x).
Definition set_isRunning (v : bool) (x : Server) : Server :=
  MkServer (cmd x) (stdin x) (done x) (mu x) v (proc x) (piped x)
           (early x) (watcher x) (writer x).
Definition set_proc (v : process) (x : Server) : Server :=
  MkServer (cmd x) (stdin x) (done x) (mu x) (isRunning x) v (piped x)
           (early x) (watcher x) (writer x).
Definition set_piped (v : list string) (x : Server) : Server :=
  MkServer (cmd x) (stdin x) (done x) (mu x) (isRunning x) (proc x) v
           (early x) (watcher x) (writer x).
Definition set_early (v : early_pc) (x : Server) : Server :=
  MkServer (cmd x) (stdin x) (done x) (mu x) (isRunning x) (proc x) (piped x)
           v (watcher x) (writer x).
Definition set_watcher (v : watcher_pc) (x : Server) : Server :=
  MkServer (cmd x) (stdin x) (done x) (mu x) (isRunning x) (proc x) (piped x)
           (early x) v (writer x).
Definition set_writer (v : bool) (x : Server) : Server :=
  MkServer (cmd x) (stdin x) (done x) (mu x) (isRunning x) (proc x) (piped x)
           (early x) (watcher x) v.

(** A [*Server] is a position in the heap of allocated servers. *)
Abbreviation ptr := nat.

(** The package variables [activeServer] and [serverMu], and the servers
    allocated so far. *)
Record World := MkWorld {
  heap : list Server;
  activeServer : option ptr;
  serverMu : bool               (* [serverMu] is locked *)
}.

Definition init : World := MkWorld [] None false.

(** *** Computations *)

(** A piece of Go code run from a state: it finishes with a value and a new
    state, it waits for another goroutine, or it panics. *)
Inductive outcome (A : Type) :=
| Done (a : A) (w : World)
| Parked
| Panic.
Arguments Done {A}.
Arguments Parked {A}.
Arguments Panic {A}.

Definition M (A : Type) : Type := World -> outcome A.

#[global] Instance M_ret : MRet M := fun A a w => Done a w.
#[global] Instance M_bind : MBind M := fun A B f m w =>
  match m w with
  | Done a w' => f a w'
  | Parked => Parked
  | Panic => Panic
  end.

Definition park {A} : M A := fun _ => Parked.
Definition panic {A} : M A := fun _ => Panic.

(** [*s]. *)
Definition load (s : ptr) : M Server := fun w =>
  match heap w !! s with
  | Some x => Done x w
  | None => Panic
  end.

(** An assignment to a field of [*s]. *)
Definition update (s : ptr) (f : Server -> Server) : M unit := fun w =>
  match heap w !! s with
  | Some _ => Done tt (MkWorld (alter f s (heap w)) (activeServer w) (serverMu w))
  | None => Panic
  end.

Definition get_activeServer : M (option ptr) := fun w => Done (activeServer w) w.

Definition set_activeServer (v : option ptr) : M unit := fun w =>
  Done tt (MkWorld (heap w) v (serverMu w)).

Definition Lock_serverMu : M unit := fun w =>
  if serverMu w then Parked
  else Done tt (MkWorld (heap w) (activeServer w) true).

Definition Unlock_serverMu : M unit := fun w =>
  Done tt (MkWorld (heap w) (activeServer w) false).

Definition Lock_mu (s : ptr) : M unit :=
  x ← load s;
  if mu x then park else update s (set_mu true).

Definition Unlock_mu (s : ptr) : M unit := update s (set_mu false).

(** [defer unlock] in front of [body]. *)
Definition defer {A} (unlock : M unit) (body : M A) : M A :=
  r ← body; unlock;; mret r.

(** [&Server{stdin: make(chan string, 100), done: make(chan struct{})}]. *)
Definition fresh : Server :=
  MkServer None (Chan.make 100) false false false NotStarted [] ENone WNone false.

Definition new_Server : M ptr := fun w =>
  Done (length (heap w)) (MkWorld (heap w ++ [fresh]) (activeServer w) (serverMu w)).

(** The string ["\n"]. *)
Definition newline : string := String (Ascii.ascii_of_nat 10) "".

(** [s.stdin <- c]. *)
Definition send_stdin (s : ptr) (c : string) : M unit :=
  x ← load s;
  match Chan.send c (stdin x) with
  | Some ch => update s (set_stdin ch)
  | None => park
  end.

(** [s.cmd.Process.Kill()]: a nil dereference before the process exists,
    SIGKILL for a process not yet waited for, and the error of os for a
    finished one. *)
Definition Process_Kill (s : ptr) : M result :=
  x ← load s;
  match cmd x, proc x with
  | None, _ | _, NotStarted => panic
  | _, Alive => update s (set_proc Exited);; mret None
  | _, Exited => mret None
  | _, Reaped => mret (Some KillError)
  end.

(** [close(s.done)]: closing a closed channel panics. *)
Definition close_done (s : ptr) : M unit :=
  x ← load s;
  if done x then panic else update s (set_done true).

(** *** Methods of [*Server] *)

(** [func (s *Server) GetStatus() bool]. *)
Definition Server_GetStatus (s : ptr) : M bool :=
  Lock_mu s;;
  defer (Unlock_mu s) (
    x ← load s;
    mret (isRunning x)).

(** [func (s *Server) RunCommand(cmd string) error]. *)
Definition Server_RunCommand (s : ptr) (c : string) : M result :=
  r ← Server_GetStatus s;
  if negb r then mret (Some ErrNotRunning)
  else
    send_stdin s c;;
    mret None.

(** [func (s *Server) Stop() error]. *)
Definition Server_Stop (s : ptr) : M result :=
  r ← Server_GetStatus s;
  if negb r then mret (Some ErrNotRunning)
  else Server_RunCommand s "stop".

(** [func (s *Server) Kill() error]. *)
Definition Server_Kill (s : ptr) : M result :=
  Lock_mu s;;
  defer (Unlock_mu s) (
    x ← load s;
    if negb (isRunning x) then mret (Some ErrNotRunning)
    else
      err ← Process_Kill s;
      match err with
      | Some e => mret (Some e)
      | None => mret None
      end).

(** [func (s *Server) startInternal() error], with the answer [l] of the
    operating system to this launch.  The two [go s.pipeAndLog(...)] only
    log and are left out. *)
Definition startInternal (s : ptr) (l : launch) : M result :=
  Lock_mu s;;
  defer (Unlock_mu s) (
    update s (set_early ESpawned);;                    (* go func() { ... }() *)
    x ← load s;
    if isRunning x then mret (Some ErrAlreadyRunning)
    else
      update s (set_cmd (Some java));;
      match l with
      | Fails StdoutPipe => mret (Some (LaunchError StdoutPipe))
      | Fails StderrPipe => mret (Some (LaunchError StderrPipe))
      | Fails StdinPipe => mret (Some (LaunchError StdinPipe))
      | Fails CmdStart => mret (Some (LaunchError CmdStart))
      | Launches =>
          update s (set_proc Alive);;                  (* s.cmd.Start() *)
          update s (set_isRunning true);;
          update s (set_writer true);;                 (* go func() { for cmd := range s.stdin ... }() *)
          update s (set_watcher WWaiting);;            (* go func() { s.cmd.Wait() ... }() *)
          mret None
      end).

(** *** The package functions *)

(** [activeServer != nil && activeServer.GetStatus()]. *)
Definition active_running : M bool :=
  a ← get_activeServer;
  match a with
  | None => mret false
  | Some s => Server_GetStatus s
  end.

(** [func Start() error]. *)
Definition Start (l : launch) : M result :=
  Lock_serverMu;;
  defer Unlock_serverMu (
    r ← active_running;
    if (r : bool) then mret (Some ErrServerExists)
    else
      s ← new_Server;
      set_activeServer (Some s);;
      startInternal s l).

(** [func Stop() error]. *)
Definition Stop : M result :=
  Lock_serverMu;;
  defer Unlock_serverMu (
    r ← active_running;
    if negb r then mret (Some ErrNotRunning)
    else
      a ← get_activeServer;
      match a with
      | Some s => Server_RunCommand s "stop"
      | None => panic
      end).

(** [func Kill() error]. *)
Definition Kill : M result :=
  Lock_serverMu;;
  defer Unlock_serverMu (
    r ← active_running;
    if negb r then mret (Some ErrNotRunning)
    else
      a ← get_activeServer;
      match a with
      | Some s => Server_Kill s
      | None => panic
      end).

(** [func RunCommand(cmd string) error]. *)
Definition RunCommand (c : string) : M result :=
  Lock_serverMu;;
  defer Unlock_serverMu (
    r ← active_running;
    if negb r then mret (Some ErrNotRunning)
    else
      a ← get_activeServer;
      match a with
      | Some s => Server_RunCommand s c
      | None => panic
      end).

(** [func GetStatus() bool]. *)
Definition GetStatus : M bool :=
  Lock_serverMu;;
  defer Unlock_serverMu (
    a ← get_activeServer;
    match a with
    | None => mret false
    | Some s => Server_GetStatus s
    end).

(** *** The goroutines of [startInternal] *)

(** The goroutine started first:
    [if s == nil || s.cmd == nil { return }; err := s.cmd.Wait()], up to the
    point where [Wait] has failed ("exec: not started", when
    [s.cmd.Process] is nil) or waits.  It reads [s.cmd] and [s.cmd.Process]
    without holding a mutex, while [startInternal] assigns them. *)
Definition early_test (s : ptr) : M unit :=
  x ← load s;
  match early x with
  | ESpawned =>
      match cmd x, proc x with
      | None, _ => update s (set_early EDone)
      | Some _, NotStarted => update s (set_early EWaited)
      | Some _, _ => update s (set_early EWaiting)
      end
  | _ => park
  end.

(** [s.cmd.Wait()] returns once the process has terminated. *)
Definition Wait (s : ptr) : M unit :=
  x ← load s;
  match proc x with
  | Exited | Reaped => update s (set_proc Reaped)
  | _ => park
  end.

Definition early_wait (s : ptr) : M unit :=
  x ← load s;
  match early x with
  | EWaiting => Wait s;; update s (set_early EWaited)
  | _ => park
  end.

(** [select { case <-s.done: default: close(s.done) }]: a receive on a closed
    channel succeeds, on an open and empty one it does not. *)
Definition close_done_if_open (s : ptr) : M unit :=
  x ← load s;
  if done x then mret tt else close_done s.

(** [if activeServer == s { activeServer = nil }]. *)
Definition clear_if_active (s : ptr) : M unit :=
  a ← get_activeServer;
  if decide (a = Some s) then set_activeServer None else mret tt.

(** [s.mu.Lock(); s.isRunning = false;
     if s.done != nil { select { case <-s.done: default: close(s.done) } };
     s.mu.Unlock()]. *)
Definition early_lock (s : ptr) : M unit :=
  x ← load s;
  match early x with
  | EWaited =>
      Lock_mu s;;
      update s (set_isRunning false);;
      close_done_if_open s;;
      Unlock_mu s;;
      update s (set_early EClearing)
  | _ => park
  end.

(** [serverMu.Lock(); if activeServer == s { activeServer = nil };
     serverMu.Unlock()]. *)
Definition early_clear (s : ptr) : M unit :=
  x ← load s;
  match early x with
  | EClearing =>
      Lock_serverMu;;
      clear_if_active s;;
      Unlock_serverMu;;
      update s (set_early EDone)
  | _ => park
  end.

(** The last goroutine: [s.cmd.Wait()]. *)
Definition watcher_wait (s : ptr) : M unit :=
  x ← load s;
  match watcher x with
  | WWaiting => Wait s;; update s (set_watcher WWaited)
  | _ => park
  end.

(** [s.mu.Lock(); defer s.mu.Unlock(); s.isRunning = false; close(s.done)]. *)
Definition watcher_lock (s : ptr) : M unit :=
  x ← load s;
  match watcher x with
  | WWaited =>
      Lock_mu s;;
      update s (set_isRunning false);;
      close_done s;;
      update s (set_watcher WHolding)
  | _ => park
  end.

(** [serverMu.Lock(); activeServer = nil; serverMu.Unlock()], and the
    deferred [s.mu.Unlock()]. *)
Definition watcher_clear (s : ptr) : M unit :=
  x ← load s;
  match watcher x with
  | WHolding =>
      Lock_serverMu;;
      set_activeServer None;;
      Unlock_serverMu;;
      Unlock_mu s;;
      update s (set_watcher WDone)
  | _ => park
  end.

(** One turn of [for cmd := range s.stdin { stdinPipe.Write([]byte(cmd + "\n")) }]. *)
Definition writer_write (s : ptr) : M unit :=
  x ← load s;
  if writer x then
    match Chan.recv (stdin x) with
    | Some (c, ch) =>
        update s (set_stdin ch);;
        update s (set_piped (piped x ++ [c +:+ newline]))
    | None => park
    end
  else park.

(** The child terminates: it obeyed "stop", it crashed, or something other
    than [Kill] killed it. *)
Definition child_exit (s : ptr) : M unit :=
  x ← load s;
  match proc x with
  | Alive => update s (set_proc Exited)
  | _ => park
  end.

(** *** A call, statement by statement *)

(** The package functions a caller may call. *)
Inductive call_op :=
| OpStart (l : launch)
| OpStop
| OpKill
| OpRunCommand (c : string)
| OpGetStatus.

(** Where the caller that holds [serverMu] stands.  [Stop] is
    [RunCommand("stop")] statement by statement, and shares its points. *)
Inductive call_pc :=
| Start_guard (l : launch)            (* [if activeServer != nil && activeServer.GetStatus()] *)
| Start_new (l : launch)              (* [s := &Server{...}] *)
| Start_check (s : ptr) (l : launch)  (* in [startInternal]: [if s.isRunning] *)
| Start_launch (s : ptr) (l : launch) (* [s.cmd.StdoutPipe()] *)
| Start_run (s : ptr)                 (* [s.isRunning = true] *)
| Run_guard (c : string)              (* [if activeServer == nil || !activeServer.GetStatus()] *)
| Run_status (s : ptr) (c : string)   (* in the method RunCommand: [if !s.GetStatus()] *)
| Run_send (s : ptr) (c : string)     (* [s.stdin <- cmd] *)
| Kill_guard
| Kill_method (s : ptr)               (* [activeServer.Kill()] *)
| Status_guard
| Return_error (r : result)           (* the deferred [serverMu.Unlock()] *)
| Return_bool (b : bool).

Definition entry (op : call_op) : call_pc :=
  match op with
  | OpStart l => Start_guard l
  | OpStop => Run_guard "stop"
  | OpKill => Kill_guard
  | OpRunCommand c => Run_guard c
  | OpGetStatus => Status_guard
  end.

(** The caller executes its code from one point to the next; [None] when it
    has returned. *)
Definition call_step (pc : call_pc) : M (option call_pc) :=
  match pc with
  | Start_guard l =>
      r ← active_running;
      if (r : bool) then mret (Some (Return_error (Some ErrServerExists)))
      else mret (Some (Start_new l))
  | Start_new l =>
      s ← new_Server;
      set_activeServer (Some s);;
      Lock_mu s;;                                      (* startInternal *)
      update s (set_early ESpawned);;                  (* go func() { ... }() *)
      mret (Some (Start_check s l))
  | Start_check s l =>
      x ← load s;
      if isRunning x then
        Unlock_mu s;;
        mret (Some (Return_error (Some ErrAlreadyRunning)))
      else
        update s (set_cmd (Some java));;
        mret (Some (Start_launch s l))
  | Start_launch s l =>
      match l with
      | Fails f =>
          Unlock_mu s;;
          mret (Some (Return_error (Some (LaunchError f))))
      | Launches =>
          update s (set_proc Alive);;                  (* s.cmd.Start() *)
          mret (Some (Start_run s))
      end
  | Start_run s =>
      update s (set_isRunning true);;
      update s (set_writer true);;
      update s (set_watcher WWaiting);;
      Unlock_mu s;;
      mret (Some (Return_error None))
  | Run_guard c =>
      r ← active_running;
      if negb r then mret (Some (Return_error (Some ErrNotRunning)))
      else
        a ← get_activeServer;
        match a with
        | Some s => mret (Some (Run_status s c))
        | None => panic
        end
  | Run_status s c =>
      r ← Server_GetStatus s;
      if negb r then mret (Some (Return_error (Some ErrNotRunning)))
      else mret (Some (Run_send s c))
  | Run_send s c =>
      send_stdin s c;;
      mret (Some (Return_error None))
  | Kill_guard =>
      r ← active_running;
      if negb r then mret (Some (Return_error (Some ErrNotRunning)))
      else
        a ← get_activeServer;
        match a with
        | Some s => mret (Some (Kill_method s))
        | None => panic
        end
  | Kill_method s =>
      r ← Server_Kill s;
      mret (Some (Return_error r))
  | Status_guard =>
      a ← get_activeServer;
      match a with
      | None => mret (Some (Return_bool false))
      | Some s => r ← Server_GetStatus s; mret (Some (Return_bool r))
      end
  | Return_error _ | Return_bool _ =>
      Unlock_serverMu;;
      mret None
  end.

(** The caller goes on from [p] until it has returned, which takes at most
    [n] steps, and ends at the return it left by. *)
Fixpoint complete (n : nat) (p : call_pc) : M call_pc :=
  match n with
  | 0 => park
  | S n' =>
      pc ← call_step p;
      match pc with
      | None => mret p
      | Some p' => complete n' p'
      end
  end.

(** A call of a package function, from the source of the function. *)
Definition call (op : call_op) : M call_pc :=
  match op with
  | OpStart l => r ← Start l; mret (Return_error r)
  | OpStop => r ← Stop; mret (Return_error r)
  | OpKill => r ← Kill; mret (Return_error r)
  | OpRunCommand c => r ← RunCommand c; mret (Return_error r)
  | OpGetStatus => b ← GetStatus; mret (Return_bool b)
  end.

(** *** The system *)

(** The transitions: a caller enters a package function by taking
    [serverMu]; the caller inside goes on to its next point; a goroutine of
    [startInternal] goes on to its next blocking point; a child
    terminates. *)
Inductive event :=
| Call (op : call_op)
| Step
| Child_exit (s : ptr)
| Early_test (s : ptr)
| Early_wait (s : ptr)
| Early_lock (s : ptr)
| Early_clear (s : ptr)
| Watcher_wait (s : ptr)
| Watcher_lock (s : ptr)
| Watcher_clear (s : ptr)
| Writer_write (s : ptr).

(** A transition from the shared state and the place of the caller inside,
    if there is one, to the next. *)
Definition exec (e : event) (pc : option call_pc) : M (option call_pc) :=
  match e with
  | Call op =>
      match pc with
      | None => Lock_serverMu;; mret (Some (entry op))
      | Some _ => park
      end
  | Step =>
      match pc with
      | Some p => call_step p
      | None => park
      end
  | Child_exit s => child_exit s;; mret pc
  | Early_test s => early_test s;; mret pc
  | Early_wait s => early_wait s;; mret pc
  | Early_lock s => early_lock s;; mret pc
  | Early_clear s => early_clear s;; mret pc
  | Watcher_wait s => watcher_wait s;; mret pc
  | Watcher_lock s => watcher_lock s;; mret pc
  | Watcher_clear s => watcher_clear s;; mret pc
  | Writer_write s => writer_write s;; mret pc
  end.

Fixpoint run (es : list event) (pc : option call_pc) : M (option call_pc) :=
  match es with
  | [] => mret pc
  | e :: es' => pc' ← exec e pc; run es' pc'
  end.

(** The states the program can be in. *)
Inductive reachable : World -> option call_pc -> Prop :=
| reachable_init : reachable init None
| reachable_step e w pc w' pc' :
    reachable w pc -> exec e pc w = Done pc' w' -> reachable w' pc'.

(** The events of a call that is not interrupted: the caller enters and
    goes on for [n] steps. *)
Definition uninterrupted (op : call_op) (n : nat) : list event :=
  Call op :: replicate n Step.

(** Calls made one after the other, with nothing happening in between. *)
Fixpoint calls (ops : list call_op) : M unit :=
  match ops with
  | [] => mret tt
  | op :: ops' => call op;; calls ops'
  end.

(** [Start] attempted once per element of [ls], one after the other. *)
Fixpoint attempts (ls : list launch) : M (list result) :=
  match ls with
  | [] => mret []
  | l :: ls' => r ← Start l; rs ← attempts ls'; mret (r :: rs)
  end.

(** *** What the claims are stated with *)

(** The state after [f] has been applied to [*s]. *)
Definition upd (s : ptr) (f : Server -> Server) (w : World) : World :=
  MkWorld (alter f s (heap w)) (activeServer w) (serverMu w).

(** The server [Start] leaves behind, and the error it returns, for each
    answer of the operating system. *)
Definition launched (l : launch) : Server :=
  match l with
  | Launches =>
      MkServer (Some java) (Chan.make 100) false false true Alive [] ESpawned WWaiting true
  | Fails _ =>
      MkServer (Some java) (Chan.make 100) false false false NotStarted [] ESpawned WNone false
  end.

Definition launch_result (l : launch) : result :=
  match l with
  | Launches => None
  | Fails f => Some (LaunchError f)
  end.

(** No instance is running: the registry is empty, or the instance it holds
    has [isRunning] false and its mutex free. *)
Definition idle (w : World) : Prop :=
  match activeServer w with
  | None => True
  | Some s =>
      exists x, heap w !! s = Some x /\ isRunning x = false /\ mu x = false
  end.

(** The instance [s] is the active one, it is running and its mutex is free. *)
Definition running (w : World) (s : ptr) (x : Server) : Prop :=
  activeServer w = Some s /\ heap w !! s = Some x /\
  isRunning x = true /\ mu x = false.

(** The caller inside is in [startInternal] on [s], holding [s.mu]. *)
Definition starting (pc : option call_pc) (s : ptr) : Prop :=
  match pc with
  | Some (Start_check t _) | Some (Start_launch t _) | Some (Start_run t) => t = s
  | _ => False
  end.

(** The caller inside is at the test of [s.isRunning] in [startInternal] on
    [s]: [s.cmd] is still nil. *)
Definition checking (pc : option call_pc) (s : ptr) : Prop :=
  match pc with
  | Some (Start_check t _) => t = s
  | _ => False
  end.

(** What holds of every server in every reachable state. *)
Record server_ok (pc : option call_pc) (a : option ptr) (s : ptr) (x : Server) : Prop :=
ServerOk {
  ok_running : isRunning x = true -> a = Some s;
  ok_started :
    isRunning x = true -> cmd x <> None /\ proc x <> NotStarted /\ writer x = true;
  ok_mu : mu x = true <-> watcher x = WHolding \/ starting pc s;
  ok_holding :
    watcher x = WHolding -> a = Some s /\ isRunning x = false /\ early x <> EClearing;
  ok_watching :
    watcher x = WWaiting \/ watcher x = WWaited -> done x = false -> isRunning x = true;
  ok_clearing : early x = EClearing -> done x = true /\ isRunning x = false;
  ok_closed : done x = true -> isRunning x = false;
  ok_flag : isRunning x = true -> watcher x = WWaiting \/ watcher x = WWaited;
  ok_stdin : Chan.cap (stdin x) = 100 /\ Chan.wf (stdin x);
  ok_starting :
    starting pc s ->
    a = Some s /\ isRunning x = false /\ watcher x = WNone /\ done x = false /\
    (cmd x = None -> checking pc s) /\
    (proc x = NotStarted -> pc <> Some (Start_run s))
}.

(** What holds in every reachable state: [serverMu] is held exactly while a
    caller is inside; [activeServer] points into the heap; every server is
    as above; and once the guard of [Start] has let the caller through, no
    server is running and no exit watcher holds a mutex. *)
Definition invariant (w : World) (pc : option call_pc) : Prop :=
  (serverMu w = true <-> pc <> None) /\
  (forall s, activeServer w = Some s -> is_Some (heap w !! s)) /\
  (forall s x, heap w !! s = Some x -> server_ok pc (activeServer w) s x) /\
  (forall l, pc = Some (Start_new l) ->
     forall s x, heap w !! s = Some x -> isRunning x = false /\ watcher x <> WHolding).

(** The transitions of the goroutines and of the child. *)
Definition goroutine (e : event) : Prop :=
  match e with
  | Call _ | Step => False
  | _ => True
  end.

(** The caller inside is about to lock the mutex of [s]: in the guard of a
    package function, which calls [GetStatus] on the active server, or at
    the call of a method of [s]. *)
Definition waits_for (pc : option call_pc) (s : ptr) : Prop :=
  match pc with
  | Some (Start_guard _) | Some (Run_guard _) | Some Kill_guard
  | Some Status_guard => True
  | Some (Run_status t _) | Some (Kill_method t) => t = s
  | _ => False
  end.

(** The caller inside holds [serverMu] and is about to lock the mutex of the
    active server [s], while the exit watcher of [s] holds that mutex and is
    about to lock [serverMu]. *)
Definition deadlock (w : World) (pc : option call_pc) (s : ptr) : Prop :=
  serverMu w = true /\ activeServer w = Some s /\ waits_for pc s /\
  exists x, heap w !! s = Some x /\ watcher x = WHolding /\ mu x = true.

(** [cmd + "\n"] for each line. *)
Definition lines (cs : list string) : list string :=
  (fun c => c +:+ newline) <$> cs.

(** What the child of [s] has been written and is still to be written: the
    writes made to its pipe followed by the lines waiting in [stdin]. *)
Definition stream (w : World) (s : ptr) : list string :=
  match heap w !! s with
  | Some x => piped x ++ lines (Chan.buf (stdin x))
  | None => []
  end.

(** The line the transition [e] puts on the queue of [s], if it does: the
    caller inside is at the send of the method RunCommand on [s], and goes
    on. *)
Definition sent (s : ptr) (e : event) (pc : option call_pc) (w : World) : list string :=
  match e, pc with
  | Step, Some (Run_send t c) =>
      if decide (t = s) then
        match call_step (Run_send t c) w with
        | Done _ _ => [c]
        | _ => []
        end
      else []
  | _, _ => []
  end.

(** What a sequence of [Start] attempts returns when nothing else happens in
    between: the launch errors up to the first launch that succeeds, [nil]
    for that one, and [ErrServerExists] for every later attempt. *)
Fixpoint verdicts (ls : list launch) : list result :=
  match ls with
  | [] => []
  | Fails f :: ls' => Some (LaunchError f) :: verdicts ls'
  | Launches :: ls' => None :: ((fun _ => Some ErrServerExists) <$> ls')
  end.

(** The lines a run puts on the queue of [s], in order. *)
Fixpoint sent_by (s : ptr) (es : list event) (pc : option call_pc) (w : World)
  : list string :=
  match es with
  | [] => []
  | e :: es' =>
      sent s e pc w ++
      match exec e pc w with
      | Done pc' w' => sent_by s es' pc' w'
      | _ => []
      end
  end.

End Server.

(** ** The command endpoint *)

Module Command.
Import Server.

(** What [commandHandler] answers and what it passes to [log.Println]. *)
Record reply := Reply { status : nat; logged : list string }.

Definition StatusOK : nat := 200.
Definition StatusBadRequest : nat := 400.
Definition StatusInternalServerError : nat := 500.

(** [func commandHandler(c echo.Context) error], on the form value
    ["command"]; [l] is what the operating system answers if the handler
    launches. *)
Definition commandHandler (cmd : string) (l : launch) : M reply :=
  if decide (cmd = "") then mret (Reply StatusBadRequest [])
  else if decide (cmd = "start") then
    err ← Start l;
    match err with
    | Some _ => mret (Reply StatusInternalServerError [])
    | None => mret (Reply StatusOK ["[i] Server starting"])
    end
  else if decide (cmd = "kill") then
    err ← Kill;
    match err with
    | Some _ => mret (Reply StatusInternalServerError [])
    | None => mret (Reply StatusOK ["[i] Server killed"])
    end
  else
    err ← RunCommand cmd;
    match err with
    | Some _ => mret (Reply StatusInternalServerError [])
    | None => mret (Reply StatusOK [])
    end.

(** The lines pending on the command queue of the server at [s]. *)
Definition queue (w : World) (s : ptr) : list string :=
  match heap w !! s with
  | Some x => Chan.buf (stdin x)
  | None => []
  end.

End Command.

(** ** The log endpoint *)

Module Stream.
Import LogHub.

(** A request served by [logsHandler]: the channel [Subscribe] gave it,
    whether the loop over [GetSessionLogs()] has run, and the arguments of
    [c.Response().Write], in call order. *)
Record conn := Conn { ch : nat; replayed : bool; body : list string }.

(** ["data: " + line + "\n"]. *)
Definition frame (line : string) : string :=
  "data: " +:+ line +:+ Server.newline.

(** The hub and the requests being served. *)
Record state := St { hub : LogHub.state; conns : list conn }.

Definition init : state := St LogHub.init [].

(** [ch := pkg.Subscribe()]. *)
Definition connect (st : state) : state :=
  let (i, h) := Subscribe (hub st) in
  St h (conns st ++ [Conn i false []]).

(** [for _, logLine := range pkg.GetSessionLogs() { c.Response().Write(...) }]
    of the request [k]. *)
Definition replay (k : nat) (st : state) : state :=
  match conns st !! k with
  | Some c =>
      if replayed c then st
      else St (hub st)
              (<[k := Conn (ch c) true
                        (body c ++ (frame <$> GetSessionLogs (hub st)))]> (conns st))
  | None => st
  end.

(** One turn of [for msg := range ch { c.Response().Write(...) }] of the
    request [k]. *)
Definition deliver (k : nat) (st : state) : state :=
  match conns st !! k with
  | Some c =>
      if replayed c then
        match Receive (ch c) (hub st) with
        | Some (msg, h) =>
            St h (<[k := Conn (ch c) true (body c ++ [frame msg])]> (conns st))
        | None => st
        end
      else st
  | None => st
  end.

Inductive event :=
| Connect
| Replay (k : nat)
| Deliver (k : nat)
| Publish (p : string).       (* the logger calls [sessionWriter.Write] *)

#[global] Instance event_eq_dec : EqDecision event.
Proof. solve_decision. Defined.

Definition step (e : event) (st : state) : state :=
  match e with
  | Connect => connect st
  | Replay k => replay k st
  | Deliver k => deliver k st
  | Publish p => St (Write p (hub st)).2 (conns st)
  end.

Definition run (es : list event) (st : state) : state :=
  foldl (fun st e => step e st) st es.

(** The lines the logger publishes in a run, in order. *)
Definition published (es : list event) : list string :=
  omap (fun e => match e with Publish p => Some p | _ => None end) es.

(** What has been written to the response of the request [k]. *)
Definition sent (k : nat) (st : state) : list string :=
  match conns st !! k with
  | Some c => body c
  | None => []
  end.

(** The lines waiting in the channel of the request [k]. *)
Definition waiting (k : nat) (st : state) : list string :=
  match conns st !! k with
  | Some c => pending (ch c) (hub st)
  | None => []
  end.

(** The channel of the request [k] has room whenever the run publishes. *)
Fixpoint keeps_up (k : nat) (es : list event) (st : state) : Prop :=
  match es with
  | [] => True
  | e :: es' =>
      match e with
      | Publish _ => length (waiting k st) < 100
      | _ => True
      end /\ keeps_up k es' (step e st)
  end.

(** The requests and the channels are numbered alike, and every channel has
    room for a hundred lines. *)
Definition aligned (st : state) : Prop :=
  length (conns st) = length (subscribers (hub st)) /\
  (forall k c, conns st !! k = Some c -> ch c = k) /\
  LogHub.wf (hub st).

End Stream.

(** ** Programs over calls

    Code that talks to the operating system or to the network is a program
    over the calls it makes: at each call it goes on with what the call
    returned.  Nothing is fixed about what a call returns. *)

Module Prog.

Inductive prog (call : Type -> Type) (R : Type) : Type :=
| Ret (r : R)
| Do (A : Type) (c : call A) (k : A -> prog call R).
Arguments Ret {call R} r.
Arguments Do {call R A} c k.

Fixpoint bind {call : Type -> Type} {R S : Type}
    (p : prog call R) (f : R -> prog call S) : prog call S :=
  match p with
  | Ret r => f r
  | Do c k => Do c (fun a => bind (k a) f)
  end.

#[global] Instance prog_ret {call : Type -> Type} : MRet (prog call) := fun _ r => Ret r.
#[global] Instance prog_bind {call : Type -> Type} : MBind (prog call) :=
  fun _ _ f p => bind p f.

Definition do {call : Type -> Type} {A : Type} (c : call A) : prog call A := Do c Ret.

(** A call that was made, with what it returned. *)
Inductive made (call : Type -> Type) : Type :=
| Made (A : Type) (c : call A) (a : A).
Arguments Made {call A} c a.

(** The runs of a program: the calls made, in order, and the result. *)
Fixpoint traces {call : Type -> Type} {R : Type}
    (p : prog call R) (t : list (made call)) (r : R) : Prop :=
  match p with
  | Ret r' => t = [] /\ r = r'
  | Do c k => exists a t', t = Made c a :: t' /\ traces (k a) t' r
  end.

(** The run in which [o] answers the calls. *)
Definition os (call : Type -> Type) : Type := forall A : Type, call A -> A.

Fixpoint run {call : Type -> Type} {R : Type} (o : os call) (p : prog call R) :
    list (made call) * R :=
  match p with
  | Ret r => ([], r)
  | Do c k => let '(cs, r) := run o (k (o _ c)) in (Made c (o _ c) :: cs, r)
  end.

(** [P] holds of every call [p] can make, whatever the calls return. *)
Fixpoint all_calls {call : Type -> Type} {R : Type}
    (P : made call -> Prop) (p : prog call R) : Prop :=
  match p with
  | Ret _ => True
  | Do c k => forall a, P (Made c a) /\ all_calls P (k a)
  end.

End Prog.

(** ** The file endpoints *)

Module Files.
Import Stdlib.Strings.Ascii.
Import Prog.

(** *** Strings and paths of the Go library

    A Go [string] is a sequence of bytes, here a [string] of Rocq.  The
    functions of [strings] and [path/filepath] (for Unix) that the file
    endpoints call are written from their documentation. *)

(** The string of the bytes [l]. *)
Definition bytes (l : list nat) : string :=
  String.string_of_list_ascii (Ascii.ascii_of_nat <$> l).

(** The UTF-8 encodings of the code points with the Unicode property
    White_Space, which is what [unicode.IsSpace] tests: U+0009 to U+000D,
    U+0020, U+0085, U+00A0, U+1680, U+2000 to U+200A, U+2028, U+2029,
    U+202F, U+205F and U+3000. *)
Definition white_space : list string :=
  bytes <$>
    [ [9]; [10]; [11]; [12]; [13]; [32]; [194; 133]; [194; 160];
      [225; 154; 128];
      [226; 128; 128]; [226; 128; 129]; [226; 128; 130]; [226; 128; 131];
      [226; 128; 132]; [226; 128; 133]; [226; 128; 134]; [226; 128; 135];
      [226; 128; 136]; [226; 128; 137]; [226; 128; 138];
      [226; 128; 168]; [226; 128; 169]; [226; 128; 175]; [226; 129; 159];
      [227; 128; 128] ].

(** [s] without its prefix [p], when it has it. *)
Fixpoint strip_prefix (p s : string) : option string :=
  match p, s with
  | "", _ => Some s
  | String a p', String b s' => if decide (a = b) then strip_prefix p' s' else None
  | _, _ => None
  end.

(** [strings.HasPrefix(s, p)]. *)
Definition HasPrefix (s p : string) : bool := bool_decide (is_Some (strip_prefix p s)).

(** [strings.TrimPrefix(s, p)]. *)
Definition TrimPrefix (s p : string) : string :=
  match strip_prefix p s with
  | Some r => r
  | None => s
  end.

(** [s] without its suffix [p], when it has it. *)
Definition strip_suffix (p s : string) : option string :=
  String.rev <$> strip_prefix (String.rev p) (String.rev s).

(** [strings.HasSuffix(s, p)]. *)
Definition HasSuffix (s p : string) : bool := bool_decide (is_Some (strip_suffix p s)).

(** The first result among those of [f] on the elements of [l]. *)
Fixpoint first_of {A B} (f : A -> option B) (l : list A) : option B :=
  match l with
  | [] => None
  | a :: l' => match f a with Some b => Some b | None => first_of f l' end
  end.

(** White space is removed from one end, one code point at a time, for as
    long as there is some; [n] bounds the number of code points. *)
Fixpoint trim (strip : string -> string -> option string) (n : nat) (s : string) : string :=
  match n with
  | 0 => s
  | S n' =>
      match first_of (fun p => strip p s) white_space with
      | Some r => trim strip n' r
      | None => s
      end
  end.

(** [strings.TrimSpace(s)]: [s] without leading and trailing white space,
    as defined by Unicode. *)
Definition TrimSpace (s : string) : string :=
  let s := trim strip_prefix (String.length s) s in
  trim strip_suffix (String.length s) s.

(** [strings.Contains(s, sub)]. *)
Fixpoint Contains (s sub : string) : bool :=
  HasPrefix s sub ||
  match s with
  | "" => false
  | String _ s' => Contains s' sub
  end.

(** The elements of a path: what stands between its separators. *)
Fixpoint split (s : string) : list string :=
  match s with
  | "" => [""]
  | String c s' =>
      if decide (c = "/"%char) then "" :: split s'
      else match split s' with
           | e :: es => String c e :: es
           | [] => [String c ""]
           end
  end.

(** [strings.Join(elems, "/")]. *)
Fixpoint join (elems : list string) : string :=
  match elems with
  | [] => ""
  | [e] => e
  | e :: es => e +:+ "/" +:+ join es
  end.

(** The elements [filepath.Clean] keeps, [out] being those kept so far, the
    last one first: an empty element and [.] are dropped; [..] takes away
    the element before it, unless there is none or it is [..] itself, in
    which case [..] is dropped in a rooted path and kept in another. *)
Fixpoint clean_elems (rooted : bool) (out elems : list string) : list string :=
  match elems with
  | [] => reverse out
  | e :: es =>
      if decide (e = "" \/ e = ".") then clean_elems rooted out es
      else if decide (e = "..") then
        match out with
        | o :: out' =>
            if decide (o = "..") then clean_elems rooted (".." :: out) es
            else clean_elems rooted out' es
        | [] =>
            if rooted then clean_elems rooted [] es
            else clean_elems rooted [".."] es
        end
      else clean_elems rooted (e :: out) es
  end.

(** [filepath.Clean(path)]: the shortest path name equivalent to [path] by
    purely lexical processing; the empty path becomes ["."]. *)
Definition Clean (path : string) : string :=
  if decide (path = "") then "."
  else
    let rooted := HasPrefix path "/" in
    let es := clean_elems rooted [] (split path) in
    if rooted then "/" +:+ join es
    else if decide (es = []) then "." else join es.

(** [filepath.Join(elems...)]: empty elements in front are ignored, the
    rest is joined with separators and cleaned; no element gives [""]. *)
Fixpoint Join (elems : list string) : string :=
  match elems with
  | [] => ""
  | e :: es => if decide (e = "") then Join es else Clean (join (e :: es))
  end.

(** The part of [path] up to and including its last separator. *)
Fixpoint upto_last_sep (path : string) : string :=
  match path with
  | "" => ""
  | String c s' =>
      if Contains path "/" then String c (upto_last_sep s') else ""
  end.

(** [filepath.Dir(path)]: all but the last element of [path], cleaned. *)
Definition Dir (path : string) : string := Clean (upto_last_sep path).

(** [filepath.Ext(path)]: the suffix of [path] from the last dot of its
    last element on, empty if there is none. *)
Fixpoint Ext (path : string) : string :=
  match path with
  | "" => ""
  | String c s =>
      if Contains s "/" then Ext s
      else if decide (Ext s = "") then
        if decide (c = "."%char) then path else ""
      else Ext s
  end.

(** *** Requests against the file system

    A handler is a program over the calls it makes to the operating system
    and to the logger; what a call returns is not decided here. *)

(** What [io.Copy] reads from: a file opened under a name, the uploaded
    file of the form, or the current entry of a tar stream. *)
Inductive source :=
| File (name : string)
| Upload
| Entry (name : string).

(** A header of a tar stream: its name, its type flag and its mode. *)
Record header := Header { Name : string; Typeflag : ascii; Mode : nat }.

Definition TypeReg : ascii := "0".
Definition TypeDir : ascii := "5".

(** What reading a file as a gzipped tar stream gives: an error of
    [gzip.NewReader], or the headers [tr.Next] returns before it returns
    [io.EOF] ([None]) or another error. *)
Definition archive : Type := string + list header * option string.

(** An entry of a directory as [os.ReadDir] returns it: its name, whether
    it is a directory, and what its method [Info] returns, the size and
    the time of the last change, or [None] for an error. *)
Record DirEntry := MkDirEntry {
  entry_Name : string;
  entry_IsDir : bool;
  entry_Info : option (Z * Z)
}.

(** An argument of [log.Printf]. *)
Inductive arg :=
| Str (s : string)
| Num (n : nat).

(** The calls, each with the type of what it returns; an [error] is the
    text of [err.Error()], and [None] is [nil]. *)
Inductive call : Type -> Type :=
| Stat (name : string) : call (string + bool)
| ReadFile (name : string) : call (string + string)
| ReadDir (name : string) : call (string + list DirEntry)
| MkdirAll (name : string) : call (option string)
| WriteFile (name data : string) : call (option string)
| RemoveAll (name : string) : call (option string)
| Rename (oldpath newpath : string) : call (option string)
| Open (name : string) : call (option string)
| OpenArchive (name : string) : call (string + archive)
| OpenUpload : call (option string)
| Create (name : string) : call (option string)
| Copy (dst : string) (src : source) : call (option string)
| Chmod (name : string) (mode : nat) : call (option string)
| Printf (format : string) (args : list arg) : call unit.

(** A value of a JSON answer. *)
Inductive json :=
| JStr (s : string)
| JNum (n : nat)
| JList (l : list string).

(** An element of the answer of [listFiles]; the time is to be written in
    the format RFC 3339. *)
Record FileInfo := MkFileInfo {
  file_Name : string;
  file_Path : string;
  file_IsDir : bool;
  file_Size : Z;
  file_ModTime : Z;
  file_Extension : string
}.

(** The body of an answer: a JSON object, by its members, or the array of
    [listFiles]. *)
Inductive body :=
| Object (members : list (string * json))
| Array (files : list FileInfo).

(** An answer: its status and its body. *)
Record response := Response { status : nat; content : body }.

(** [c.JSON(status, ...)] for a JSON object. *)
Definition JSON (status : nat) (members : list (string * json)) : response :=
  Response status (Object members).

Definition StatusOK : nat := 200.
Definition StatusBadRequest : nat := 400.
Definition StatusForbidden : nat := 403.
Definition StatusNotFound : nat := 404.
Definition StatusInternalServerError : nat := 500.

Definition ErrorResponse (status : nat) (error message : string) : response :=
  JSON status [("error", JStr error); ("message", JStr message)].

(** *** main.go *)

Definition MinecraftDir : string := "./minecraft".

(** The result of [sanitizePath]: the path, or the text of the error. *)
Definition sanitizePath (path : string) : string + string :=
  let path := TrimSpace path in
  if decide (path = "" \/ path = "/") then inl MinecraftDir
  else
    let path := TrimPrefix path "/" in
    let cleanPath := Clean path in
    if Contains cleanPath ".." then
      inr "invalid path: directory traversal not allowed"
    else
      let fullPath := Join [MinecraftDir; cleanPath] in
      inl fullPath.

Section listFiles.

(** [filepath.Rel] is not interpreted. *)
Variable Rel : string -> string -> string + string.

(** The loop of [listFiles] over the entries of the directory. *)
Fixpoint infos (fullPath : string) (entries : list DirEntry) : list FileInfo :=
  match entries with
  | [] => []
  | entry :: entries =>
      match entry_Info entry with
      | None => infos fullPath entries
      | Some (size, modTime) =>
          let relativePath :=
            match Rel MinecraftDir (Join [fullPath; entry_Name entry]) with
            | inr relativePath => relativePath
            | inl _ => entry_Name entry
            end in
          MkFileInfo (entry_Name entry) relativePath (entry_IsDir entry) size modTime
            (if entry_IsDir entry then "" else Ext (entry_Name entry))
          :: infos fullPath entries
      end
  end.

(** [listFiles], for the query parameter [path]. *)
Definition listFiles (path : string) : prog call response :=
  match sanitizePath path with
  | inr err => mret (ErrorResponse StatusBadRequest "invalid_path" err)
  | inl fullPath =>
      entries ← do (ReadDir fullPath);
      match entries with
      | inl err => mret (ErrorResponse StatusNotFound "directory_not_found" err)
      | inr entries => mret (Response StatusOK (Array (infos fullPath entries)))
      end
  end.

End listFiles.

(** [readFile], for the query parameter [path]. *)
Definition readFile (path : string) : prog call response :=
  if decide (path = "") then
    mret (ErrorResponse StatusBadRequest "missing_path" "Path parameter is required")
  else
    match sanitizePath path with
    | inr err => mret (ErrorResponse StatusBadRequest "invalid_path" err)
    | inl fullPath =>
        info ← do (Stat fullPath);
        match info with
        | inl err => mret (ErrorResponse StatusNotFound "file_not_found" err)
        | inr true =>
            mret (ErrorResponse StatusBadRequest "is_directory" "Cannot read directory as file")
        | inr false =>
            content ← do (ReadFile fullPath);
            match content with
            | inl err => mret (ErrorResponse StatusInternalServerError "read_error" err)
            | inr content =>
                mret (JSON StatusOK [("path", JStr path); ("content", JStr content)])
            end
        end
    end.

(** [writeFile], for what [c.Bind] gives: an error or the path and the
    content. *)
Definition writeFile (request : string + string * string) : prog call response :=
  match request with
  | inl err => mret (ErrorResponse StatusBadRequest "invalid_json" err)
  | inr (path, content) =>
      if decide (path = "") then
        mret (ErrorResponse StatusBadRequest "missing_path" "Path is required")
      else
        match sanitizePath path with
        | inr err => mret (ErrorResponse StatusBadRequest "invalid_path" err)
        | inl fullPath =>
            let dir := Dir fullPath in
            err ← do (MkdirAll dir);
            match err with
            | Some err => mret (ErrorResponse StatusInternalServerError "mkdir_error" err)
            | None =>
                err ← do (WriteFile fullPath content);
                match err with
                | Some err => mret (ErrorResponse StatusInternalServerError "write_error" err)
                | None =>
                    do (Printf "[i] File written: %s" [Str path]);;
                    mret (JSON StatusOK
                            [("message", JStr "File written successfully"); ("path", JStr path)])
                end
            end
        end
  end.

(** [deleteFile], for the query parameter [path]. *)
Definition deleteFile (path : string) : prog call response :=
  if decide (path = "") then
    mret (ErrorResponse StatusBadRequest "missing_path" "Path parameter is required")
  else
    match sanitizePath path with
    | inr err => mret (ErrorResponse StatusBadRequest "invalid_path" err)
    | inl fullPath =>
        if decide (fullPath = MinecraftDir) then
          mret (ErrorResponse StatusForbidden "forbidden" "Cannot delete minecraft root directory")
        else
          err ← do (RemoveAll fullPath);
          match err with
          | Some err => mret (ErrorResponse StatusInternalServerError "delete_error" err)
          | None =>
              do (Printf "[i] Deleted: %s" [Str path]);;
              mret (JSON StatusOK
                      [("message", JStr "File/directory deleted successfully"); ("path", JStr path)])
          end
    end.

(** [createDirectory], for what [c.Bind] gives: an error or the path. *)
Definition createDirectory (request : string + string) : prog call response :=
  match request with
  | inl err => mret (ErrorResponse StatusBadRequest "invalid_json" err)
  | inr path =>
      if decide (path = "") then
        mret (ErrorResponse StatusBadRequest "missing_path" "Path is required")
      else
        match sanitizePath path with
        | inr err => mret (ErrorResponse StatusBadRequest "invalid_path" err)
        | inl fullPath =>
            err ← do (MkdirAll fullPath);
            match err with
            | Some err => mret (ErrorResponse StatusInternalServerError "mkdir_error" err)
            | None =>
                do (Printf "[i] Directory created: %s" [Str path]);;
                mret (JSON StatusOK
                        [("message", JStr "Directory created successfully"); ("path", JStr path)])
            end
        end
  end.

(** [moveFile], for what [c.Bind] gives: an error or [from] and [to]. *)
Definition moveFile (request : string + string * string) : prog call response :=
  match request with
  | inl err => mret (ErrorResponse StatusBadRequest "invalid_json" err)
  | inr (from, to) =>
      if decide (from = "" \/ to = "") then
        mret (ErrorResponse StatusBadRequest "missing_paths"
                "Both 'from' and 'to' paths are required")
      else
        match sanitizePath from with
        | inr err => mret (ErrorResponse StatusBadRequest "invalid_from_path" err)
        | inl fromPath =>
            match sanitizePath to with
            | inr err => mret (ErrorResponse StatusBadRequest "invalid_to_path" err)
            | inl toPath =>
                let dir := Dir toPath in
                err ← do (MkdirAll dir);
                match err with
                | Some err => mret (ErrorResponse StatusInternalServerError "mkdir_error" err)
                | None =>
                    err ← do (Rename fromPath toPath);
                    match err with
                    | Some err => mret (ErrorResponse StatusInternalServerError "move_error" err)
                    | None =>
                        do (Printf "[i] Moved: %s -> %s" [Str from; Str to]);;
                        mret (JSON StatusOK
                                [("message", JStr "File/directory moved successfully");
                                 ("from", JStr from); ("to", JStr to)])
                    end
                end
            end
        end
  end.

(** [copyFile], for what [c.Bind] gives: an error or [from] and [to]. *)
Definition copyFile (request : string + string * string) : prog call response :=
  match request with
  | inl err => mret (ErrorResponse StatusBadRequest "invalid_json" err)
  | inr (from, to) =>
      if decide (from = "" \/ to = "") then
        mret (ErrorResponse StatusBadRequest "missing_paths"
                "Both 'from' and 'to' paths are required")
      else
        match sanitizePath from with
        | inr err => mret (ErrorResponse StatusBadRequest "invalid_from_path" err)
        | inl fromPath =>
            match sanitizePath to with
            | inr err => mret (ErrorResponse StatusBadRequest "invalid_to_path" err)
            | inl toPath =>
                info ← do (Stat fromPath);
                match info with
                | inl err => mret (ErrorResponse StatusNotFound "source_not_found" err)
                | inr true =>
                    mret (ErrorResponse StatusBadRequest "is_directory"
                            "Directory copying not supported, use move instead")
                | inr false =>
                    let dir := Dir toPath in
                    err ← do (MkdirAll dir);
                    match err with
                    | Some err => mret (ErrorResponse StatusInternalServerError "mkdir_error" err)
                    | None =>
                        err ← do (Open fromPath);
                        match err with
                        | Some err => mret (ErrorResponse StatusInternalServerError "open_error" err)
                        | None =>
                            err ← do (Create toPath);
                            match err with
                            | Some err =>
                                mret (ErrorResponse StatusInternalServerError "create_error" err)
                            | None =>
                                err ← do (Copy toPath (File fromPath));
                                match err with
                                | Some err =>
                                    mret (ErrorResponse StatusInternalServerError "copy_error" err)
                                | None =>
                                    do (Printf "[i] Copied: %s -> %s" [Str from; Str to]);;
                                    mret (JSON StatusOK
                                            [("message", JStr "File copied successfully");
                                             ("from", JStr from); ("to", JStr to)])
                                end
                            end
                        end
                    end
                end
            end
        end
  end.

(** The loop of [extractTarGz] over the headers still to come, [extracted]
    being the names extracted so far; [broken] is the error [tr.Next]
    returns after the last header, if it is not [io.EOF]. *)
Fixpoint extract (dest : string) (headers : list header) (broken : option string)
    (extracted : list string) : prog call (string + list string) :=
  match headers with
  | [] =>
      match broken with
      | Some err => mret (inl ("failed to read tar header: " +:+ err))
      | None => mret (inr extracted)
      end
  | h :: headers =>
      let target := Join [dest; Name h] in
      let target := Clean target in
      if negb (HasPrefix target (Clean dest +:+ "/")) && negb (bool_decide (target = Clean dest))
      then mret (inl ("invalid file path: " +:+ Name h))
      else if decide (Typeflag h = TypeDir) then
        err ← do (MkdirAll target);
        match err with
        | Some err => mret (inl ("failed to create directory " +:+ target +:+ ": " +:+ err))
        | None => extract dest headers broken (extracted ++ [Name h])
        end
      else
        err ← do (MkdirAll (Dir target));
        match err with
        | Some err =>
            mret (inl ("failed to create directory for file " +:+ target +:+ ": " +:+ err))
        | None =>
            if decide (Typeflag h = TypeReg) then
              err ← do (Create target);
              match err with
              | Some err => mret (inl ("failed to create file " +:+ target +:+ ": " +:+ err))
              | None =>
                  err ← do (Copy target (Entry (Name h)));
                  match err with
                  | Some err => mret (inl ("failed to extract file " +:+ target +:+ ": " +:+ err))
                  | None =>
                      err ← do (Chmod target (Mode h));
                      match err with
                      | Some err =>
                          do (Printf "[w] Failed to set permissions for %s: %v" [Str target; Str err])
                      | None => mret ()
                      end;;
                      extract dest headers broken (extracted ++ [Name h])
                  end
              end
            else extract dest headers broken extracted
        end
  end.

(** [extractTarGz]: the names extracted, or the text of the error. *)
Definition extractTarGz (src dest : string) : prog call (string + list string) :=
  file ← do (OpenArchive src);
  match file with
  | inl err => mret (inl ("failed to open file: " +:+ err))
  | inr (inl err) => mret (inl ("failed to create gzip reader: " +:+ err))
  | inr (inr (headers, broken)) => extract dest headers broken []
  end.

Section extractArchive.

(** [strings.Map(unicode.ToLower, s)], which is what [strings.ToLower]
    returns for a string with a byte outside ASCII, is not interpreted. *)
Variable MapToLower : string -> string.

Fixpoint map_bytes (f : ascii -> ascii) (s : string) : string :=
  match s with
  | "" => ""
  | String c s' => String (f c) (map_bytes f s')
  end.

Fixpoint isASCII (s : string) : bool :=
  match s with
  | "" => true
  | String c s' => (nat_of_ascii c <? 128)%nat && isASCII s'
  end.

Definition lower (c : ascii) : ascii :=
  if ((nat_of_ascii "A" <=? nat_of_ascii c) && (nat_of_ascii c <=? nat_of_ascii "Z"))%nat
  then ascii_of_nat (nat_of_ascii c + 32)
  else c.

(** [strings.ToLower(s)]. *)
Definition ToLower (s : string) : string :=
  if isASCII s then map_bytes lower s else MapToLower s.

(** [extractArchive], for what [c.Bind] gives: an error or the path and
    the destination. *)
Definition extractArchive (request : string + string * string) : prog call response :=
  match request with
  | inl err => mret (ErrorResponse StatusBadRequest "invalid_json" err)
  | inr (path, destination) =>
      if decide (path = "") then
        mret (ErrorResponse StatusBadRequest "missing_path" "Path is required")
      else
        match sanitizePath path with
        | inr err => mret (ErrorResponse StatusBadRequest "invalid_path" err)
        | inl fullPath =>
            info ← do (Stat fullPath);
            match info with
            | inl err => mret (ErrorResponse StatusNotFound "file_not_found" err)
            | inr true => mret (ErrorResponse StatusBadRequest "is_directory" "Cannot extract directory")
            | inr false =>
                if negb (HasSuffix (ToLower fullPath) ".tar.gz")
                   && negb (HasSuffix (ToLower fullPath) ".tgz")
                then mret (ErrorResponse StatusBadRequest "unsupported_format"
                             "Only tar.gz and .tgz files are supported")
                else
                  let extracting destPath :=
                    extractedFiles ← extractTarGz fullPath destPath;
                    match extractedFiles with
                    | inl err => mret (ErrorResponse StatusInternalServerError "extraction_failed" err)
                    | inr extractedFiles =>
                        do (Printf "[i] Extracted %d files from %s to %s"
                              [Num (length extractedFiles); Str path; Str destPath]);;
                        mret (JSON StatusOK
                                [("message", JStr "Archive extracted successfully");
                                 ("source", JStr path);
                                 ("destination", JStr destPath);
                                 ("extracted_files", JList extractedFiles);
                                 ("count", JNum (length extractedFiles))])
                    end in
                  if decide (destination <> "") then
                    match sanitizePath destination with
                    | inr err => mret (ErrorResponse StatusBadRequest "invalid_destination" err)
                    | inl destPath => extracting destPath
                    end
                  else extracting (Dir fullPath)
            end
        end
  end.

End extractArchive.

(** [uploadFile], for what [c.FormFile] gives, an error or the file,
    and the form value [path]. *)
Definition uploadFile (file : option string) (path : string) : prog call response :=
  match file with
  | Some err => mret (JSON StatusBadRequest [("error", JStr err)])
  | None =>
      if decide (path = "") then
        mret (JSON StatusBadRequest [("error", JStr "missing path")])
      else
        match sanitizePath path with
        | inr err => mret (JSON StatusBadRequest [("error", JStr err)])
        | inl fullPath =>
            err ← do (MkdirAll (Dir fullPath));
            match err with
            | Some err => mret (JSON StatusInternalServerError [("error", JStr err)])
            | None =>
                err ← do OpenUpload;
                match err with
                | Some err => mret (JSON StatusInternalServerError [("error", JStr err)])
                | None =>
                    err ← do (Create fullPath);
                    match err with
                    | Some err => mret (JSON StatusInternalServerError [("error", JStr err)])
                    | None =>
                        err ← do (Copy fullPath Upload);
                        match err with
                        | Some err => mret (JSON StatusInternalServerError [("error", JStr err)])
                        | None =>
                            do (Printf "[i] Uploaded file: %s" [Str path]);;
                            mret (JSON StatusOK
                                    [("message", JStr "File uploaded successfully");
                                     ("path", JStr path)])
                        end
                    end
                end
            end
        end
  end.

(** The routes of the group [/api/files] to these handlers, each with what
    its handler takes from the request. *)
Inductive request :=
| GET_files (path : string)
| GET_content (path : string)
| POST_content (body : string + string * string)
| PUT_content (body : string + string * string)
| DELETE_files (path : string)
| POST_mkdir (body : string + string)
| POST_move (body : string + string * string)
| POST_copy (body : string + string * string)
| POST_extract (body : string + string * string)
| POST_upload (file : option string) (path : string).

Definition files (MapToLower : string -> string) (Rel : string -> string -> string + string)
    (r : request) : prog call response :=
  match r with
  | GET_files path => listFiles Rel path
  | GET_content path => readFile path
  | POST_content body => writeFile body
  | PUT_content body => writeFile body
  | DELETE_files path => deleteFile path
  | POST_mkdir body => createDirectory body
  | POST_move body => moveFile body
  | POST_copy body => copyFile body
  | POST_extract body => extractArchive MapToLower body
  | POST_upload file path => uploadFile file path
  end.

(** *** What a handler asks of the operating system *)

(** An operating system in which every call succeeds: a name is that of a
    file with the content [data], and a file read as an archive is [tar]. *)
Definition succeeds (data : string) (tar : archive) : os call :=
  fun A c =>
    match c in call A return A with
    | Stat _ => inr false
    | ReadFile _ => inr data
    | ReadDir _ => inr []
    | OpenArchive _ => inr tar
    | MkdirAll _ | WriteFile _ _ | RemoveAll _ | Rename _ _ | Open _ | OpenUpload
    | Create _ | Copy _ _ | Chmod _ _ => None
    | Printf _ _ => ()
    end.

(** The names of files and directories a call hands to the operating
    system. *)
Definition names (m : made call) : list string :=
  match m with
  | Made (Stat name) _ | Made (ReadFile name) _ | Made (ReadDir name) _
  | Made (MkdirAll name) _
  | Made (WriteFile name _) _ | Made (RemoveAll name) _ | Made (Open name) _
  | Made (OpenArchive name) _ | Made (Create name) _ | Made (Chmod name _) _ => [name]
  | Made (Rename oldpath newpath) _ => [oldpath; newpath]
  | Made (Copy dst (File name)) _ => [dst; name]
  | Made (Copy dst _) _ => [dst]
  | Made OpenUpload _ | Made (Printf _ _) _ => []
  end.

(** The calls that change the file system. *)
Definition changes (m : made call) : bool :=
  match m with
  | Made (MkdirAll _) _ | Made (WriteFile _ _) _ | Made (RemoveAll _) _
  | Made (Rename _ _) _ | Made (Create _) _ | Made (Copy _ _) _ | Made (Chmod _ _) _ => true
  | _ => false
  end.


(** The archive a call to open one has returned. *)
Definition unpacked (m : made call) : option archive :=
  match m with
  | Made c a =>
      match c in call A return A -> option archive with
      | OpenArchive _ => fun a => match a with inr tar => Some tar | inl _ => None end
      | _ => fun _ => None
      end a
  end.

(** A name of a file or a directory: not empty, neither [.] nor [..], and
    without separator. *)
Definition element (e : string) : Prop :=
  e <> "" /\ e <> "." /\ e <> ".." /\ Contains e "/" = false.

(** The paths that stay in the Minecraft directory: the directory as the
    program names it, or [minecraft] followed by names. *)
Definition confined (p : string) : Prop :=
  p = MinecraftDir \/ exists es, p = join ("minecraft" :: es) /\ Forall element es.

(** What a file endpoint may ask of the operating system: to create the
    working directory, or anything on confined paths. *)
Definition allowed (m : made call) : Prop :=
  (exists a, m = Made (MkdirAll ".") a) \/ Forall confined (names m).

End Files.

(** ** The download of Paper *)

Module Paper.
Import Prog.

Definition baseURL : string := "https://api.papermc.io/v2".
Definition mcDir : string := "minecraft".
Definition jarName : string := "server.jar".

Definition cr : string := String (Ascii.ascii_of_nat 13) "".
Definition nl : string := String (Ascii.ascii_of_nat 10) "".

Record Build := MkBuild { build : Z; channel : string }.

(** The manifest [GetPaper] writes, by its keys; [manifest_date] is the
    time that is written in the format RFC 3339. *)
Record manifest := Manifest {
  manifest_filename : string;
  manifest_version : string;
  manifest_build : Z;
  manifest_size : Z;
  manifest_download : string;
  manifest_date : Z
}.

(** An operand of the logger: a string, an integer, [float64(bytes)] divided
    twice by 1024, and the same divided by a number of nanoseconds taken as
    seconds. *)
Inductive arg :=
| Str (s : string)
| Int (n : Z)
| MB (bytes : Z)
| MBps (bytes elapsed : Z).

(** The calls of [GetPaper], each with the type of what it returns.  An
    error is the text of [err.Error()], and [None] is [nil].  [http.Get]
    returns an error, or the code and the text of the status; what
    [json.NewDecoder(body).Decode] finds in the body of the answer to a URL
    or in a file is a call of its own.  [ReadBody] stands for all the calls
    of [resp.Body.Read] on the answer to a URL: it returns what those with
    a [nil] error have read, in order, and then what the first one with an
    error has read, with [None] if the error is [io.EOF].  The time is in
    nanoseconds. *)
Inductive call : Type -> Type :=
| Println (args : list arg) : call unit
| Printf (format : string) (args : list arg) : call unit
| MkdirAll (name : string) : call (option string)
| Get (url : string) : call (string + Z * string)
| DecodeProject (url : string) : call (string + list string)
| DecodeBuilds (url : string) : call (string + list Build)
| DecodeBuild (url : string) : call (string + string)
| ReadBody (url : string) : call (list string * (string * option string))
| Stat (name : string) : call (option string)
| Open (name : string) : call (option string)
| DecodeManifest (name : string) : call (string + string * Z)
| Create (name : string) : call (option string)
| Write (name p : string) : call (option string)
| Now : call Z
| Since (start : Z) : call Z
| Encode (name : string) (m : manifest) : call (option string).

Definition manifestPath : string := mcDir +:+ "/manifest.json".

Definition builds_url (version : string) : string :=
  baseURL +:+ "/projects/paper/versions/" +:+ version +:+ "/builds".

Definition build_url (version : string) (b : Z) : string :=
  baseURL +:+ "/projects/paper/versions/" +:+ version +:+ "/builds/" +:+ pretty b.

Definition download_url (version : string) (b : Z) (filename : string) : string :=
  baseURL +:+ "/projects/paper/versions/" +:+ version +:+ "/builds/" +:+ pretty b
  +:+ "/downloads/" +:+ filename.

(** One turn of the loop of [GetPaper] on what a call of [Read] has read;
    [k] is what follows. *)
Definition read (start : Z) (p : string) (totalBytes : Z)
    (k : Z -> prog call (string + Z)) : prog call (string + Z) :=
  if decide (0 < String.length p) then
    writeErr ← do (Write (mcDir +:+ "/" +:+ jarName) p);
    match writeErr with
    | Some writeErr => mret (inl writeErr)
    | None =>
        let totalBytes := (totalBytes + Z.of_nat (String.length p))%Z in
        elapsed ← do (Since start);
        let elapsed := if decide (elapsed < 100000000)%Z then 100000000%Z else elapsed in
        do (Printf (cr +:+ "[i] downloading: %.2f MB done, %.2f MB/s")
              [MB totalBytes; MBps totalBytes elapsed]);;
        k totalBytes
    end
  else k totalBytes.

(** The loop of [GetPaper] over the body: the error that ends it, or the
    number of bytes written. *)
Fixpoint copy (start : Z) (reads : list string) (last : string * option string)
    (totalBytes : Z) : prog call (string + Z) :=
  match reads with
  | p :: reads => read start p totalBytes (copy start reads last)
  | [] =>
      read start last.1 totalBytes (fun totalBytes =>
        match last.2 with
        | None => mret (inr totalBytes)
        | Some readErr => mret (inl readErr)
        end)
  end.

(** [GetPaper] from ["[i] get download info for build"] on. *)
Definition download (version : string) (latestBuild : Build) : prog call (option string) :=
  do (Println [Str "[i] get download info for build"; Int (build latestBuild)]);;
  resp ← do (Get (build_url version (build latestBuild)));
  match resp with
  | inl err => mret (Some err)
  | inr (StatusCode, Status) =>
      if decide (StatusCode <> 200%Z) then mret (Some ("bad status: " +:+ Status))
      else
        buildInfo ← do (DecodeBuild (build_url version (build latestBuild)));
        match buildInfo with
        | inl err => mret (Some err)
        | inr filename =>
            do (Println [Str "[i] downloading"; Str filename]);;
            let downloadURL := download_url version (build latestBuild) filename in
            resp ← do (Get downloadURL);
            match resp with
            | inl err => mret (Some err)
            | inr (StatusCode, Status) =>
                if decide (StatusCode <> 200%Z) then mret (Some ("bad status: " +:+ Status))
                else
                  err ← do (Create (mcDir +:+ "/" +:+ jarName));
                  match err with
                  | Some err => mret (Some err)
                  | None =>
                      start ← do Now;
                      body ← do (ReadBody downloadURL);
                      copied ← copy start body.1 body.2 0;
                      match copied with
                      | inl err => mret (Some err)
                      | inr totalBytes =>
                          do (Printf (nl +:+ "[i] done dl build %d (%.2f MB)" +:+ nl)
                                [Int (build latestBuild); MB totalBytes]);;
                          date ← do Now;
                          let manifest :=
                            Manifest filename version (build latestBuild) totalBytes
                              downloadURL date in
                          err ← do (Create (mcDir +:+ "/manifest.json"));
                          match err with
                          | Some err => mret (Some err)
                          | None =>
                              err ← do (Encode (mcDir +:+ "/manifest.json") manifest);
                              match err with
                              | Some err => mret (Some err)
                              | None =>
                                  do (Println [Str "[i] manifest.json written"]);;
                                  mret None
                              end
                          end
                      end
                  end
            end
        end
  end.

(** [GetPaper] from ["[i] using version"] on, [manual] telling whether the
    version was given. *)
Definition install (manual : bool) (version : string) : prog call (option string) :=
  do (Println [Str "[i] using version"; Str version]);;
  do (Println [Str "[i] get latest build"]);;
  resp ← do (Get (builds_url version));
  match resp with
  | inl err => mret (Some err)
  | inr (StatusCode, Status) =>
      if decide (StatusCode <> 200%Z) then mret (Some ("bad status: " +:+ Status))
      else
        builds ← do (DecodeBuilds (builds_url version));
        match builds with
        | inl err => mret (Some err)
        | inr Builds =>
            match last Builds with
            | None => mret (Some "no builds found")
            | Some latestBuild =>
                err ← do (Stat manifestPath);
                match err with
                | Some _ => download version latestBuild
                | None =>
                    err ← do (Open manifestPath);
                    match err with
                    | Some err => mret (Some err)
                    | None =>
                        oldManifest ← do (DecodeManifest manifestPath);
                        match oldManifest with
                        | inl _ => download version latestBuild
                        | inr (Version, Build) =>
                            if decide (Version = version) then
                              if decide (build latestBuild <= Build)%Z then
                                do (Printf ("[i] requested function rejected, because version %s (build %d) is already up-to-date (manifest-check)" +:+ nl)
                                      [Str Version; Int Build]);;
                                mret None
                              else download version latestBuild
                            else
                              do (Printf ("[!] manifest version (%s) differs from requested version (%s). This may cause issues!" +:+ nl)
                                    [Str Version; Str version]);;
                              if manual then download version latestBuild
                              else
                                do (Println [Str "[!] requested function rejected, because automatic versioning is enabled."]);;
                                do (Println [Str "[!] overwrite by manually setting a version in manifest.json or env to prevent unexpected issues."]);;
                                mret None
                        end
                    end
                end
            end
        end
  end.

(** [func GetPaper(version string) error]. *)
Definition GetPaper (version : string) : prog call (option string) :=
  let manual := negb (bool_decide (version = "no_version")) in
  do (Println [Str "[i] mkdir /minecraft"]);;
  err ← do (MkdirAll mcDir);
  match err with
  | Some err => mret (Some err)
  | None =>
      if manual then install manual version
      else
        do (Println [Str "[i] get latest version"]);;
        resp ← do (Get (baseURL +:+ "/projects/paper"));
        match resp with
        | inl err => mret (Some err)
        | inr (StatusCode, Status) =>
            if decide (StatusCode <> 200%Z) then mret (Some ("bad status: " +:+ Status))
            else
              project ← do (DecodeProject (baseURL +:+ "/projects/paper"));
              match project with
              | inl err => mret (Some err)
              | inr Versions =>
                  match last Versions with
                  | None => mret (Some "no versions found")
                  | Some version => install manual version
                  end
              end
        end
  end.

(** *** What a run shows *)

(** The name a call hands to [os.Create]. *)
Definition created (m : made call) : option string :=
  match m with
  | Made (Create name) _ => Some name
  | _ => None
  end.

(** The bytes a call hands to [Write]. *)
Definition written (m : made call) : option string :=
  match m with
  | Made (Write _ p) _ => Some p
  | _ => None
  end.

(** The manifest a call hands to the encoder. *)
Definition encoded (m : made call) : option manifest :=
  match m with
  | Made (Encode _ m) _ => Some m
  | _ => None
  end.

(** The version and the build a call has found in the manifest. *)
Definition installed (m : made call) : option (string * Z) :=
  match m with
  | Made c a =>
      match c in call A return A -> option (string * Z) with
      | DecodeManifest _ => fun a => match a with inr old => Some old | inl _ => None end
      | _ => fun _ => None
      end a
  end.

(** The URL and the builds a call has found in the list of builds. *)
Definition listed (m : made call) : option (string * list Build) :=
  match m with
  | Made c a =>
      match c in call A return A -> option (string * list Build) with
      | DecodeBuilds url =>
          fun a => match a with inr builds => Some (url, builds) | inl _ => None end
      | _ => fun _ => None
      end a
  end.

(** What a call has read of a body. *)
Definition body_read (m : made call) : option (list string * (string * option string)) :=
  match m with
  | Made c a =>
      match c in call A return A -> option (list string * (string * option string)) with
      | ReadBody _ => fun a => Some a
      | _ => fun _ => None
      end a
  end.

(** The strings of [l], one after the other. *)
Fixpoint concat (l : list string) : string :=
  match l with
  | [] => ""
  | s :: l => s +:+ concat l
  end.

(** A network and a file system in which every call succeeds: [versions]
    and [builds] are listed, the file of a build has the name [filename]
    and the body [reads], and the manifest, if [old] is one, holds [old]. *)
Definition answers (versions : list string) (builds : list Build) (filename : string)
    (reads : list string) (old : option (string * Z)) : os call :=
  fun A c =>
    match c in call A return A with
    | Println _ | Printf _ _ => ()
    | MkdirAll _ | Open _ | Create _ | Write _ _ | Encode _ _ => None
    | Stat _ =>
        match old with
        | Some _ => None
        | None => Some "no such file or directory"
        end
    | Get _ => inr (200%Z, "200 OK")
    | DecodeProject _ => inr versions
    | DecodeBuilds _ => inr builds
    | DecodeBuild _ => inr filename
    | ReadBody _ => (reads, ("", None))
    | DecodeManifest _ =>
        match old with
        | Some old => inr old
        | None => inl "EOF"
        end
    | Now | Since _ => 0%Z
    end.

End Paper.

(** ** The output of the child *)

Module Console.
Import Stdlib.Strings.Ascii.
Import Files.

Definition nl : string := String (ascii_of_nat 10) "".
Definition cr : string := String (ascii_of_nat 13) "".

(** [bufio.MaxScanTokenSize]: the size of the largest buffer of a
    [bufio.Scanner]. *)
Definition MaxScanTokenSize : nat := 64 * 1024.

(** [dropCR] of [bufio]: the line without a carriage return at its end. *)
Definition dropCR (line : string) : string :=
  match strip_suffix cr line with
  | Some line' => line'
  | None => line
  end.

(** The lines [scanner.Scan] and [scanner.Text] give for what is still to
    be read of the pipe, [line] being what was read of the current line:
    a line ends at a newline or at the end of the stream, where an empty
    line is none; a line that does not fit the buffer together with its
    newline ends the scan with [bufio.ErrTooLong]. *)
Fixpoint scan (data line : string) : list string :=
  match data with
  | "" =>
      if decide (line = "") then []
      else if decide (MaxScanTokenSize <= String.length line) then []
      else [dropCR line]
  | String c data =>
      if decide (c = ascii_of_nat 10) then
        if decide (MaxScanTokenSize <= String.length line) then []
        else dropCR line :: scan data ""
      else scan data (line +:+ String c "")
  end.

(** The operands with spaces between them. *)
Fixpoint spaced (operands : list string) : string :=
  match operands with
  | [] => ""
  | [s] => s
  | s :: operands => s +:+ " " +:+ spaced operands
  end.

(** What [log.Println] hands to the writer of the logger, which
    [SetLogger] leaves without prefix and without flags: the operands as
    [fmt.Sprintln] formats them. *)
Definition Sprintln (operands : list string) : string := spaced operands +:+ nl.

Definition stopping : string :=
  "[MoonriseCommon] Awaiting termination of I/O pool for up to 60s...".

(** [func (s *Server) pipeAndLog(pipeReader io.ReadCloser, prefix string)]
    on a pipe from which [output] is read: the operands of its calls of
    [log.Println], in order. *)
Definition pipeAndLog (output prefix : string) : list (list string) :=
  text ← scan output "";
  [prefix; text]
    :: (if Contains text stopping then [["[i] Server has been stopped!"]] else []).

(** The stream of the lines [ts], each ended by a newline, and then
    [tail]. *)
Definition stream (ts : list string) (tail : string) : string :=
  foldr (fun t out => t +:+ nl +:+ out) tail ts.

(** A line of [n] bytes. *)
Fixpoint filled (n : nat) : string :=
  match n with
  | 0 => ""
  | S n => String "x" (filled n)
  end.

End Console.

(** * Channels *)

Lemma send_Some msg ch :
  length (Chan.buf ch) < Chan.cap ch ->
  Chan.send msg ch = Some (Chan.Mk (Chan.cap ch) (Chan.buf ch ++ [msg])).
Proof. intros H. unfold Chan.send. by rewrite decide_True. Qed.

Lemma send_None msg ch : Chan.full ch -> Chan.send msg ch = None.
Proof. unfold Chan.full, Chan.send. intros H. rewrite decide_False; [done | lia]. Qed.

Lemma send_inv msg ch ch' :
  Chan.send msg ch = Some ch' ->
  length (Chan.buf ch) < Chan.cap ch /\ ch' = Chan.Mk (Chan.cap ch) (Chan.buf ch ++ [msg]).
Proof. unfold Chan.send. case_decide; naive_solver. Qed.

Lemma trySend_room msg ch :
  length (Chan.buf ch) < Chan.cap ch ->
  Chan.trySend msg ch = Chan.Mk (Chan.cap ch) (Chan.buf ch ++ [msg]).
Proof. intros H. unfold Chan.trySend. by rewrite send_Some. Qed.

Lemma trySend_full msg ch : Chan.full ch -> Chan.trySend msg ch = ch.
Proof. intros H. unfold Chan.trySend. by rewrite send_None. Qed.

Lemma trySend_cap msg ch : Chan.cap (Chan.trySend msg ch) = Chan.cap ch.
Proof.
  destruct (decide (length (Chan.buf ch) < Chan.cap ch)).
  - by rewrite trySend_room.
  - rewrite trySend_full; [done | unfold Chan.full; lia].
Qed.

Lemma trySend_wf msg ch : Chan.wf ch -> Chan.wf (Chan.trySend msg ch).
Proof.
  unfold Chan.wf. intros H.
  destruct (decide (length (Chan.buf ch) < Chan.cap ch)).
  - rewrite trySend_room by done. simpl. rewrite length_app. simpl. lia.
  - rewrite trySend_full; [done | unfold Chan.full; lia].
Qed.

Lemma recv_wf ch msg ch' :
  Chan.recv ch = Some (msg, ch') ->
  Chan.buf ch = msg :: Chan.buf ch' /\ Chan.cap ch' = Chan.cap ch.
Proof. unfold Chan.recv. destruct (Chan.buf ch) eqn:E; naive_solver. Qed.

(** * The log hub *)

Section hub.
Import LogHub.

Lemma run_cons e es h : run (e :: es) h = run es (step e h).
Proof. reflexivity. Qed.

Lemma run_snoc es e h : run (es ++ [e]) h = step e (run es h).
Proof. unfold run. by rewrite foldl_app. Qed.

Lemma Write_subscriber p h i :
  subscribers (Write p h).2 !! i = Chan.trySend p <$> subscribers h !! i.
Proof. simpl. apply list_lookup_fmap. Qed.

Lemma Receive_inv i h msg h' :
  Receive i h = Some (msg, h') ->
  exists ch ch',
    subscribers h !! i = Some ch /\ Chan.recv ch = Some (msg, ch') /\
    h' = Mk (sessionLogs h) (<[i := ch']> (subscribers h)).
Proof.
  unfold Receive. intros H.
  destruct (subscribers h !! i) as [ch|] eqn:E; [|done].
  destruct (Chan.recv ch) as [[m ch']|] eqn:R; [|done].
  exists ch, ch'. naive_solver.
Qed.

Lemma step_logs e h :
  sessionLogs (step e h) = sessionLogs h ++ published [e].
Proof.
  destruct e as [|p|i]; simpl; rewrite ?app_nil_r; try done.
  destruct (Receive i h) as [[m h']|] eqn:R; [|done].
  apply Receive_inv in R as (ch & ch' & _ & _ & ->). done.
Qed.

Lemma published_cons e es : published (e :: es) = published [e] ++ published es.
Proof. unfold published. by destruct e. Qed.

Lemma run_logs es h :
  sessionLogs (run es h) = sessionLogs h ++ published es.
Proof.
  revert h. induction es as [|e es IH]; intros h.
  - simpl. by rewrite app_nil_r.
  - rewrite run_cons, IH, step_logs, (published_cons e es). by rewrite app_assoc.
Qed.

(** No transition takes a channel out of [subscribers]. *)
Lemma step_registered e h i :
  is_Some (subscribers h !! i) -> is_Some (subscribers (step e h) !! i).
Proof.
  intros [ch Hch]. destruct e as [|p|j]; simpl.
  - rewrite lookup_app_l; [eauto | by eapply lookup_lt_Some].
  - rewrite list_lookup_fmap, Hch. eauto.
  - destruct (Receive j h) as [[m h']|] eqn:R; [|eauto].
    apply Receive_inv in R as (c & c' & Hc & _ & ->). simpl.
    apply lookup_lt_is_Some. rewrite length_insert.
    by eapply lookup_lt_Some.
Qed.

Lemma run_registered es h i :
  is_Some (subscribers h !! i) -> is_Some (subscribers (run es h) !! i).
Proof.
  revert h. induction es as [|e es IH]; intros h H; [done|].
  rewrite run_cons. by apply IH, step_registered.
Qed.

Lemma step_wf e h : wf h -> wf (step e h).
Proof.
  unfold wf. intros H. destruct e as [|p|j]; simpl.
  - apply Forall_app. split; [done|].
    apply Forall_singleton. unfold Chan.wf. simpl. split; [done | lia].
  - apply Forall_fmap. eapply Forall_impl; [exact H|].
    intros ch [Hc Hw]. simpl. split; [by rewrite trySend_cap | by apply trySend_wf].
  - destruct (Receive j h) as [[m h']|] eqn:R; [|done].
    apply Receive_inv in R as (c & c' & Hc & Hr & ->). simpl.
    apply Forall_insert; [done|].
    apply recv_wf in Hr as [Hb Hcap].
    eapply Forall_lookup_1 in H as [H1 H2]; [|exact Hc].
    unfold Chan.wf in *. rewrite Hb in H2. simpl in H2. split; [congruence | lia].
Qed.

Lemma run_wf es h : wf h -> wf (run es h).
Proof.
  revert h. induction es as [|e es IH]; intros h H; [done|].
  rewrite run_cons. by apply IH, step_wf.
Qed.

Lemma init_wf : wf init.
Proof. by apply Forall_nil. Qed.

Lemma pending_Some i h ch : subscribers h !! i = Some ch -> pending i h = Chan.buf ch.
Proof. unfold pending. by intros ->. Qed.

(** A subscriber whose buffer has room when the lines are published misses
    none of them. *)
Lemma keeps_up_no_gap i es h :
  wf h -> is_Some (subscribers h !! i) -> keeps_up i es h ->
  received i es h ++ pending i (run es h) = pending i h ++ published es.
Proof.
  revert h. induction es as [|e es IH]; intros h Hwf [ch Hch] Hk.
  - simpl. by rewrite app_nil_r.
  - destruct Hk as [Hroom Hk]. rewrite run_cons.
    assert (Hreg : is_Some (subscribers (step e h) !! i))
      by (apply step_registered; eauto).
    specialize (IH (step e h) (step_wf e h Hwf) Hreg Hk).
    cbn [received]. rewrite <- app_assoc, IH, (published_cons e es).
    rewrite !app_assoc. f_equal.
    destruct e as [|p|j]; simpl.
    + rewrite ?app_nil_r. unfold pending. simpl.
      rewrite lookup_app_l; [done | by eapply lookup_lt_Some].
    + unfold pending in *. simpl. rewrite list_lookup_fmap, Hch in *. simpl.
      eapply Forall_lookup_1 in Hwf as [Hc _]; [|exact Hch].
      rewrite trySend_room by (rewrite Hc; exact Hroom). done.
    + rewrite ?app_nil_r. destruct (decide (j = i)) as [->|Hne].
      * destruct (Receive i h) as [[m h']|] eqn:R; [|done].
        apply Receive_inv in R as (c & c' & Hc & Hr & ->).
        apply recv_wf in Hr as [Hb _].
        unfold pending. simpl. rewrite Hc.
        rewrite list_lookup_insert_eq by (by eapply lookup_lt_Some).
        by rewrite Hb.
      * destruct (Receive j h) as [[m h']|] eqn:R; [|done].
        apply Receive_inv in R as (c & c' & Hc & Hr & ->).
        unfold pending. simpl. by rewrite list_lookup_insert_ne.
Qed.

End hub.

Section hub_claims.
Import LogHub.

(** A subscriber that never receives keeps its first hundred buffered lines
    and loses the rest. *)
Lemma stalled_subscriber_buffer i es h :
  wf h -> is_Some (subscribers h !! i) ->
  Forall (fun e => e <> EvReceive i) es ->
  pending i (run es h) = take 100 (pending i h ++ published es).
Proof.
  revert h. induction es as [|e es IH]; intros h Hwf [ch Hch] Hes.
  - simpl. rewrite app_nil_r. rewrite (pending_Some _ _ _ Hch).
    eapply Forall_lookup_1 in Hwf as [Hc Hw]; [|exact Hch].
    unfold Chan.wf in Hw. rewrite take_ge; [done | lia].
  - apply Forall_cons in Hes as [He Hes]. rewrite run_cons.
    assert (Hreg : is_Some (subscribers (step e h) !! i))
      by (apply step_registered; eauto).
    rewrite (IH _ (step_wf e h Hwf) Hreg Hes), (published_cons e es).
    rewrite (pending_Some _ _ _ Hch).
    eapply Forall_lookup_1 in Hwf as [Hc Hw]; [|exact Hch].
    unfold Chan.wf in Hw.
    destruct e as [|p|j]; simpl.
    + unfold pending. simpl.
      rewrite lookup_app_l by (by eapply lookup_lt_Some). by rewrite Hch.
    + unfold pending. simpl. rewrite list_lookup_fmap, Hch. simpl.
      destruct (decide (length (Chan.buf ch) < Chan.cap ch)) as [Hlt|Hge].
      * rewrite trySend_room by done. simpl. by rewrite <- app_assoc.
      * rewrite trySend_full by (unfold Chan.full; lia).
        rewrite !take_app_le by lia. done.
    + destruct (Receive j h) as [[m h']|] eqn:R.
      * apply Receive_inv in R as (c & c' & Hc' & Hr & ->).
        unfold pending. simpl.
        rewrite list_lookup_insert_ne by congruence. by rewrite Hch.
      * unfold pending. by rewrite Hch.
Qed.

(** C6: [Write] (Publish) returns for every line and every state of the hub:
    it appends the line to the history and offers it to every registered
    channel; a channel whose buffer is full, on which a plain send would wait,
    is left as it is while the history and the other channels get the line. *)
Theorem Write_appends_and_offers (p : string) (h : state) :
  (Write p h).1 = String.length p /\
  sessionLogs (Write p h).2 = sessionLogs h ++ [p] /\
  length (subscribers (Write p h).2) = length (subscribers h) /\
  forall i ch, subscribers h !! i = Some ch ->
    (Chan.full ch ->
       Chan.send p ch = None /\ subscribers (Write p h).2 !! i = Some ch) /\
    (~ Chan.full ch ->
       subscribers (Write p h).2 !! i
       = Some (Chan.Mk (Chan.cap ch) (Chan.buf ch ++ [p]))).
Proof.
  split; [done|]. split; [done|]. split.
  - simpl. apply length_fmap.
  - intros i ch Hch. rewrite Write_subscriber, Hch. simpl. split.
    + intros Hfull. split; [by apply send_None | by rewrite trySend_full].
    + intros Hroom. rewrite trySend_room; [done|]. unfold Chan.full in Hroom. lia.
Qed.

(** C3, as the code has it: nothing ever takes a channel out of
    [subscribers].  Whatever happens to the hub (lines written, further
    subscriptions, receives by any consumer), the slice only grows and a
    registered channel stays registered; [Subscribe] registers its channel
    at the end of the slice, and that channel is registered ever after. *)
Theorem subscribers_are_never_removed (es : list event) (h : state) :
  length (subscribers h) <= length (subscribers (run es h)) /\
  (forall i, is_Some (subscribers h !! i) -> is_Some (subscribers (run es h) !! i)) /\
  (Subscribe h).1 = length (subscribers h) /\
  is_Some (subscribers (run es (Subscribe h).2) !! (Subscribe h).1).
Proof.
  split; [|split; [|split]].
  - destruct (subscribers h) as [|c l] eqn:E; [simpl; lia|].
    assert (H : is_Some (subscribers h !! length l)).
    { rewrite E. apply lookup_lt_is_Some. simpl. lia. }
    apply (run_registered es) in H. apply lookup_lt_is_Some in H. simpl. lia.
  - intros i. apply run_registered.
  - done.
  - apply run_registered. cbn. rewrite lookup_app_r by done.
    rewrite Nat.sub_diag. by eexists.
Qed.

(** C3 as stated fails: after [Subscribe], no sequence of deliveries,
    subscriptions and receives leaves the channel unregistered. *)
Lemma disconnected_subscriber_stays_registered :
  ~ (exists es, subscribers (run es (Subscribe init).2) !! (Subscribe init).1 = None).
Proof.
  intros [es H].
  assert (Hs : is_Some (subscribers (Subscribe init).2 !! (Subscribe init).1))
    by (simpl; eauto).
  apply (run_registered es) in Hs. rewrite H in Hs. by destruct Hs.
Qed.

(** C5: a consumer that subscribes when the lines [published es0] have been
    published, and no other, reads exactly these, in order, from
    [GetSessionLogs].  From then on its channel stays registered, the history
    grows by the lines published, and the transition that appends a line to
    the history offers it to every registered channel, this one included.  If
    the channel has room each time, what the consumer has received and what
    waits in the channel are together the lines published since, in order and
    without a gap, whatever the other subscribers do. *)
Theorem subscriber_misses_no_line (es0 es : list event) :
  let h := run es0 init in
  let i := (Subscribe h).1 in
  let h1 := (Subscribe h).2 in
  GetSessionLogs h1 = published es0 /\
  sessionLogs (run es h1) = published es0 ++ published es /\
  (forall es1 p es2, es = es1 ++ EvWrite p :: es2 ->
     is_Some (subscribers (run es1 h1) !! i) /\
     sessionLogs (run (es1 ++ [EvWrite p]) h1) = sessionLogs (run es1 h1) ++ [p] /\
     forall j ch, subscribers (run es1 h1) !! j = Some ch ->
       subscribers (run (es1 ++ [EvWrite p]) h1) !! j = Some (Chan.trySend p ch)) /\
  (keeps_up i es h1 ->
   received i es h1 ++ pending i (run es h1) = published es).
Proof.
  intros h i h1.
  assert (Hlogs : sessionLogs h1 = published es0).
  { unfold h1, h. simpl. by rewrite run_logs. }
  assert (Hreg : is_Some (subscribers h1 !! i)).
  { unfold h1, i. simpl. rewrite lookup_app_r by done.
    rewrite Nat.sub_diag. simpl. eauto. }
  assert (Hwf : wf h1) by (apply (step_wf EvSubscribe), run_wf, init_wf).
  split; [exact Hlogs|]. split; [by rewrite run_logs, Hlogs|]. split.
  - intros es1 p es2 _. split; [by apply run_registered|].
    rewrite run_snoc. split; [done|]. intros j ch Hch.
    change (step (EvWrite p) (run es1 h1)) with (Write p (run es1 h1)).2.
    by rewrite Write_subscriber, Hch.
  - intros Hk. rewrite (keeps_up_no_gap i es h1 Hwf Hreg Hk).
    unfold pending, h1, i. simpl. rewrite lookup_app_r by done.
    by rewrite Nat.sub_diag.
Qed.

(** An instance of C5: channel 0 belongs to a consumer that never receives
    and is full after a hundred lines; the consumer of channel 1 subscribes
    then, and gets the two lines that follow while channel 0 drops them. *)
Lemma subscriber_misses_no_line_witness :
  let es0 := EvSubscribe :: replicate 100 (EvWrite "old") in
  let es := [EvWrite "a"; EvReceive 1; EvWrite "b"] in
  length (pending 0 (run (es0 ++ EvSubscribe :: es) init)) = 100 /\
  received 1 es (Subscribe (run es0 init)).2
    ++ pending 1 (run es (Subscribe (run es0 init)).2) = ["a"; "b"].
Proof.
  split; [by vm_compute|].
  refine (proj2 (proj2 (proj2 (subscriber_misses_no_line
    (EvSubscribe :: replicate 100 (EvWrite "old"))
    [EvWrite "a"; EvReceive 1; EvWrite "b"]))) _).
  vm_compute. repeat split; lia.
Defined.

End hub_claims.

(** * The supervisor *)

Import Server.

(** Unfolding the Go code down to matches on the state. *)
Ltac munfold :=
  unfold GetStatus, Start, Stop, Kill, RunCommand, active_running, startInternal,
    Server_RunCommand, Server_Stop, Server_Kill,
    early_test, early_wait, early_lock, early_clear, watcher_wait, watcher_lock,
    watcher_clear, writer_write, child_exit, Wait, close_done_if_open,
    clear_if_active, close_done, Process_Kill, send_stdin, new_Server, defer,
    Lock_mu, Unlock_mu, Lock_serverMu, Unlock_serverMu, get_activeServer,
    set_activeServer, load, update, park, panic, mbind, M_bind, mret, M_ret in *.

Lemma lookup_fresh (l : list Server) x : (l ++ [x]) !! length l = Some x.
Proof. rewrite lookup_app_r by done. by rewrite Nat.sub_diag. Qed.

Lemma alter_fresh (f : Server -> Server) (l : list Server) x :
  alter f (length l) (l ++ [x]) = l ++ [f x].
Proof.
  apply list_eq. intros i. destruct (decide (i = length l)) as [->|Hne].
  - by rewrite list_lookup_alter_eq, !lookup_fresh.
  - rewrite list_lookup_alter_ne by done.
    destruct (decide (i < length l)).
    + by rewrite !lookup_app_l.
    + rewrite !lookup_ge_None_2; [done | |]; rewrite length_app; simpl; lia.
Qed.

Lemma alter_same (f : Server -> Server) s (l : list Server) x :
  l !! s = Some x -> f x = x -> alter f s l = l.
Proof.
  intros H Hf. apply list_eq. intros i. destruct (decide (s = i)) as [->|].
  - rewrite list_lookup_alter_eq, H. simpl. by rewrite Hf.
  - by rewrite list_lookup_alter_ne.
Qed.

Lemma alter_agree (f g : Server -> Server) s (l : list Server) x :
  l !! s = Some x -> f x = g x -> alter f s l = alter g s l.
Proof.
  intros H Hf. apply list_eq. intros i. destruct (decide (s = i)) as [->|].
  - rewrite !list_lookup_alter_eq, H. simpl. by rewrite Hf.
  - by rewrite !list_lookup_alter_ne.
Qed.

Lemma alter_alter (f g : Server -> Server) s (l : list Server) :
  alter f s (alter g s l) = alter (fun x => f (g x)) s l.
Proof.
  apply list_eq. intros i. destruct (decide (s = i)) as [->|].
  - rewrite !list_lookup_alter_eq. by destruct (l !! i).
  - by rewrite !list_lookup_alter_ne.
Qed.

(** Running the code on a state whose relevant parts are known. *)
Ltac mred :=
  repeat first
    [ progress cbn [heap activeServer serverMu cmd stdin done mu isRunning proc
                    piped early watcher writer set_cmd set_stdin set_done set_mu
                    set_isRunning set_proc set_piped set_early set_watcher
                    set_writer fmap option_fmap option_map negb fresh launched
                    launch_result] in *
    | rewrite list_lookup_alter_eq in *
    | rewrite lookup_fresh in *
    | rewrite alter_fresh in *
    | match goal with
      | H : heap ?w !! ?s = _ |- context [heap ?w !! ?s] => rewrite H
      | H : heap ?w !! ?s = _, H' : context [heap ?w !! ?s] |- _ => rewrite H in H'
      | H : mu ?x = _ |- context [mu ?x] => rewrite H
      | H : isRunning ?x = _ |- context [isRunning ?x] => rewrite H
      | H : done ?x = _ |- context [done ?x] => rewrite H
      | H : early ?x = _ |- context [early ?x] => rewrite H
      | H : watcher ?x = _ |- context [watcher ?x] => rewrite H
      | H : writer ?x = _ |- context [writer ?x] => rewrite H
      | H : proc ?x = _ |- context [proc ?x] => rewrite H
      | H : cmd ?x = _ |- context [cmd ?x] => rewrite H
      | H : serverMu ?x = _ |- context [serverMu ?x] => rewrite H
      | H : activeServer ?x = _ |- context [activeServer ?x] => rewrite H
      | H : Chan.send ?c ?x = _ |- context [Chan.send ?c ?x] => rewrite H
      | H : Chan.recv ?x = _ |- context [Chan.recv ?x] => rewrite H
      end ].

Ltac mgo := repeat (progress (munfold; mred)).

Lemma alter_set_mu s (l : list Server) x :
  l !! s = Some x -> mu x = false ->
  alter (set_mu false) s (alter (set_mu true) s l) = l.
Proof.
  intros H Hmu. rewrite alter_alter. eapply alter_same; [done|].
  by destruct x; simpl in *; subst.
Qed.

Lemma Server_GetStatus_free s w x :
  heap w !! s = Some x -> mu x = false ->
  Server_GetStatus s w = Done (isRunning x) w.
Proof.
  intros H Hmu. unfold Server_GetStatus. mgo.
  erewrite alter_set_mu by done. by destruct w.
Qed.

Lemma Server_GetStatus_held s w x :
  heap w !! s = Some x -> mu x = true -> Server_GetStatus s w = Parked.
Proof. intros H Hmu. unfold Server_GetStatus. by mgo. Qed.

Lemma Server_GetStatus_dangling s w :
  heap w !! s = None -> Server_GetStatus s w = Panic.
Proof. intros H. unfold Server_GetStatus. by mgo. Qed.

(** The same, with the calls of [GetStatus] on a known server replaced by
    their results first. *)
Ltac mrun :=
  repeat (progress (
    mgo;
    repeat match goal with
    | |- context [Server_GetStatus ?s ?w] =>
        first [ erewrite (Server_GetStatus_free s w) by (cbn; eassumption)
              | erewrite (Server_GetStatus_held s w) by (cbn; eassumption)
              | rewrite (Server_GetStatus_dangling s w) by (cbn; assumption) ]
    end)).

(** Two states are equal when their servers are. *)
Ltac world_eq x :=
  unfold upd;
  try match goal with |- Done _ _ = Done _ _ => f_equal end;
  repeat match goal with w : World |- _ => destruct w end;
  simpl in *; subst; f_equal;
  rewrite ?alter_alter;
  first [ reflexivity
        | eapply (alter_same _ _ _ x);
          [eassumption | destruct x; simpl in *; subst; reflexivity]
        | eapply (alter_agree _ _ _ _ x);
          [eassumption | destruct x; simpl in *; subst; reflexivity] ].

(** Taking a finished computation apart. *)
Ltac minv :=
  munfold; repeat first [ progress mred | progress simplify_eq | case_match ].

(** ** The methods and the package functions, case by case *)

Lemma GetStatus_empty w :
  serverMu w = false -> activeServer w = None -> GetStatus w = Done false w.
Proof. intros Hm Ha. mrun. world_eq w. Qed.

Lemma GetStatus_free w s x :
  serverMu w = false -> activeServer w = Some s -> heap w !! s = Some x ->
  mu x = false -> GetStatus w = Done (isRunning x) w.
Proof. intros Hm Ha Hx Hmu. mrun. world_eq x. Qed.

Lemma GetStatus_held w s x :
  serverMu w = false -> activeServer w = Some s -> heap w !! s = Some x ->
  mu x = true -> GetStatus w = Parked.
Proof. intros Hm Ha Hx Hmu. by mrun. Qed.

Lemma Start_running w s x l :
  serverMu w = false -> running w s x ->
  Start l w = Done (Some ErrServerExists) w.
Proof. intros Hm (Ha & Hx & Hr & Hmu). mrun. world_eq x. Qed.

Lemma Start_held w s x l :
  serverMu w = false -> activeServer w = Some s -> heap w !! s = Some x ->
  mu x = true -> Start l w = Parked.
Proof. intros Hm Ha Hx Hmu. by mrun. Qed.

Lemma Start_idle w l :
  serverMu w = false -> idle w ->
  Start l w = Done (launch_result l)
                (MkWorld (heap w ++ [launched l]) (Some (length (heap w))) false).
Proof.
  unfold idle. intros Hm Hi.
  destruct (activeServer w) as [s|] eqn:Ha.
  - destruct Hi as (x & Hx & Hr & Hmu). destruct l as [[]|]; mrun; done.
  - destruct l as [[]|]; mrun; done.
Qed.

Lemma Stop_is_RunCommand : Stop = RunCommand "stop".
Proof. reflexivity. Qed.

Lemma RunCommand_idle w c :
  serverMu w = false -> idle w -> RunCommand c w = Done (Some ErrNotRunning) w.
Proof.
  unfold idle. intros Hm Hi. destruct (activeServer w) as [s|] eqn:Ha.
  - destruct Hi as (x & Hx & Hr & Hmu). mrun. by destruct w; simpl in *; subst.
  - mrun. by destruct w; simpl in *; subst.
Qed.

Lemma RunCommand_held w s x c :
  serverMu w = false -> activeServer w = Some s -> heap w !! s = Some x ->
  mu x = true -> RunCommand c w = Parked.
Proof. intros Hm Ha Hx Hmu. by mrun. Qed.

Lemma RunCommand_room w s x c :
  serverMu w = false -> running w s x ->
  length (Chan.buf (stdin x)) < Chan.cap (stdin x) ->
  RunCommand c w
  = Done None (upd s (set_stdin (Chan.Mk (Chan.cap (stdin x)) (Chan.buf (stdin x) ++ [c]))) w).
Proof.
  intros Hm (Ha & Hx & Hr & Hmu) Hroom. mrun.
  rewrite send_Some by done. mrun. by destruct w; simpl in *; subst.
Qed.

Lemma RunCommand_full w s x c :
  serverMu w = false -> running w s x -> Chan.full (stdin x) ->
  RunCommand c w = Parked.
Proof.
  intros Hm (Ha & Hx & Hr & Hmu) Hfull. mrun. by rewrite send_None.
Qed.

Lemma Kill_idle w :
  serverMu w = false -> idle w -> Kill w = Done (Some ErrNotRunning) w.
Proof.
  unfold idle. intros Hm Hi. destruct (activeServer w) as [s|] eqn:Ha.
  - destruct Hi as (x & Hx & Hr & Hmu). mrun. by destruct w; simpl in *; subst.
  - mrun. by destruct w; simpl in *; subst.
Qed.

Lemma Kill_held w s x :
  serverMu w = false -> activeServer w = Some s -> heap w !! s = Some x ->
  mu x = true -> Kill w = Parked.
Proof. intros Hm Ha Hx Hmu. by mrun. Qed.

Lemma Kill_running w s x :
  serverMu w = false -> running w s x -> cmd x <> None ->
  Kill w =
  match proc x with
  | NotStarted => Panic
  | Alive => Done None (upd s (set_proc Exited) w)
  | Exited => Done None w
  | Reaped => Done (Some KillError) w
  end.
Proof.
  intros Hm (Ha & Hx & Hr & Hmu) Hc.
  destruct (cmd x) as [j|] eqn:Hj; [|done].
  destruct (proc x) eqn:Hp; mrun; try done.
  - world_eq x.
  - world_eq x.
  - world_eq x.
Qed.

(** A call of [RunCommand] that returns has found [serverMu] free, and then
    no running instance, or a running one with room on its queue. *)
Lemma RunCommand_inv c w r w' :
  RunCommand c w = Done r w' ->
  serverMu w = false /\
  (idle w /\ r = Some ErrNotRunning /\ w' = w \/
   exists s x, running w s x /\ length (Chan.buf (stdin x)) < Chan.cap (stdin x) /\
     r = None /\
     w' = upd s (set_stdin (Chan.Mk (Chan.cap (stdin x)) (Chan.buf (stdin x) ++ [c]))) w).
Proof.
  intros H. destruct (serverMu w) eqn:Hm; [by revert H; mgo|]. split; [done|].
  destruct (activeServer w) as [s|] eqn:Ha.
  - destruct (heap w !! s) as [x|] eqn:Hx; [|by revert H; mrun].
    destruct (mu x) eqn:Hmu; [by rewrite (RunCommand_held w s x) in H|].
    destruct (isRunning x) eqn:Hr.
    + destruct (decide (length (Chan.buf (stdin x)) < Chan.cap (stdin x))).
      * rewrite (RunCommand_room w s x) in H by (by repeat split).
        right. simplify_eq. exists s, x. by repeat split.
      * rewrite (RunCommand_full w s x) in H; [done|done|by repeat split|]. unfold Chan.full. lia.
    + rewrite RunCommand_idle in H; [|done|]; [left|]; unfold idle; rewrite Ha; naive_solver.
  - rewrite RunCommand_idle in H; [|done|]; [left|]; unfold idle; rewrite Ha; naive_solver.
Qed.

(** The method [GetStatus] returns when the mutex is free, and changes
    nothing. *)
Lemma Server_GetStatus_inv s w r w' :
  Server_GetStatus s w = Done r w' ->
  exists x, heap w !! s = Some x /\ mu x = false /\ r = isRunning x /\ w' = w.
Proof.
  intros H. destruct (heap w !! s) as [x|] eqn:Hx;
    [|by rewrite Server_GetStatus_dangling in H].
  destruct (mu x) eqn:Hmu; [by rewrite (Server_GetStatus_held s w x) in H|].
  rewrite (Server_GetStatus_free s w x) in H by done. naive_solver.
Qed.

(** ** The invariant *)

Ltac cunfold := unfold call_step, entry in *.

Lemma invariant_init : invariant init None.
Proof. repeat split; try done. Qed.

(** A server on which the caller is not in [startInternal] does not care
    where the caller is. *)
Lemma server_ok_other pc pc' a s x :
  ~ starting pc s -> ~ starting pc' s ->
  server_ok pc a s x -> server_ok pc' a s x.
Proof.
  intros Hn Hn' [? ? Hmu ? ? ? ? ? ? ?]. constructor; try done.
  clear -Hmu Hn Hn'. intuition.
Qed.

(** A transition that changes one server. *)
Lemma invariant_alter w pc pc' s x (f : Server -> Server) m :
  invariant w pc -> heap w !! s = Some x ->
  (m = true <-> pc' <> None) ->
  (forall t y, t <> s -> heap w !! t = Some y ->
     server_ok pc (activeServer w) t y -> server_ok pc' (activeServer w) t y) ->
  server_ok pc' (activeServer w) s (f x) ->
  (forall l, pc' = Some (Start_new l) ->
     pc = Some (Start_new l) /\ isRunning (f x) = false /\ watcher (f x) <> WHolding) ->
  invariant (MkWorld (alter f s (heap w)) (activeServer w) m) pc'.
Proof.
  intros (Hm & Ha & Hok & Hnew) Hx Hm' Hother Hfx Hnew'.
  split; [done|]. split; [|split]; simpl.
  - intros t Ht. apply lookup_lt_is_Some. rewrite length_alter.
    apply lookup_lt_is_Some. by apply Ha.
  - intros t y. rewrite list_lookup_alter. case_decide as Hst.
    + subst t. rewrite Hx. simpl. by intros [= <-].
    + intros Hy. apply Hother; auto.
  - intros l Hl t y. destruct (Hnew' l Hl) as (Hpc & Hr & Hh).
    rewrite list_lookup_alter. case_decide as Hst.
    + subst t. rewrite Hx. simpl. by intros [= <-].
    + by apply (Hnew l Hpc).
Qed.

(** A transition that changes no server. *)
Lemma invariant_pc w pc pc' m :
  invariant w pc ->
  (m = true <-> pc' <> None) ->
  (forall t y, heap w !! t = Some y ->
     server_ok pc (activeServer w) t y -> server_ok pc' (activeServer w) t y) ->
  (forall l, pc' = Some (Start_new l) ->
     forall s x, heap w !! s = Some x -> isRunning x = false /\ watcher x <> WHolding) ->
  invariant (MkWorld (heap w) (activeServer w) m) pc'.
Proof.
  intros (Hm & Ha & Hok & Hnew) Hm' Hother Hnew'.
  split; [done|]. split; [done|]. split; simpl; [|done].
  intros t y Hy. apply Hother; auto.
Qed.

Lemma invariant_same w pc pc' :
  invariant w pc ->
  (pc <> None <-> pc' <> None) ->
  (forall t y, heap w !! t = Some y ->
     server_ok pc (activeServer w) t y -> server_ok pc' (activeServer w) t y) ->
  (forall l, pc' = Some (Start_new l) ->
     forall s x, heap w !! s = Some x -> isRunning x = false /\ watcher x <> WHolding) ->
  invariant w pc'.
Proof.
  intros Hinv Hpc Hother Hnew. destruct w as [h a m].
  apply (invariant_pc (MkWorld h a m) pc); try done.
  destruct Hinv as (Hm & _). simpl in Hm. by etrans.
Qed.

Ltac ok_tac :=
  match goal with
  | H : server_ok _ _ _ _ |- server_ok _ _ _ _ =>
      destruct H as [? ? ? ? ? ? ? ? ? ?]; constructor;
      unfold Chan.wf, starting, checking in *;
      cbn in *; rewrite ?length_app in *; cbn in *;
      try solve [ intuition (try congruence; try lia) ]
  end.

Ltac other_tac :=
  first [ done
        | intros; apply server_ok_other; unfold starting; naive_solver
        | intros; eapply server_ok_other; [| |eassumption]; unfold starting; naive_solver ].

(** [Start] allocates the new server and registers it. *)
Lemma invariant_new w l :
  invariant w (Some (Start_new l)) ->
  invariant
    (MkWorld (heap w ++ [set_early ESpawned (set_mu true fresh)])
       (Some (length (heap w))) (serverMu w))
    (Some (Start_check (length (heap w)) l)).
Proof.
  intros (Hm & Ha & Hok & Hnew).
  split; [split; [done | intros _; by apply Hm]|]. split; [|split]; simpl.
  - intros s [= <-]. rewrite lookup_fresh. eauto.
  - intros t y Hy. apply lookup_app_Some in Hy as [Hy|[Hlen Hy]].
    + pose proof (lookup_lt_Some _ _ _ Hy) as Hlt.
      destruct (Hnew l eq_refl t y Hy) as [Hr Hh].
      specialize (Hok t y Hy). destruct Hok as [? ? ? ? ? ? ? ? ? ?].
      constructor; unfold starting in *; try done.
      * congruence.
      * split; [|intros [?|?]; [done|lia]]. intuition.
      * lia.
    + apply list_lookup_singleton_Some in Hy as [Ht <-].
      replace t with (length (heap w)) by lia.
      constructor; cbn; unfold Chan.wf; cbn; by intuition (try congruence; try lia).
  - done.
Qed.

(** Once the guard of [Start] has found no running instance, no server is
    running and no exit watcher holds a mutex. *)
Lemma guard_passed w pc :
  invariant w pc ->
  (activeServer w = None \/
   exists n x, activeServer w = Some n /\ heap w !! n = Some x /\
     mu x = false /\ isRunning x = false) ->
  forall s x, heap w !! s = Some x -> isRunning x = false /\ watcher x <> WHolding.
Proof.
  intros (_ & _ & Hok & _) Hg s x Hx.
  destruct (Hok s x Hx) as [Hr _ Hmu Hh _ _ _ _ _ _]. split.
  - destruct (isRunning x) eqn:E; [|done]. specialize (Hr eq_refl).
    destruct Hg as [Hg|(n & y & Hn & Hy & _ & Hry)]; congruence.
  - intros Hw. destruct (Hh Hw) as (Hs & _).
    destruct Hg as [Hg|(n & y & Hn & Hy & Hmy & _)]; [congruence|].
    assert (mu x = true) by (apply Hmu; by left). congruence.
Qed.

Ltac know_servers Hok :=
  repeat match goal with
  | H : heap _ !! ?s = Some ?x |- _ =>
      lazymatch goal with
      | _ : server_ok _ _ s x |- _ => fail
      | _ => pose proof (Hok _ _ H)
      end
  end.

(** A goroutine clears the registry. *)
Lemma invariant_clear w s x (f : Server -> Server) :
  invariant w None -> heap w !! s = Some x -> activeServer w = Some s ->
  server_ok None None s (f x) ->
  invariant (MkWorld (alter f s (heap w)) None false) None.
Proof.
  intros (Hm & Ha & Hok & _) Hx Hs Hfx. split; [done|]. split; [|split]; simpl; [done| |done].
  intros t y. rewrite list_lookup_alter. case_decide as Hst.
  - subst t. rewrite Hx. simpl. by intros [= <-].
  - intros Hy. specialize (Hok t y Hy). rewrite Hs in Hok.
    destruct Hok as [ok_running0 ? ? ok_holding0 ? ? ? ? ? ?]. constructor; try done.
    + intros Hr. specialize (ok_running0 Hr). congruence.
    + intros Hw. destruct (ok_holding0 Hw) as (? & _). congruence.
Qed.

Ltac new_tac Hnew :=
  let l := fresh in
  let Hl := fresh in
  intros l Hl; split; [done|];
  match goal with Hx : heap _ !! _ = Some ?x |- _ =>
    destruct (Hnew l Hl _ _ Hx) end;
  match goal with H : server_ok _ _ _ _ |- _ => destruct H as [? ? ? ? ? ? ? ? ? ?] end;
  cbn in *; intuition congruence.

Ltac step_inv :=
  munfold; repeat first
    [ progress mred | progress simplify_eq
    | match goal with
      | H : Server_GetStatus _ _ = Done _ _ |- _ =>
          apply Server_GetStatus_inv in H as (? & ? & ? & ? & ?)
      | H : Chan.send _ _ = Some _ |- _ => apply send_inv in H as [? ->]
      | H : Chan.recv _ = Some _ |- _ => apply recv_wf in H as [? ?]
      end
    | case_match ];
  rewrite ?alter_alter.

(** Every transition preserves the invariant. *)
Lemma invariant_step e w pc w' pc' :
  invariant w pc -> exec e pc w = Done pc' w' -> invariant w' pc'.
Proof.
  intros Hinv Hexec. pose proof Hinv as (Hm & Ha & Hok & Hnew).
  destruct e as [op| |s|s|s|s|s|s|s|s|s]; simpl in Hexec.
  1: { destruct pc; [done|]. minv.
       apply (invariant_pc _ None); try done.
       - intros t y Hy. apply server_ok_other;
           [unfold starting; tauto | destruct op; unfold starting, entry; tauto].
       - by destruct op. }
  1: { destruct pc as [p|]; [|done]. destruct p.
       all: cunfold; step_inv.
       all: try (apply invariant_new; assumption).
       all: try (eapply invariant_same; [eassumption | done | other_tac | ]).
       all: try (by intros ? [=]).
       all: try (intros _ _; eapply guard_passed; [eassumption|];
                 first [by left | right; eauto 10]).
       all: know_servers Hok.
       all: try (eapply invariant_alter;
                 [eassumption | eassumption
                 | split; [done | intros _; by apply Hm]
                 | other_tac | ok_tac | by intros ? [=]]).
       all: eapply invariant_pc; [eassumption | done | other_tac | by intros ? [=]]. }
  all: assert (exists x, heap w !! s = Some x) as [x Hx] by
    (revert Hexec; munfold; destruct (heap w !! s); [eauto | done]).
  all: specialize (Hok _ _ Hx) as Hs.
  all: step_inv.
  all: try (eapply invariant_alter;
              [eassumption | eassumption | done | done | ok_tac | new_tac Hnew]).
  - assert (pc' = None) as ->
      by (destruct pc'; [exfalso; by assert (false = true) by (by apply Hm) | done]).
    eapply invariant_clear; [eassumption..|]. ok_tac.
  - assert (pc' = None) as ->
      by (destruct pc'; [exfalso; by assert (false = true) by (by apply Hm) | done]).
    eapply invariant_clear; [eassumption|eassumption| |].
    + by apply (ok_holding _ _ _ _ Hs).
    + ok_tac.
  - rewrite H1. rewrite H in *. cbn in *. intuition lia.
Qed.

(** Every reachable state satisfies the invariant. *)
Lemma reachable_invariant w pc : reachable w pc -> invariant w pc.
Proof.
  induction 1 as [|e w pc w' pc' _ IH Hstep]; [apply invariant_init|].
  by eapply invariant_step.
Qed.

Lemma run_cons_inv e es pc w pc' w' :
  Server.run (e :: es) pc w = Done pc' w' ->
  exists pc1 w1, exec e pc w = Done pc1 w1 /\ Server.run es pc1 w1 = Done pc' w'.
Proof.
  cbn [Server.run]. unfold mbind, M_bind.
  destruct (exec e pc w) as [pc1 w1| |] eqn:E; [|done..]. eauto.
Qed.

Lemma run_app es1 es2 pc w :
  Server.run (es1 ++ es2) pc w =
  match Server.run es1 pc w with
  | Done pc1 w1 => Server.run es2 pc1 w1
  | Parked => Parked
  | Panic => Panic
  end.
Proof.
  revert pc w. induction es1 as [|e es1 IH]; intros pc w; [done|].
  cbn [app Server.run]. unfold mbind, M_bind.
  destruct (exec e pc w) as [pc1 w1| |]; [|done..]. apply IH.
Qed.

Lemma run_reachable es pc w pc' w' :
  reachable w pc -> Server.run es pc w = Done pc' w' -> reachable w' pc'.
Proof.
  revert pc w. induction es as [|e es IH]; intros pc w Hw Hrun.
  - unfold Server.run, mret, M_ret in Hrun. by simplify_eq.
  - apply run_cons_inv in Hrun as (pc1 & w1 & He & Hrun).
    eapply IH; [|done]. by eapply reachable_step.
Qed.

Lemma run_invariant es pc w pc' w' :
  invariant w pc -> Server.run es pc w = Done pc' w' -> invariant w' pc'.
Proof.
  revert pc w. induction es as [|e es IH]; intros pc w Hw Hrun.
  - unfold Server.run, mret, M_ret in Hrun. by simplify_eq.
  - apply run_cons_inv in Hrun as (pc1 & w1 & He & Hrun).
    eapply IH; [|done]. by eapply invariant_step.
Qed.

(** ** A call, statement by statement, is the function *)

Lemma complete_S n p w :
  complete (S n) p w =
  match call_step p w with
  | Done None w' => Done p w'
  | Done (Some p') w' => complete n p' w'
  | Parked => Parked
  | Panic => Panic
  end.
Proof.
  cbn [complete]. unfold mbind, M_bind.
  by destruct (call_step p w) as [[p'|] w'| |].
Qed.

(** Case analysis on the innermost test of the code that is left to run. *)
Ltac inner_match :=
  match goal with
  | |- context [match ?x with _ => _ end] =>
      lazymatch x with
      | context [match _ with _ => _ end] => fail
      | _ => destruct x eqn:?
      end
  end.

Ltac call_tac :=
  repeat first
    [ reflexivity
    | rewrite complete_S; cbn [call_step]; munfold
    | progress mred
    | inner_match ].

(** Taking [serverMu] and going through the steps of a call, at most six of
    them, is running the function of the source: same result, same state,
    and the same waiting or panic. *)
Lemma call_steps op w :
  (Lock_serverMu;; complete 6 (entry op)) w = call op w.
Proof.
  destruct op; unfold call, entry.
  all: munfold.
  all: destruct (serverMu w); [done|].
  all: call_tac.
Qed.

Lemma complete_run n p w p' w' :
  complete n p w = Done p' w' ->
  exists k, k <= n /\ Server.run (replicate k Step) (Some p) w = Done None w'.
Proof.
  revert p w. induction n as [|n IH]; intros p w; [done|].
  rewrite complete_S.
  destruct (call_step p w) as [[p1|] w1| |] eqn:E; try done.
  - intros H. destruct (IH _ _ H) as (k & Hk & Hrun).
    exists (S k). split; [lia|].
    cbn [replicate Server.run exec]. unfold mbind, M_bind. by rewrite E.
  - intros [= <- <-]. exists 1. split; [lia|].
    cbn [replicate Server.run exec]. unfold mbind, M_bind. by rewrite E.
Qed.

(** A call that returns is a run of the system in which the caller is not
    interrupted. *)
Lemma call_run op w p w' :
  call op w = Done p w' ->
  exists k, k <= 6 /\ Server.run (uninterrupted op k) None w = Done None w'.
Proof.
  rewrite <- call_steps. unfold mbind, M_bind.
  destruct (Lock_serverMu w) as [[] w1| |] eqn:E; [|done..]. intros H.
  destruct (complete_run _ _ _ _ _ H) as (k & Hk & Hrun).
  exists k. split; [done|].
  unfold uninterrupted. cbn [Server.run exec]. unfold mbind, M_bind.
  by rewrite E.
Qed.

(** A call made in a reachable state in which no caller is inside leads to
    such a state. *)
Lemma call_reachable op w p w' :
  reachable w None -> call op w = Done p w' -> reachable w' None.
Proof.
  intros Hw H. destruct (call_run _ _ _ _ H) as (k & _ & Hrun).
  by eapply run_reachable.
Qed.

Lemma calls_reachable ops w w' :
  reachable w None -> calls ops w = Done tt w' -> reachable w' None.
Proof.
  revert w. induction ops as [|op ops IH]; intros w Hw H.
  - cbn in H. unfold mret, M_ret in H. by simplify_eq.
  - revert H. cbn [calls]. unfold mbind, M_bind.
    destruct (call op w) as [p w1| |] eqn:E; [|done..]. intros H.
    eapply IH; [|done]. by eapply call_reachable.
Qed.

Lemma calls_snoc ops op w w1 p w2 :
  calls ops w = Done tt w1 -> call op w1 = Done p w2 ->
  calls (ops ++ [op]) w = Done tt w2.
Proof.
  revert w. induction ops as [|o ops IH]; intros w H1 H2.
  - cbn in *. unfold mret, M_ret in H1. simplify_eq.
    unfold mbind, M_bind. by rewrite H2.
  - revert H1. cbn [calls app]. unfold mbind, M_bind.
    destruct (call o w) as [q w0| |]; [|done..]. intros H1. by eapply IH.
Qed.

(** ** Claims about [Start] *)

(** The state a failed launch leaves is idle. *)
Lemma failed_launch_idle w f :
  idle (MkWorld (heap w ++ [launched (Fails f)]) (Some (length (heap w))) false).
Proof. unfold idle. cbn. rewrite lookup_fresh. eauto. Qed.

(** C1, as the code has it: when the launch fails, [Start] returns the error
    of the call that failed and leaves the server it has just registered in
    [activeServer], with [isRunning] false; it does not unregister it.  The
    registry is not empty after the call, but the server it holds counts as
    not running: [GetStatus] answers false, [Stop], [Kill] and [RunCommand]
    answer "server is not running", and the next [Start] is not rejected. *)
Theorem failed_Start_leaves_idle_instance (w : World) (f : launch_step) :
  serverMu w = false -> idle w ->
  let w' := MkWorld (heap w ++ [launched (Fails f)]) (Some (length (heap w))) false in
  Start (Fails f) w = Done (Some (LaunchError f)) w' /\
  activeServer w' = Some (length (heap w)) /\
  (exists x, heap w' !! length (heap w) = Some x /\
     isRunning x = false /\ proc x = NotStarted /\ mu x = false) /\
  GetStatus w' = Done false w' /\
  Stop w' = Done (Some ErrNotRunning) w' /\
  Kill w' = Done (Some ErrNotRunning) w' /\
  (forall c, RunCommand c w' = Done (Some ErrNotRunning) w') /\
  (forall l, exists w'', Start l w' = Done (launch_result l) w'').
Proof.
  intros Hm Hi w'.
  assert (Hi' : idle w') by apply failed_launch_idle.
  split; [by rewrite Start_idle|]. split; [done|]. split.
  { exists (launched (Fails f)). unfold w'. cbn. by rewrite lookup_fresh. }
  split.
  { apply (GetStatus_free w' (length (heap w)) (launched (Fails f))); try done.
    unfold w'. cbn. by rewrite lookup_fresh. }
  split; [by rewrite Stop_is_RunCommand, RunCommand_idle|].
  split; [by rewrite Kill_idle|].
  split; [intros c; by rewrite RunCommand_idle|].
  intros l. eexists. by rewrite Start_idle.
Qed.

Lemma failed_Start_leaves_idle_instance_witness :
  Start (Fails CmdStart) init
  = Done (Some (LaunchError CmdStart))
      (MkWorld [launched (Fails CmdStart)] (Some 0) false).
Proof.
  exact (proj1 (failed_Start_leaves_idle_instance init CmdStart eq_refl I)).
Defined.

(** When the goroutine started first has found [s.cmd] nil, nothing is left
    to run after the failed [Start]: no goroutine unregisters the server. *)
Lemma failed_instance_stays_registered :
  let w := MkWorld [set_early EDone (launched (Fails CmdStart))] (Some 0) false in
  Server.run [Call (OpStart (Fails CmdStart)); Step; Step; Early_test 0;
              Step; Step; Step] None init = Done None w /\
  forall e pc' w', goroutine e -> exec e None w <> Done pc' w'.
Proof.
  intros w. split; [by vm_compute|].
  intros e pc' w' Hg.
  destruct e as [op| |t|t|t|t|t|t|t|t|t]; try done.
  all: destruct t as [|t]; by vm_compute.
Qed.

(** C1 as stated fails: a failed [Start] on the empty registry returns the
    launch error with the registry holding the new server, not empty; and
    when the goroutine started first has found [s.cmd] nil, the server
    stays registered, for no goroutine is left to run. *)
Lemma failed_Start_stays_registered :
  (exists w', Start (Fails CmdStart) init = Done (Some (LaunchError CmdStart)) w' /\
     activeServer w' = Some 0) /\
  ~ (exists r w', Start (Fails CmdStart) init = Done r w' /\
       activeServer w' = activeServer init) /\
  (exists w,
     Server.run [Call (OpStart (Fails CmdStart)); Step; Step; Early_test 0;
                 Step; Step; Step] None init = Done None w /\
     activeServer w = Some 0 /\
     forall e pc' w', goroutine e -> exec e None w <> Done pc' w').
Proof.
  split; [|split].
  - eexists. split; [by vm_compute|done].
  - intros (r & w' & H & Ha). vm_compute in H. by simplify_eq.
  - eexists. split; [apply failed_instance_stays_registered|].
    split; [done|]. apply failed_instance_stays_registered.
Qed.

(** ** A failed launch, with the goroutines *)

(** While a caller is inside, a goroutine leaves the registry as it is, and
    it never sets the flag of a server. *)
Lemma goroutine_step e pc w pc' w' :
  goroutine e -> exec e pc w = Done pc' w' ->
  pc' = pc /\
  (serverMu w = true -> serverMu w' = true /\ activeServer w' = activeServer w) /\
  (forall s x, heap w !! s = Some x ->
     exists x', heap w' !! s = Some x' /\ (isRunning x = false -> isRunning x' = false)).
Proof.
  intros Hg Hexec.
  destruct e as [op| |t|t|t|t|t|t|t|t|t]; try done; simpl in Hexec.
  all: step_inv.
  all: split; [done|].
  all: (split; [cbn; intros; try congruence; by split|]).
  all: intros u y Hy; cbn [heap].
  all: rewrite list_lookup_alter; destruct (decide (t = u)) as [->|]; mred; eauto.
  all: eexists; (split; [done|]); cbn; congruence.
Qed.

Lemma goroutine_run gs pc w pc' w' s x :
  Forall goroutine gs -> Server.run gs pc w = Done pc' w' ->
  serverMu w = true -> heap w !! s = Some x -> isRunning x = false ->
  pc' = pc /\ serverMu w' = true /\ activeServer w' = activeServer w /\
  exists x', heap w' !! s = Some x' /\ isRunning x' = false.
Proof.
  intros Hgs. revert pc w x. induction Hgs as [|e gs He _ IH]; intros pc w x Hrun Hm Hx Hr.
  - unfold Server.run, mret, M_ret in Hrun. simplify_eq. eauto 10.
  - apply run_cons_inv in Hrun as (pc1 & w1 & Hexec & Hrun).
    destruct (goroutine_step _ _ _ _ _ He Hexec) as (-> & Hreg & Hflag).
    destruct (Hreg Hm) as [Hm1 Ha1].
    destruct (Hflag _ _ Hx) as (x1 & Hx1 & Hr1).
    destruct (IH _ _ _ Hrun Hm1 Hx1 (Hr1 Hr)) as (-> & ? & ? & ?).
    split; [done|]. split; [done|]. split; [congruence|done].
Qed.

(** Whatever the goroutines do while a [Start] whose launch fails is on its
    way out, the registry holds the new server, which is not running, when
    the call has returned. *)
Theorem failed_Start_returns_registered
    (gs : list event) (w w' : World) (pc' : option call_pc) (s : ptr) (f : launch_step) :
  reachable w (Some (Start_launch s (Fails f))) ->
  Forall goroutine gs ->
  Server.run (Step :: gs ++ [Step]) (Some (Start_launch s (Fails f))) w = Done pc' w' ->
  pc' = None /\ serverMu w' = false /\ activeServer w' = Some s /\
  (isRunning <$> heap w' !! s) = Some false.
Proof.
  intros Hw Hgs Hrun. apply reachable_invariant in Hw as Hinv.
  apply run_cons_inv in Hrun as (pc1 & w1 & Hexec & Hrun).
  assert (Hpc1 : pc1 = Some (Return_error (Some (LaunchError f))) /\
            serverMu w1 = true /\ activeServer w1 = Some s /\
            exists x, heap w1 !! s = Some x /\ isRunning x = false).
  { destruct Hinv as (Hm & _ & Hok & _). cbn [exec] in Hexec. cunfold. step_inv.
    know_servers Hok.
    match goal with H : server_ok _ _ _ _ |- _ =>
      destruct (ok_starting _ _ _ _ H eq_refl) as (Ha & Hr & _) end.
    split; [done|]. split; [by apply Hm|]. split; [done|].
    eauto. }
  destruct Hpc1 as (-> & Hm1 & Ha1 & x1 & Hx1 & Hr1).
  rewrite run_app in Hrun.
  destruct (Server.run gs _ w1) as [pc2 w2| |] eqn:Hgo; [|done..].
  destruct (goroutine_run _ _ _ _ _ _ _ Hgs Hgo Hm1 Hx1 Hr1)
    as (-> & Hm2 & Ha2 & x2 & Hx2 & Hr2).
  revert Hrun. cbn [Server.run exec call_step]. munfold. intros [= <- <-].
  split; [done|]. split; [done|]. split; [cbn; congruence|].
  cbn. by rewrite Hx2, <- Hr2.
Qed.

Lemma failed_Start_returns_registered_witness :
  let x := MkServer (Some java) (Chan.make 100) false true false NotStarted []
             ESpawned WNone false in
  let w := MkWorld [x] (Some 0) true in
  let w' := MkWorld [set_early EClearing (set_mu false (set_done true x))]
              (Some 0) false in
  Server.run [Call (OpStart (Fails CmdStart)); Step; Step; Step] None init
  = Done (Some (Start_launch 0 (Fails CmdStart))) w /\
  Server.run (Step :: [Early_test 0; Early_lock 0] ++ [Step])
    (Some (Start_launch 0 (Fails CmdStart))) w = Done None w' /\
  activeServer w' = Some 0 /\
  Server.run [Early_clear 0] None w'
  = Done None (MkWorld [set_early EDone (set_mu false (set_done true x))] None false).
Proof.
  intros x w w'.
  assert (H1 : Server.run [Call (OpStart (Fails CmdStart)); Step; Step; Step] None init
               = Done (Some (Start_launch 0 (Fails CmdStart))) w) by (by vm_compute).
  assert (H2 : Server.run (Step :: [Early_test 0; Early_lock 0] ++ [Step])
                 (Some (Start_launch 0 (Fails CmdStart))) w = Done None w')
    by (by vm_compute).
  split; [exact H1|]. split; [exact H2|]. split.
  - apply (failed_Start_returns_registered [Early_test 0; Early_lock 0]
             w w' None 0 CmdStart (run_reachable _ _ _ _ _ reachable_init H1)).
    + repeat constructor.
    + exact H2.
  - by vm_compute.
Defined.

(** At most one server has [isRunning] set, and it is the active one. *)
Lemma invariant_singleton w pc s t x y :
  invariant w pc -> heap w !! s = Some x -> heap w !! t = Some y ->
  isRunning x = true -> isRunning y = true ->
  s = t /\ activeServer w = Some s.
Proof.
  intros (_ & _ & Hok & _) Hx Hy Hrx Hry.
  pose proof (ok_running _ _ _ _ (Hok _ _ Hx) Hrx) as Hs.
  pose proof (ok_running _ _ _ _ (Hok _ _ Hy) Hry) as Ht.
  split; [congruence | done].
Qed.

(** The mutex of a server whose flag is set is free. *)
Lemma invariant_free w pc s x :
  invariant w pc -> heap w !! s = Some x -> isRunning x = true -> mu x = false.
Proof.
  intros (_ & _ & Hok & _) Hx Hr.
  destruct (Hok _ _ Hx) as [_ _ Hmu Hh _ _ _ _ _ Hst].
  destruct (mu x) eqn:E; [|done].
  destruct (proj1 Hmu eq_refl) as [Hw|Hs].
  - destruct (Hh Hw) as (_ & ? & _). congruence.
  - destruct (Hst Hs) as (_ & ? & _). congruence.
Qed.

Lemma invariant_running w pc s x :
  invariant w pc -> activeServer w = Some s -> heap w !! s = Some x ->
  isRunning x = true -> running w s x.
Proof.
  intros Hinv Ha Hx Hr. repeat split; try done. by eapply invariant_free.
Qed.

(** Once an instance runs, every further attempt is rejected. *)
Lemma attempts_running w s x ls :
  serverMu w = false -> running w s x ->
  attempts ls w = Done ((fun _ => Some ErrServerExists) <$> ls) w.
Proof.
  intros Hm Hr. induction ls as [|l ls IH]; [done|].
  cbn [attempts]. unfold mbind, M_bind.
  rewrite (Start_running w s x) by done. by rewrite IH.
Qed.

Lemma attempts_idle ls w :
  serverMu w = false -> idle w ->
  exists w', attempts ls w = Done (verdicts ls) w' /\
    serverMu w' = false /\
    (Launches ∈ ls -> exists s x, running w' s x) /\
    (Launches ∉ ls -> idle w').
Proof.
  revert w. induction ls as [|l ls IH]; intros w Hm Hi.
  - exists w. split; [done|]. split; [done|]. split; [|done].
    intros H. by apply elem_of_nil in H.
  - cbn [attempts]. unfold mbind, M_bind. rewrite Start_idle by done.
    destruct l as [f|]; cbn [launch_result verdicts].
    + destruct (IH (MkWorld (heap w ++ [launched (Fails f)])
                            (Some (length (heap w))) false))
        as (w' & -> & Hm' & Hwin & Hidle); [done | apply failed_launch_idle |].
      exists w'. split; [done|]. split; [done|]. split.
      * intros [?|H]%elem_of_cons; [done | by apply Hwin].
      * intros H. apply Hidle. intros ?. apply H. by apply elem_of_cons; right.
    + set (w1 := MkWorld (heap w ++ [launched Launches])
                         (Some (length (heap w))) false).
      assert (Hr : running w1 (length (heap w)) (launched Launches)).
      { unfold running, w1. cbn. by rewrite lookup_fresh. }
      rewrite (attempts_running w1 _ _ ls eq_refl Hr).
      exists w1. split; [done|]. split; [done|]. split; [eauto|].
      intros H. exfalso. apply H. by apply elem_of_cons; left.
Qed.

Lemma invariant_serverMu w : invariant w None -> serverMu w = false.
Proof. intros (Hm & _). destruct (serverMu w); [|done]. by destruct (proj1 Hm). Qed.

(** The guard of [Start] on the [isRunning] flag.  In every reachable state,
    whatever the caller inside and the goroutines are doing, at most one
    server has [isRunning] set, and it is the one [activeServer] points to.
    In every reachable state with no caller inside, (i) a [Start] that finds
    an instance with [isRunning] set in the registry fails with
    [ErrServerExists] and changes nothing; (ii) when [Start] is attempted
    once per element of [ls], each attempt run in one piece and no goroutine
    taking a step in between, from a state with no running instance, the
    attempts whose launch fails return the launch error, the first whose
    launch succeeds returns nil, every later one fails with
    [ErrServerExists], and the instance of the first successful launch, if
    there is one, has [isRunning] set and is the one [activeServer] points
    to.  The flag is not the child: the goroutine of [startInternal] can
    clear it while the child is alive. *)
Theorem Start_admits_one_instance (w : World) (pc : option call_pc) :
  reachable w pc ->
  (forall s t x y, heap w !! s = Some x -> heap w !! t = Some y ->
     isRunning x = true -> isRunning y = true ->
     s = t /\ activeServer w = Some s) /\
  (pc = None ->
   (forall l s x, activeServer w = Some s -> heap w !! s = Some x ->
      isRunning x = true -> Start l w = Done (Some ErrServerExists) w) /\
   (forall ls, idle w ->
      exists w', attempts ls w = Done (verdicts ls) w' /\
        (Launches ∈ ls -> exists s x, running w' s x) /\
        (forall n, 0 < n -> ls = replicate n Launches ->
           verdicts ls = None :: replicate (n - 1) (Some ErrServerExists)))).
Proof.
  intros Hw. apply reachable_invariant in Hw as Hinv. split.
  { intros s t x y. by apply (invariant_singleton w pc). }
  intros ->. pose proof (invariant_serverMu w Hinv) as Hm. split.
  - intros l s x Ha Hx Hr. eapply Start_running; [done|].
    by eapply invariant_running.
  - intros ls Hi. destruct (attempts_idle ls w Hm Hi) as (w' & Hat & _ & Hwin & _).
    exists w'. split; [done|]. split; [done|].
    intros n Hn ->. destruct n as [|n]; [lia|]. cbn.
    rewrite Nat.sub_0_r. f_equal. by rewrite fmap_replicate.
Qed.

Lemma Start_admits_one_instance_witness :
  exists w', attempts [Launches; Launches; Launches] init
             = Done [None; Some ErrServerExists; Some ErrServerExists] w'.
Proof.
  destruct (proj2 (proj2 (Start_admits_one_instance init None reachable_init) eq_refl)
              [Launches; Launches; Launches] I) as (w' & H & _).
  exists w'. exact H.
Defined.

(** Two attempts whose launches fail: both return the launch error, neither
    fails with [ErrServerExists], and no instance is running afterwards. *)
Lemma failed_attempts_have_no_winner :
  exists w',
    attempts [Fails CmdStart; Fails CmdStart] init
    = Done [Some (LaunchError CmdStart); Some (LaunchError CmdStart)] w' /\
    GetStatus w' = Done false w'.
Proof. eexists. split; by vm_compute. Qed.

(** C2 fails on the code, for launches that succeed.  The goroutine that
    [startInternal] starts (server.go 91-118) reads [s.cmd.Process] without
    holding [s.mu].  Scheduled after [s.cmd] is assigned and before
    [s.cmd.Start()] has filled the process in, its test takes the branch
    that clears the instance; [Start] goes on, launches the child and
    returns nil; then the goroutine's locked section sets [isRunning] to
    false while the child is alive and the exit watcher is waiting for it.
    The state [w] reached so has no caller inside and its registry still
    points to instance 0, yet a second [Start], run in one piece from [w],
    returns nil as well and launches a second child: afterwards both
    children are alive, each with its exit watcher waiting, and the registry
    points to the second.  Two calls made one after the other have both
    succeeded and two server processes run side by side. *)
Theorem Start_launches_a_second_child :
  exists w1 w w2,
    Server.run [Call (OpStart Launches); Step; Step; Step; Early_test 0; Step; Step]
      None init = Done (Some (Return_error None)) w1 /\
    Server.run [Step; Early_lock 0] (Some (Return_error None)) w1 = Done None w /\
    reachable w None /\
    activeServer w = Some 0 /\
    (proc <$> heap w !! 0) = Some Alive /\
    (watcher <$> heap w !! 0) = Some WWaiting /\
    Server.run (Call (OpStart Launches) :: replicate 5 Step) None w
      = Done (Some (Return_error None)) w2 /\
    Start Launches w = Done None (MkWorld (heap w2) (activeServer w2) false) /\
    activeServer w2 = Some 1 /\
    (proc <$> heap w2 !! 0) = Some Alive /\
    (watcher <$> heap w2 !! 0) = Some WWaiting /\
    (proc <$> heap w2 !! 1) = Some Alive /\
    (watcher <$> heap w2 !! 1) = Some WWaiting /\
    (isRunning <$> heap w2 !! 1) = Some true.
Proof.
  eexists _, _, _. split; [by vm_compute|]. split; [by vm_compute|].
  split.
  { eapply (run_reachable
      [Call (OpStart Launches); Step; Step; Step; Early_test 0; Step; Step; Step;
       Early_lock 0]); [apply reachable_init|]. by vm_compute. }
  repeat (split; [by vm_compute|]). by vm_compute.
Qed.

(** ** Claims about [Stop], [Kill] and [RunCommand] *)

Lemma idle_not_running w s x :
  idle w -> activeServer w = Some s -> heap w !! s = Some x ->
  isRunning x = true -> False.
Proof.
  unfold idle. intros Hi Ha Hx Hr. rewrite Ha in Hi.
  destruct Hi as (y & Hy & Hry & _). congruence.
Qed.

(** On a running instance the send of [RunCommand] goes through exactly when
    the queue holds fewer lines than its capacity. *)
Lemma RunCommand_returns_iff w s x c :
  serverMu w = false -> running w s x ->
  (exists r w', RunCommand c w = Done r w') <->
  length (Chan.buf (stdin x)) < Chan.cap (stdin x).
Proof.
  intros Hm Hr. split.
  - intros (r & w' & H).
    apply RunCommand_inv in H as (_ & [(Hi & _)|(s' & x' & Hr' & Hroom & _)]).
    + destruct Hr as (Ha & Hx & Hrx & _). by destruct (idle_not_running w s x Hi Ha Hx Hrx).
    + destruct Hr as (Ha & Hx & _), Hr' as (Ha' & Hx' & _). congruence.
  - intros Hroom. rewrite (RunCommand_room w s x) by done. eauto.
Qed.


(** The state with one running server and [n] lines on its queue. *)
Lemma queue_filled n :
  n <= 100 ->
  calls (OpStart Launches :: replicate n (OpRunCommand "list")) init
  = Done tt (MkWorld
      [set_stdin (Chan.Mk 100 (replicate n "list")) (launched Launches)]
      (Some 0) false).
Proof.
  intros Hn. rewrite <- (reverse_replicate n (OpRunCommand "list")).
  induction n as [|n IH].
  - reflexivity.
  - cbn [replicate]. rewrite reverse_cons.
    eapply (calls_snoc (OpStart Launches :: _)); [apply IH; lia|].
    cbn [call]. unfold mbind, M_bind.
    erewrite RunCommand_room; [| done | by repeat split
      | cbn [Chan.buf Chan.cap stdin set_stdin]; rewrite length_replicate; lia].
    unfold mret, M_ret, upd. cbn. by rewrite replicate_cons_app.
Qed.

Lemma queue_filled_reachable n :
  n <= 100 ->
  reachable (MkWorld
    [set_stdin (Chan.Mk 100 (replicate n "list")) (launched Launches)]
    (Some 0) false) None.
Proof.
  intros Hn. eapply calls_reachable; [apply reachable_init|].
  by apply queue_filled.
Qed.






(** The lines of a run of writes are the lines written. *)
Lemma published_writes (ps : list string) :
  LogHub.published (LogHub.EvWrite <$> ps) = ps.
Proof. induction ps as [|p ps IH]; [done|]. cbn. by f_equal. Qed.

(** C10: both kinds of channel are made with room for a hundred lines.  In
    every reachable state the command queue of every server holds at most 100
    lines, and with no caller inside [RunCommand] on the running server
    returns nil exactly when fewer than 100 lines are pending and waits
    exactly when 100 are.  In every state of the hub [Subscribe] registers,
    at the end of the slice, an empty channel of capacity 100, and of the
    lines written from then on to a subscriber that takes none, the channel
    holds exactly the first hundred; every subscriber channel holds at most
    100 lines, and [Write] leaves a channel as it is, dropping the line for
    that subscriber, exactly when the channel holds 100 lines, and otherwise
    appends the line to it. *)
Theorem queues_hold_a_hundred_lines
    (w : World) (pc : option call_pc) (es : list LogHub.event) :
  reachable w pc ->
  (forall s x, heap w !! s = Some x ->
     Chan.cap (stdin x) = 100 /\ length (Chan.buf (stdin x)) <= 100) /\
  (pc = None ->
   forall s x c, activeServer w = Some s -> heap w !! s = Some x ->
     isRunning x = true ->
     ((exists w', RunCommand c w = Done None w') <->
      length (Chan.buf (stdin x)) < 100) /\
     (RunCommand c w = Parked <-> length (Chan.buf (stdin x)) = 100)) /\
  (let h := LogHub.run es LogHub.init in
   let i := (LogHub.Subscribe h).1 in
   let h1 := (LogHub.Subscribe h).2 in
   i = length (LogHub.subscribers h) /\
   LogHub.subscribers h1 !! i = Some (Chan.Mk 100 []) /\
   forall ps,
     LogHub.pending i (LogHub.run (LogHub.EvWrite <$> ps) h1) = take 100 ps) /\
  (forall i ch,
     LogHub.subscribers (LogHub.run es LogHub.init) !! i = Some ch ->
     Chan.cap ch = 100 /\ length (Chan.buf ch) <= 100 /\
     forall p,
       (LogHub.subscribers (LogHub.Write p (LogHub.run es LogHub.init)).2 !! i
        = Some ch <-> length (Chan.buf ch) = 100) /\
       (length (Chan.buf ch) < 100 ->
        LogHub.subscribers (LogHub.Write p (LogHub.run es LogHub.init)).2 !! i
        = Some (Chan.Mk 100 (Chan.buf ch ++ [p])))).
Proof.
  intros Hw. apply reachable_invariant in Hw as Hinv.
  pose proof Hinv as (_ & _ & Hok & _). split; [|split; [|split]].
  - intros s x Hx. destruct (Hok _ _ Hx) as [_ _ _ _ _ _ _ _ [Hcap Hwf] _].
    unfold Chan.wf in Hwf. split; [done | lia].
  - intros -> s x c Ha Hx Hr.
    pose proof (invariant_serverMu w Hinv) as Hm.
    pose proof (invariant_running w None s x Hinv Ha Hx Hr) as Hrun.
    destruct (Hok _ _ Hx) as [_ _ _ _ _ _ _ _ [Hcap Hwf] _].
    unfold Chan.wf in Hwf. rewrite Hcap in Hwf. split; split.
    + intros [w' H]. rewrite <- Hcap.
      apply (RunCommand_returns_iff w s x c Hm Hrun). eauto.
    + intros Hroom. rewrite (RunCommand_room w s x) by (done || lia). eauto.
    + intros Hp. destruct (decide (length (Chan.buf (stdin x)) < 100)); [|lia].
      rewrite (RunCommand_room w s x) in Hp by (done || lia). done.
    + intros Hfull. apply (RunCommand_full w s x); try done.
      unfold Chan.full. lia.
  - intros h i h1.
    assert (Hreg : LogHub.subscribers h1 !! i = Some (Chan.Mk 100 [])).
    { unfold h1, i. cbn. rewrite lookup_app_r by done. by rewrite Nat.sub_diag. }
    split; [done|]. split; [done|]. intros ps.
    rewrite stalled_subscriber_buffer.
    + by rewrite (pending_Some _ _ _ Hreg), published_writes.
    + apply (step_wf LogHub.EvSubscribe), run_wf, init_wf.
    + by rewrite Hreg.
    + apply Forall_fmap, Forall_forall. by intros p _.
  - intros i ch Hch.
    pose proof (run_wf es _ init_wf) as Hwf.
    eapply Forall_lookup_1 in Hwf as [Hcap Hlen]; [|exact Hch].
    unfold Chan.wf in Hlen. rewrite Hcap in Hlen.
    split; [done|]. split; [done|]. intros p.
    rewrite Write_subscriber, Hch. cbn [fmap option_fmap option_map]. split; [split|].
    + intros [= H]. destruct (decide (length (Chan.buf ch) < 100)); [|lia].
      rewrite trySend_room in H by lia.
      apply (f_equal (fun c => length (Chan.buf c))) in H.
      cbn in H. rewrite length_app in H. cbn in H. lia.
    + intros Hfull. rewrite trySend_full; [done|]. unfold Chan.full. lia.
    + intros Hroom. rewrite trySend_room by lia. by rewrite Hcap.
Qed.

(** An instance of C10: the hundred-and-first command waits; the channel of
    a subscriber that holds a hundred lines is left as it is by the next
    write; a second subscriber that takes nothing is offered 101 lines and
    keeps a hundred. *)
Lemma queues_hold_a_hundred_lines_witness :
  let w := MkWorld [set_stdin (Chan.Mk 100 (replicate 100 "list")) (launched Launches)]
             (Some 0) false in
  let h := LogHub.run (LogHub.EvSubscribe :: replicate 100 (LogHub.EvWrite "old"))
             LogHub.init in
  calls (OpStart Launches :: replicate 100 (OpRunCommand "list")) init
  = Done tt w /\
  RunCommand "list" w = Parked /\
  LogHub.subscribers h !! 0 = Some (Chan.Mk 100 (replicate 100 "old")) /\
  LogHub.subscribers (LogHub.Write "new" h).2 !! 0
  = Some (Chan.Mk 100 (replicate 100 "old")) /\
  (LogHub.Subscribe h).1 = 1 /\
  LogHub.pending (LogHub.Subscribe h).1
    (LogHub.run (LogHub.EvWrite <$> replicate 101 "new") (LogHub.Subscribe h).2)
  = replicate 100 "new".
Proof.
  intros w h.
  pose proof (queues_hold_a_hundred_lines w None
    (LogHub.EvSubscribe :: replicate 100 (LogHub.EvWrite "old"))
    (queue_filled_reachable 100 (le_n _))) as (_ & Hq & Hs & Hh).
  assert (Hch : LogHub.subscribers h !! 0 = Some (Chan.Mk 100 (replicate 100 "old")))
    by (by vm_compute).
  split; [by apply queue_filled|]. split; [|split; [exact Hch|split; [|split]]].
  - apply (proj2 (Hq eq_refl 0
      (set_stdin (Chan.Mk 100 (replicate 100 "list")) (launched Launches))
      "list" eq_refl eq_refl eq_refl)).
    cbn [Chan.buf Chan.cap stdin set_stdin]. apply length_replicate.
  - apply (proj1 (proj2 (proj2 (Hh 0 _ Hch)) "new")).
    cbn [Chan.buf]. apply length_replicate.
  - by vm_compute.
  - destruct Hs as (_ & _ & Hs). unfold h. rewrite (Hs (replicate 101 "new")).
    by vm_compute.
Defined.

(** ** The command queue *)

Lemma lines_app cs ds : lines (cs ++ ds) = lines cs ++ lines ds.
Proof. unfold lines. apply fmap_app. Qed.

Lemma stream_alter w s t (f : Server -> Server) a m :
  (forall x, piped (f x) = piped x /\ stdin (f x) = stdin x) ->
  stream (MkWorld (alter f t (heap w)) a m) s = stream w s.
Proof.
  intros Hf. unfold stream. cbn. rewrite list_lookup_alter. case_decide; [|done].
  subst t. destruct (heap w !! s) as [x|]; [|done]. cbn.
  by destruct (Hf x) as [-> ->].
Qed.

Lemma stream_new w a m s :
  stream (MkWorld (heap w ++ [set_early ESpawned (set_mu true fresh)]) a m) s
  = stream w s.
Proof.
  unfold stream. cbn.
  destruct (decide (s < length (heap w))) as [Hlt|Hge].
  - by rewrite lookup_app_l.
  - rewrite (lookup_ge_None_2 (heap w)) by lia.
    destruct (decide (s = length (heap w))) as [->|Hne].
    + by rewrite lookup_fresh.
    + rewrite lookup_ge_None_2; [done|]. rewrite length_app. cbn. lia.
Qed.

(** A transition appends to the stream of [s] the line it puts on the queue
    of [s], and changes the stream in no other way. *)
Lemma stream_step e pc w pc' w' s :
  exec e pc w = Done pc' w' -> stream w' s = stream w s ++ lines (sent s e pc w).
Proof.
  intros Hexec.
  destruct e as [op| |t|t|t|t|t|t|t|t|t]; simpl in Hexec.
  1: { cbn. rewrite app_nil_r. destruct pc; [done|]. by minv. }
  1: { destruct pc as [p|]; [|done]. destruct p.
       all: cbn [sent]; try rewrite Hexec.
       all: cunfold; step_inv.
       all: rewrite ?app_nil_r; try done.
       all: try (by apply stream_alter).
       all: try apply stream_new.
       - unfold stream. cbn. rewrite list_lookup_alter_eq, H. cbn.
         by rewrite lines_app, app_assoc.
       - unfold stream. cbn. by rewrite list_lookup_alter_ne. }
  all: cbn [sent]; rewrite app_nil_r.
  all: assert (exists x, heap w !! t = Some x) as [x Hx] by
    (revert Hexec; munfold; destruct (heap w !! t); [eauto | done]).
  all: minv; rewrite ?alter_alter.
  all: try (by apply stream_alter).
  unfold stream. cbn. rewrite list_lookup_alter. case_decide as Hts; [|done].
  subst t. rewrite Hx. cbn.
  match goal with H : Chan.recv _ = _ |- _ => apply recv_wf in H as [-> _] end.
  cbn. by rewrite <- app_assoc.
Qed.

Lemma stream_run es pc w pc' w' s :
  Server.run es pc w = Done pc' w' ->
  stream w' s = stream w s ++ lines (sent_by s es pc w).
Proof.
  revert pc w. induction es as [|e es IH]; intros pc w Hrun.
  - unfold Server.run, mret, M_ret in Hrun. simplify_eq. cbn. by rewrite app_nil_r.
  - apply run_cons_inv in Hrun as (pc1 & w1 & He & Hrun).
    rewrite (IH _ _ Hrun), (stream_step _ _ _ _ _ _ He). cbn [sent_by]. rewrite He.
    by rewrite lines_app, app_assoc.
Qed.

(** The writer, left to run, writes the pending lines in queue order. *)
Lemma writer_drains w pc s x :
  heap w !! s = Some x -> writer x = true ->
  Server.run (replicate (length (Chan.buf (stdin x))) (Writer_write s)) pc w
  = Done pc (upd s (fun y =>
      set_piped (piped x ++ lines (Chan.buf (stdin x)))
        (set_stdin (Chan.Mk (Chan.cap (stdin x)) []) y)) w).
Proof.
  remember (Chan.buf (stdin x)) as q eqn:Hq.
  revert w x Hq. induction q as [|c q IH]; intros w x Hq Hx Hwr.
  - cbn. unfold mret, M_ret, lines. cbn. rewrite app_nil_r.
    f_equal. unfold upd. destruct w as [h a m]. cbn in *. f_equal.
    symmetry. eapply alter_same; [done|]. destruct x as [? [? ?] ? ? ? ? ? ? ? ?].
    cbn in *. by subst.
  - cbn [length replicate Server.run exec]. unfold mbind, M_bind.
    assert (Hstep : writer_write s w = Done tt
              (upd s (fun y => set_piped (piped x ++ [c +:+ newline])
                         (set_stdin (Chan.Mk (Chan.cap (stdin x)) q) y)) w)).
    { unfold writer_write, Chan.recv. mgo. rewrite <- Hq. mgo.
      by rewrite alter_alter. }
    rewrite Hstep. unfold mret, M_ret.
    erewrite (IH _ (set_piped (piped x ++ [c +:+ newline])
                      (set_stdin (Chan.Mk (Chan.cap (stdin x)) q) x)));
      [|done| |done].
    + f_equal. unfold upd. cbn. rewrite alter_alter. f_equal.
      eapply alter_agree; [done|]. cbn. unfold lines. cbn.
      by rewrite <- app_assoc.
    + unfold upd. cbn. by rewrite list_lookup_alter_eq, Hx.
Qed.

(** C8: whatever happens, the writes made to the pipe of the child of [s]
    followed by the lines still on its queue, each with its newline, are what
    they were before followed by the lines [RunCommand] and [Stop] have put
    on the queue since, in the order of the sends, each once and each with
    one newline appended.  The writes are thus a prefix of the lines in
    enqueue order, and once the writer has taken every pending line they are
    exactly those lines. *)
Theorem stdin_is_fifo (es : list event) (pc pc' : option call_pc) (w w' : World) (s : ptr) :
  Server.run es pc w = Done pc' w' ->
  stream w' s = stream w s ++ lines (sent_by s es pc w) /\
  (forall x', heap w' !! s = Some x' ->
     piped x' `prefix_of` stream w s ++ lines (sent_by s es pc w) /\
     (writer x' = true ->
      exists w'',
        Server.run (replicate (length (Chan.buf (stdin x'))) (Writer_write s)) pc' w'
        = Done pc' w'' /\
        (piped <$> heap w'' !! s) = Some (stream w s ++ lines (sent_by s es pc w)) /\
        (Chan.buf <$> (stdin <$> heap w'' !! s)) = Some [])).
Proof.
  intros Hrun. pose proof (stream_run es pc w pc' w' s Hrun) as Hs.
  split; [done|]. intros x' Hx'. rewrite <- Hs. unfold stream. rewrite Hx'. split.
  - by apply prefix_app_r.
  - intros Hwr. eexists. split; [by apply writer_drains|].
    unfold upd. cbn. by rewrite list_lookup_alter_eq, Hx'.
Qed.

Lemma stdin_is_fifo_witness :
  exists w',
    Server.run
      (uninterrupted (OpStart Launches) 6 ++
       uninterrupted (OpRunCommand "list") 4 ++
       [Call OpStop; Step; Step; Writer_write 0; Step; Step] ++
       uninterrupted (OpRunCommand "say bye") 4) None init = Done None w' /\
    stream w' 0 = lines ["list"; "stop"; "say bye"] /\
    (piped <$> heap w' !! 0) = Some (lines ["list"]).
Proof.
  eexists. split; [by vm_compute|]. split; [|by vm_compute].
  refine (eq_trans (proj1 (stdin_is_fifo
    (uninterrupted (OpStart Launches) 6 ++
       uninterrupted (OpRunCommand "list") 4 ++
       [Call OpStop; Step; Step; Writer_write 0; Step; Step] ++
       uninterrupted (OpRunCommand "say bye") 4) None None init _ 0 _)) _);
    by vm_compute.
Defined.

(** ** The status flag *)

(** In every reachable state [isRunning] is set exactly on the servers whose
    launch succeeded and whose [done] channel is still open. *)
Lemma isRunning_iff_done_open w pc s x :
  reachable w pc -> heap w !! s = Some x ->
  isRunning x = true <->
  (watcher x = WWaiting \/ watcher x = WWaited) /\ done x = false.
Proof.
  intros Hw Hx. apply reachable_invariant in Hw as (_ & _ & Hok & _).
  destruct (Hok _ _ Hx) as [_ _ _ _ Hwatch _ Hclosed Hflag _ _]. split.
  - intros Hr. split; [by apply Hflag|].
    destruct (done x) eqn:E; [|done]. specialize (Hclosed eq_refl). congruence.
  - intros [Hwt Hd]. by apply Hwatch.
Qed.

(** What a transition has done to a server. *)
Ltac at_server :=
  repeat match goal with
  | H : context [heap (MkWorld _ _ _)] |- _ => progress cbn [heap] in H
  | H : context [alter _ _ (alter _ _ _)] |- _ => rewrite alter_alter in H
  | H : alter _ ?s _ !! ?s = _ |- _ => rewrite list_lookup_alter_eq in H
  | H : alter _ _ _ !! _ = _ |- _ =>
      rewrite list_lookup_alter in H; case_decide; simplify_eq
  | H : (_ ++ _) !! _ = Some _, H' : _ !! _ = Some _ |- _ =>
      rewrite lookup_app_l in H by (by eapply lookup_lt_Some)
  end;
  mred; simplify_eq.

(** The flag of a server is cleared by the locked sections of the two
    goroutines of [startInternal] and by nothing else; [Kill], in particular,
    leaves it as it is. *)
Lemma isRunning_cleared_by e pc w pc' w' s x x' :
  exec e pc w = Done pc' w' ->
  heap w !! s = Some x -> heap w' !! s = Some x' ->
  isRunning x = true -> isRunning x' = false ->
  e = Early_lock s \/ e = Watcher_lock s.
Proof.
  intros Hexec Hx Hx' Hr Hr'.
  destruct e as [op| |t|t|t|t|t|t|t|t|t]; simpl in Hexec.
  1: { exfalso. destruct pc; [done|]. minv. cbn in *; congruence. }
  1: { exfalso. destruct pc as [p|]; [|done]. destruct p.
       all: cunfold; step_inv.
       all: try congruence.
       all: at_server; try (cbn in *; congruence).
       }
  all: destruct (decide (t = s)) as [->|Hne];
    [|exfalso; step_inv; at_server; congruence].
  all: try (by eauto).
  all: exfalso; step_inv; at_server; cbn in *; congruence.
Qed.

(** A server stays in the heap, and its [done] channel, once closed, stays
    closed. *)
Lemma done_stays_closed e pc w pc' w' s x :
  exec e pc w = Done pc' w' -> heap w !! s = Some x ->
  exists x', heap w' !! s = Some x' /\ (done x = true -> done x' = true).
Proof.
  intros Hexec Hx.
  destruct e as [op| |t|t|t|t|t|t|t|t|t]; simpl in Hexec.
  1: { destruct pc; [done|]. minv. eauto. }
  1: { destruct pc as [p|]; [|done]. destruct p.
       all: cunfold; step_inv.
       all: try (by eauto).
       all: cbn [heap].
       all: try (rewrite lookup_app_l by (by eapply lookup_lt_Some); by eauto).
       all: rewrite list_lookup_alter; case_decide; simplify_eq; mred; eauto.
       }
  all: step_inv; cbn [heap].
  all: rewrite list_lookup_alter; destruct (decide (t = s)) as [->|]; mred; eauto.
  all: eexists; (split; [done|]); cbn; congruence.
Qed.

Lemma running_GetStatus w pc s x :
  invariant w pc -> heap w !! s = Some x -> isRunning x = true ->
  Server_GetStatus s w = Done true w /\ (pc = None -> GetStatus w = Done true w).
Proof.
  intros Hinv Hx Hr.
  pose proof (invariant_free _ _ _ _ Hinv Hx Hr) as Hmu. split.
  - rewrite (Server_GetStatus_free s w x) by done. by rewrite Hr.
  - intros ->.
    pose proof (ok_running _ _ _ _ (proj1 (proj2 (proj2 Hinv)) _ _ Hx) Hr) as Ha.
    rewrite (GetStatus_free w s x); [by rewrite Hr | by apply invariant_serverMu | done..].
Qed.

(** After a successful [Start], [GetStatus] answers true for as long as
    neither locked section has run on the server; once [done] is closed the
    flag of the server is clear for good. *)
Theorem Status_until_done_closes
    (es : list event) (pc pc' : option call_pc) (w w' : World) (s : ptr) (x : Server) :
  reachable w pc -> heap w !! s = Some x -> Server.run es pc w = Done pc' w' ->
  exists x', heap w' !! s = Some x' /\
    (isRunning x = true -> Early_lock s ∉ es -> Watcher_lock s ∉ es ->
       isRunning x' = true /\ Server_GetStatus s w' = Done true w' /\
       (pc' = None -> GetStatus w' = Done true w')) /\
    (done x = true -> isRunning x' = false).
Proof.
  revert pc w x. induction es as [|e es IH]; intros pc w x Hw Hx Hrun.
  - unfold Server.run, mret, M_ret in Hrun. simplify_eq.
    apply reachable_invariant in Hw as Hinv. exists x. split; [done|]. split.
    + intros Hr _ _. split; [done|]. by eapply running_GetStatus.
    + apply (ok_closed _ _ _ _ (proj1 (proj2 (proj2 Hinv)) _ _ Hx)).
  - apply run_cons_inv in Hrun as (pc1 & w1 & He & Hrun).
    destruct (done_stays_closed _ _ _ _ _ _ _ He Hx) as (x1 & Hx1 & Hd).
    destruct (IH pc1 w1 x1 (reachable_step _ _ _ _ _ Hw He) Hx1 Hrun)
      as (x' & Hx' & Htrue & Hfalse).
    exists x'. split; [done|]. split.
    + intros Hr He1 He2. apply Htrue.
      * destruct (isRunning x1) eqn:E; [done|].
        destruct (isRunning_cleared_by _ _ _ _ _ _ _ _ He Hx Hx1 Hr E) as [->| ->].
        -- exfalso. apply He1. by apply elem_of_cons; left.
        -- exfalso. apply He2. by apply elem_of_cons; left.
      * intros H. apply He1. by apply elem_of_cons; right.
      * intros H. apply He2. by apply elem_of_cons; right.
    + intros Hdone. by apply Hfalse, Hd.
Qed.

Lemma launched_reachable : reachable (MkWorld [launched Launches] (Some 0) false) None.
Proof. apply (queue_filled_reachable 0). lia. Qed.

Lemma isRunning_iff_done_open_witness :
  isRunning (launched Launches) = true <->
  (watcher (launched Launches) = WWaiting \/ watcher (launched Launches) = WWaited) /\
  done (launched Launches) = false.
Proof.
  exact (isRunning_iff_done_open _ None 0 (launched Launches)
           launched_reachable eq_refl).
Defined.

Lemma Status_until_done_closes_witness :
  exists w',
    Server.run
      (uninterrupted (OpRunCommand "list") 4 ++
       [Call OpKill; Step; Child_exit 0; Step; Watcher_wait 0; Step; Writer_write 0])
      None (MkWorld [launched Launches] (Some 0) false) = Done None w' /\
    GetStatus w' = Done true w'.
Proof.
  assert (Hrun : exists w',
    Server.run
      (uninterrupted (OpRunCommand "list") 4 ++
       [Call OpKill; Step; Child_exit 0; Step; Watcher_wait 0; Step; Writer_write 0])
      None (MkWorld [launched Launches] (Some 0) false) = Done None w')
    by (eexists; by vm_compute).
  destruct Hrun as [w' Hrun]. exists w'. split; [exact Hrun|].
  destruct (Status_until_done_closes _ _ _ _ _ 0 (launched Launches)
              launched_reachable eq_refl Hrun)
    as (x' & _ & Htrue & _).
  apply Htrue; [done| | |done]; intros H;
    repeat (apply elem_of_cons in H as [?|H]; [done|]);
    by apply elem_of_nil in H.
Defined.

(** While a call holds [serverMu], every other call waits, [Kill] and
    [GetStatus] included: a [RunCommand] parked on a full queue keeps all of
    them waiting. *)
Lemma calls_wait_for_serverMu w :
  serverMu w = true ->
  (forall l, Start l w = Parked) /\ Stop w = Parked /\ Kill w = Parked /\
  (forall c, RunCommand c w = Parked) /\ GetStatus w = Parked.
Proof. intros H. repeat split; intros; by mgo. Qed.

Lemma calls_wait_for_serverMu_witness :
  let w := MkWorld [set_stdin (Chan.Mk 100 (replicate 100 "list")) (launched Launches)]
             (Some 0) true in
  Lock_serverMu
    (MkWorld [set_stdin (Chan.Mk 100 (replicate 100 "list")) (launched Launches)]
       (Some 0) false) = Done tt w /\
  Kill w = Parked /\ GetStatus w = Parked.
Proof.
  intros w. split; [reflexivity|].
  pose proof (calls_wait_for_serverMu w eq_refl) as (_ & _ & Hk & _ & Hg).
  by split.
Defined.

(** ** The exit of the child during a call *)

(** No transition leads out of a deadlock: the caller cannot lock the mutex
    of the server, the exit watcher cannot lock [serverMu], and nothing else
    unlocks either. *)
Lemma deadlock_step e pc w pc' w' s :
  deadlock w pc s -> exec e pc w = Done pc' w' -> pc' = pc /\ deadlock w' pc' s.
Proof.
  intros (Hm & Ha & Hp & x & Hx & Hw & Hmu) Hexec.
  destruct e as [op| |t|t|t|t|t|t|t|t|t]; simpl in Hexec.
  1: { by destruct pc. }
  1: { exfalso. destruct pc as [p|]; [|done]. destruct p; try done.
       all: cbn in Hp; subst; cunfold; revert Hexec; by mrun. }
  all: destruct (decide (t = s)) as [->|Hne].
  all: step_inv.
  all: try congruence.
  all: split; [done|].
  all: repeat split; cbn; try done.
  all: rewrite ?list_lookup_alter_eq, ?list_lookup_alter_ne by done; mred.
  all: eexists; (split; [done|]); by cbn.
Qed.

Lemma deadlock_run es pc w pc' w' s :
  deadlock w pc s -> Server.run es pc w = Done pc' w' ->
  pc' = pc /\ deadlock w' pc' s.
Proof.
  revert pc w. induction es as [|e es IH]; intros pc w Hd Hrun.
  - unfold Server.run, mret, M_ret in Hrun. by simplify_eq.
  - apply run_cons_inv in Hrun as (pc1 & w1 & He & Hrun).
    destruct (deadlock_step _ _ _ _ _ _ Hd He) as [-> Hd1]. by eapply IH.
Qed.

(** C9 fails on the code.  (1) The goroutine that [startInternal] starts
    first can run its test between the assignment of [s.cmd] and
    [s.cmd.Start()]: it finds [s.cmd] set and [s.cmd.Process] nil, its [Wait]
    fails at once, and once [startInternal] has returned its locked section
    clears [isRunning].  [GetStatus] then answers false while the child is
    alive and the goroutine that waits for the exit has observed nothing;
    once the first goroutine has cleared the registry, the next [Start]
    launches a second child beside the first.  (2) When the child exits
    while a caller of [GetStatus] is inside, between its [serverMu.Lock()]
    and its call of the method, the watching goroutine takes [s.mu] and waits
    for [serverMu], the caller holds [serverMu] and waits for [s.mu]:
    whatever happens afterwards the call does not return, and the registry
    is not cleared. *)
Theorem Status_is_cleared_before_the_exit :
  (exists w w2,
     Server.run
       ([Call (OpStart Launches); Step; Step; Step; Early_test 0;
         Step; Step; Step; Early_lock 0]) None init = Done None w /\
     GetStatus w = Done false w /\
     (proc <$> heap w !! 0) = Some Alive /\
     (watcher <$> heap w !! 0) = Some WWaiting /\
     Server.run (Early_clear 0 :: uninterrupted (OpStart Launches) 6) None w
     = Done None w2 /\
     (proc <$> heap w2 !! 0) = Some Alive /\
     (proc <$> heap w2 !! 1) = Some Alive) /\
  (exists w,
     Server.run
       (uninterrupted (OpStart Launches) 6 ++
        [Call OpGetStatus; Child_exit 0; Watcher_wait 0; Watcher_lock 0])
       None init = Done (Some Status_guard) w /\
     (isRunning <$> heap w !! 0) = Some false /\
     exec Step (Some Status_guard) w = Parked /\
     exec (Watcher_clear 0) (Some Status_guard) w = Parked /\
     forall es pc' w',
       Server.run es (Some Status_guard) w = Done pc' w' ->
       pc' = Some Status_guard /\ activeServer w' = Some 0 /\
       (watcher <$> heap w' !! 0) = Some WHolding).
Proof.
  split.
  - eexists _, _. split; [by vm_compute|]. split; [by vm_compute|].
    split; [by vm_compute|]. split; [by vm_compute|].
    split; [by vm_compute|]. split; by vm_compute.
  - eexists. split; [by vm_compute|]. split; [by vm_compute|].
    split; [by vm_compute|]. split; [by vm_compute|].
    intros es pc' w' Hrun.
    eapply deadlock_run in Hrun as (-> & _ & Ha & _ & x & Hx & Hw & _).
    + split; [done|]. split; [done|]. by rewrite Hx, <- Hw.
    + repeat split; try done. eexists. split; [by vm_compute|]. by split.
Qed.

(** In a deadlock the caller inside cannot go on, no other caller can enter,
    and the exit watcher cannot go on. *)
Lemma deadlock_parks w pc s :
  deadlock w pc s ->
  exec Step pc w = Parked /\ exec (Watcher_clear s) pc w = Parked /\
  forall op, exec (Call op) pc w = Parked.
Proof.
  intros (Hm & Ha & Hp & x & Hx & Hw & Hmu).
  destruct pc as [p|]; [|done]. split; [|split].
  - destruct p; try done; cbn in Hp; subst; cbn [exec]; cunfold; by mrun.
  - cbn [exec]. by mrun.
  - done.
Qed.

(** When the child exits while a caller is inside a package function and
    has not yet taken the mutex of the active server, the exit watcher and
    the caller wait for each other for good: after every run the caller is
    where it was and cannot go on, [serverMu] is held, so that no other
    caller can enter, and the watcher holds the mutex of the server and
    cannot go on. *)
Theorem exit_during_call_deadlocks
    (es : list event) (pc pc' : option call_pc) (w w' : World) (s : ptr) :
  deadlock w pc s -> Server.run es pc w = Done pc' w' ->
  pc' = pc /\ deadlock w' pc' s /\
  exec Step pc' w' = Parked /\ exec (Watcher_clear s) pc' w' = Parked /\
  forall op, exec (Call op) pc' w' = Parked.
Proof.
  intros Hd Hrun.
  destruct (deadlock_run _ _ _ _ _ _ Hd Hrun) as [-> Hd'].
  split; [done|]. split; [done|]. by apply deadlock_parks.
Qed.

Lemma exit_during_call_deadlocks_witness :
  let x := MkServer (Some java) (Chan.make 100) true true false Reaped []
             ESpawned WHolding true in
  let w := MkWorld [x] (Some 0) true in
  let w' := MkWorld [set_early EWaited x] (Some 0) true in
  Server.run
    (uninterrupted (OpStart Launches) 6 ++
     [Call OpKill; Child_exit 0; Watcher_wait 0; Watcher_lock 0])
    None init = Done (Some Kill_guard) w /\
  Server.run [Early_test 0; Early_wait 0] (Some Kill_guard) w
  = Done (Some Kill_guard) w' /\
  deadlock w' (Some Kill_guard) 0.
Proof.
  intros x w w'.
  assert (Hd : deadlock w (Some Kill_guard) 0).
  { repeat split; try done. exists x. by repeat split. }
  assert (Hrun : Server.run [Early_test 0; Early_wait 0] (Some Kill_guard) w
                 = Done (Some Kill_guard) w') by (by vm_compute).
  split; [by vm_compute|]. split; [exact Hrun|].
  exact (proj1 (proj2 (exit_during_call_deadlocks _ _ _ _ _ 0 Hd Hrun))).
Defined.

(** * The command endpoint *)

Section command.
Import Command.

(** What a call of [Start] that returns has found and done. *)
Lemma Start_returns l w r w' :
  Start l w = Done r w' ->
  serverMu w = false /\
  ((exists s x, running w s x) /\ r = Some ErrServerExists /\ w' = w \/
   idle w /\ r = launch_result l /\
   w' = MkWorld (heap w ++ [launched l]) (Some (length (heap w))) false).
Proof.
  intros H. destruct (serverMu w) eqn:Hm; [by revert H; mgo|]. split; [done|].
  destruct (activeServer w) as [s|] eqn:Ha.
  - destruct (heap w !! s) as [x|] eqn:Hx; [|by revert H; mrun].
    destruct (mu x) eqn:Hmu; [by rewrite (Start_held w s x) in H|].
    destruct (isRunning x) eqn:Hr.
    + rewrite (Start_running w s x) in H by (by repeat split).
      left. simplify_eq. split; [exists s, x; by repeat split | done].
    + rewrite Start_idle in H; [|done|]; [right|]; unfold idle; rewrite Ha; naive_solver.
  - rewrite Start_idle in H; [|done|]; [right|]; unfold idle; rewrite Ha; naive_solver.
Qed.

(** What a call of [Kill] that returns has found and done. *)
Lemma Kill_returns w r w' :
  Kill w = Done r w' ->
  serverMu w = false /\
  (idle w /\ r = Some ErrNotRunning /\ w' = w \/
   exists s x, running w s x /\
     (proc x = Alive /\ r = None /\ w' = upd s (set_proc Exited) w \/
      proc x = Exited /\ r = None /\ w' = w \/
      proc x = Reaped /\ r = Some KillError /\ w' = w)).
Proof.
  intros H. destruct (serverMu w) eqn:Hm; [by revert H; mgo|]. split; [done|].
  destruct (activeServer w) as [s|] eqn:Ha.
  - destruct (heap w !! s) as [x|] eqn:Hx; [|by revert H; mrun].
    destruct (mu x) eqn:Hmu; [by rewrite (Kill_held w s x) in H|].
    destruct (isRunning x) eqn:Hr.
    + destruct (cmd x) as [j|] eqn:Hj; [|by revert H; mrun].
      rewrite (Kill_running w s x) in H by (repeat split; (done || congruence)).
      right. exists s, x. split; [by repeat split|]. destruct (proc x); naive_solver.
    + rewrite Kill_idle in H; [|done|]; [left|]; unfold idle; rewrite Ha; naive_solver.
  - rewrite Kill_idle in H; [|done|]; [left|]; unfold idle; rewrite Ha; naive_solver.
Qed.

Lemma queue_old w y a m s :
  s < length (heap w) -> queue (MkWorld (heap w ++ [y]) a m) s = queue w s.
Proof. intros Hs. unfold queue. cbn. by rewrite lookup_app_l. Qed.

(** A command request puts at most one line on a command queue: the command
    itself, on the queue of the active server, and only when it answers 200.
    The commands ["start"] and ["kill"] and the empty command never reach
    the console of the child. *)
Theorem commandHandler_forwards_only_the_command
    (cmd : string) (l : launch) (w w' : World) (r : reply) :
  commandHandler cmd l w = Done r w' ->
  (forall s, s < length (heap w) -> queue w' s = queue w s) \/
  (cmd <> "" /\ cmd <> "start" /\ cmd <> "kill" /\ status r = StatusOK /\
   exists s, activeServer w = Some s /\ queue w' s = queue w s ++ [cmd] /\
     forall t, t <> s -> queue w' t = queue w t).
Proof.
  unfold commandHandler. intros H.
  repeat case_decide; subst.
  - unfold mret, M_ret in H. simplify_eq. by left.
  - left. revert H. unfold mbind, M_bind.
    destruct (Start l w) as [e w1| |] eqn:E; [|done..].
    apply Start_returns in E as (_ & [(_ & _ & ->)|(_ & _ & ->)]).
    + destruct e; unfold mret, M_ret; by intros [= <- <-].
    + destruct e; unfold mret, M_ret; intros [= <- <-]; intros s Hs; by apply queue_old.
  - left. revert H. unfold mbind, M_bind.
    destruct (Kill w) as [e w1| |] eqn:E; [|done..].
    assert (Hq : forall s, queue w1 s = queue w s).
    { apply Kill_returns in E as (_ & [(_ & _ & ->)|(t & x & _ & Hk)]); [done|].
      destruct Hk as [(_ & _ & ->)|[(_ & _ & ->)|(_ & _ & ->)]]; try done.
      intros s. unfold queue, upd. cbn. rewrite list_lookup_alter.
      case_decide; [|done]. subst. by destruct (heap w !! s). }
    destruct e; unfold mret, M_ret; intros; by simplify_eq.
  - revert H. unfold mbind, M_bind.
    destruct (RunCommand cmd w) as [e w1| |] eqn:E; [|done..].
    apply RunCommand_inv in E
      as (_ & [(_ & -> & ->)|(s & x & (Ha & Hx & _) & Hroom & -> & ->)]).
    + unfold mret, M_ret. intros. simplify_eq. by left.
    + unfold mret, M_ret. intros. simplify_eq. right.
      repeat split; try done. exists s. split; [done|]. split.
      * unfold queue, upd. cbn. by rewrite list_lookup_alter_eq, Hx.
      * intros t Hne. unfold queue, upd. cbn. by rewrite list_lookup_alter_ne.
Qed.

Lemma commandHandler_forwards_only_the_command_witness :
  let w := MkWorld [launched Launches] (Some 0) false in
  commandHandler "say hi" Launches w
  = Done (Reply StatusOK [])
      (MkWorld [set_stdin (Chan.Mk 100 ["say hi"]) (launched Launches)] (Some 0) false) /\
  queue (MkWorld [set_stdin (Chan.Mk 100 ["say hi"]) (launched Launches)] (Some 0) false) 0
  = queue w 0 ++ ["say hi"].
Proof.
  intros w.
  assert (H : commandHandler "say hi" Launches w
    = Done (Reply StatusOK [])
        (MkWorld [set_stdin (Chan.Mk 100 ["say hi"]) (launched Launches)] (Some 0) false))
    by (by vm_compute).
  split; [exact H|].
  destruct (commandHandler_forwards_only_the_command _ _ _ _ _ H)
    as [Hq|(_ & _ & _ & _ & s & Ha & Hq & _)].
  - by specialize (Hq 0 ltac:(cbn; lia)).
  - by injection Ha as <-.
Defined.





End command.

(** * The exit of the child *)

Section exit.
Import Server.

(** Once the child of a running server has exited, by [Kill], by ["stop"] or
    by itself, and no caller is inside, what the goroutine that waits for it
    (server.go 179-189) does depends on the goroutine of [startInternal]
    (server.go 91-118).  If the watcher's wait, its locked section and its
    clearing of the registry are the next three steps, it clears the flag,
    closes [done] and empties the registry, after which [GetStatus] answers
    false and the next [Start] is let through.  If the goroutine of
    [startInternal] is waiting for the same child and its wait and its
    locked section, which closes [done], run first, the watcher's wait
    still returns, and its locked section then closes the closed channel:
    the program panics, the registry still pointing to the instance. *)
Theorem exit_watcher_clears_or_panics (w : World) (s : ptr) (x : Server) :
  reachable w None -> heap w !! s = Some x ->
  isRunning x = true -> watcher x = WWaiting -> proc x = Exited ->
  (exists w',
     Server.run [Watcher_wait s; Watcher_lock s; Watcher_clear s] None w = Done None w' /\
     reachable w' None /\
     activeServer w' = None /\
     heap w' !! s
     = Some (set_watcher WDone (set_mu false (set_done true (set_isRunning false
               (set_proc Reaped x))))) /\
     GetStatus w' = Done false w' /\
     forall l, Start l w'
       = Done (launch_result l)
           (MkWorld (heap w' ++ [launched l]) (Some (length (heap w'))) false)) /\
  (early x = EWaiting ->
   exists w1,
     Server.run [Early_wait s; Early_lock s; Watcher_wait s] None w = Done None w1 /\
     heap w1 !! s
     = Some (set_watcher WWaited (set_early EClearing (set_done true
               (set_isRunning false (set_proc Reaped x))))) /\
     activeServer w1 = activeServer w /\
     exec (Watcher_lock s) None w1 = Panic).
Proof.
  intros Hw Hx Hr Hwt Hp. apply reachable_invariant in Hw as Hinv.
  pose proof (invariant_serverMu w Hinv) as Hm.
  pose proof (invariant_free w None s x Hinv Hx Hr) as Hmu.
  pose proof Hinv as (_ & _ & Hok & _).
  destruct (Hok _ _ Hx) as [_ _ _ _ _ _ Hclosed _ _ _].
  assert (Hd : done x = false).
  { destruct (done x); [|done]. specialize (Hclosed eq_refl). congruence. }
  split.
  - assert (Hrun : Server.run [Watcher_wait s; Watcher_lock s; Watcher_clear s] None w
      = Done None (MkWorld
          (alter (fun x => set_watcher WDone (set_mu false (set_done true
                    (set_isRunning false (set_proc Reaped x))))) s (heap w))
          None false)).
    { cbn [Server.run exec]. mgo. by rewrite !alter_alter. }
    eexists. split; [exact Hrun|].
    assert (Hw' : reachable (MkWorld
          (alter (fun x => set_watcher WDone (set_mu false (set_done true
                    (set_isRunning false (set_proc Reaped x))))) s (heap w))
          None false) None) by (by eapply run_reachable).
    split; [done|]. split; [done|]. split.
    { cbn. by rewrite list_lookup_alter_eq, Hx. }
    split; [by apply GetStatus_empty|].
    intros l. by apply Start_idle.
  - intros He.
    assert (Hrun : Server.run [Early_wait s; Early_lock s; Watcher_wait s] None w
      = Done None (MkWorld
          (alter (fun x => set_watcher WWaited (set_early EClearing (set_done true
                    (set_isRunning false (set_proc Reaped x))))) s (heap w))
          (activeServer w) (serverMu w))).
    { cbn [Server.run exec]. mgo. rewrite !alter_alter. unfold mret, M_ret.
      do 2 f_equal. apply alter_agree with x; [done|].
      destruct x; cbn in *; by subst. }
    eexists. split; [exact Hrun|]. split.
    { cbn. by rewrite list_lookup_alter_eq, Hx. }
    split; [done|].
    cbn [exec]. by mgo.
Qed.

(** An instance: the goroutine of [startInternal] has gone past its test
    and waits, [Kill] ends the child; from there the one schedule clears the
    registry and the other panics. *)
Lemma exit_watcher_clears_or_panics_witness :
  let x := set_proc Exited (set_early EWaiting (launched Launches)) in
  let w := MkWorld [x] (Some 0) false in
  Server.run (Early_test 0 :: uninterrupted OpKill 3) None
    (MkWorld [launched Launches] (Some 0) false) = Done None w /\
  (exists w',
     Server.run [Watcher_wait 0; Watcher_lock 0; Watcher_clear 0] None w = Done None w' /\
     activeServer w' = None /\
     Start Launches w'
     = Done None (MkWorld (heap w' ++ [launched Launches]) (Some (length (heap w'))) false)) /\
  (exists w1,
     Server.run [Early_wait 0; Early_lock 0; Watcher_wait 0] None w = Done None w1 /\
     exec (Watcher_lock 0) None w1 = Panic).
Proof.
  intros x w.
  assert (Hrun : Server.run (Early_test 0 :: uninterrupted OpKill 3) None
    (MkWorld [launched Launches] (Some 0) false) = Done None w) by (by vm_compute).
  split; [exact Hrun|].
  assert (Hw : reachable w None)
    by (exact (run_reachable _ _ _ _ _ launched_reachable Hrun)).
  destruct (exit_watcher_clears_or_panics w 0 x Hw eq_refl eq_refl eq_refl eq_refl)
    as [(w' & Hrun' & _ & Ha & _ & _ & Hs) Hpanic].
  split.
  - exists w'. split; [exact Hrun'|]. split; [exact Ha|]. exact (Hs Launches).
  - destruct (Hpanic eq_refl) as (w1 & Hrun1 & _ & _ & Hp).
    exists w1. by split.
Defined.

End exit.

(** * The method [Stop] *)

Section method_Stop.
Import Server.

(** The method [Stop] tests the status and then calls the method
    [RunCommand], which tests it again: in every state it returns, waits or
    panics as [RunCommand("stop")] does, and leaves the same state. *)
Theorem Server_Stop_is_RunCommand_stop (s : ptr) (w : World) :
  Server_Stop s w = Server_RunCommand s "stop" w.
Proof.
  unfold Server_Stop, Server_RunCommand. unfold mbind, M_bind.
  destruct (heap w !! s) as [x|] eqn:Hx;
    [|by rewrite Server_GetStatus_dangling].
  destruct (mu x) eqn:Hmu;
    [by rewrite (Server_GetStatus_held s w x)|].
  rewrite (Server_GetStatus_free s w x) by done.
  destruct (isRunning x) eqn:Hr; [|done]. cbn [negb].
  rewrite (Server_GetStatus_free s w x) by done.
  by rewrite Hr.
Qed.

End method_Stop.

(** * The log endpoint *)

Section stream.
Import LogHub Stream.

Lemma aligned_init : aligned Stream.init.
Proof. repeat split; try done. by constructor. Qed.

Lemma aligned_step e st : aligned st -> aligned (step e st).
Proof.
  intros (Hlen & Hch & Hwf). destruct e as [|k|k|p]; cbn [step].
  - unfold connect. cbn. repeat split; cbn.
    + rewrite !length_app. cbn. lia.
    + intros k c [Hk|[Hk Hc]]%lookup_app_Some; [by apply Hch|].
      apply list_lookup_singleton_Some in Hc as [Hz <-]. cbn. lia.
    + apply (step_wf EvSubscribe _ Hwf).
  - unfold replay. destruct (conns st !! k) as [c|] eqn:Hc; [|done].
    destruct (replayed c); [done|]. repeat split; cbn.
    + by rewrite length_insert.
    + intros j d. rewrite list_lookup_insert_Some.
      intros [(<- & <- & _)|(_ & Hd)]; cbn; eauto.
    + done.
  - unfold deliver. destruct (conns st !! k) as [c|] eqn:Hc; [|done].
    destruct (replayed c); [|done].
    destruct (Receive (ch c) (hub st)) as [[msg h]|] eqn:Hr; [|done].
    pose proof (step_wf (EvReceive (ch c)) _ Hwf) as Hwf'.
    cbn [LogHub.step] in Hwf'. rewrite Hr in Hwf'.
    apply Receive_inv in Hr as (ch0 & ch1 & H0 & Hb & ->).
    repeat split; cbn.
    + by rewrite !length_insert.
    + intros j d. rewrite list_lookup_insert_Some.
      intros [(<- & <- & _)|(_ & Hd)]; cbn; eauto.
    + done.
  - repeat split; cbn; [by rewrite length_fmap | done |].
    apply (step_wf (EvWrite p) _ Hwf).
Qed.

Lemma aligned_run es st : aligned st -> aligned (run es st).
Proof.
  revert st. induction es as [|e es IH]; intros st H; [done|].
  apply IH. by apply aligned_step.
Qed.


Lemma published_app es1 es2 : published (es1 ++ es2) = published es1 ++ published es2.
Proof. unfold published. apply omap_app. Qed.

Lemma run_events_app es1 es2 st : run (es1 ++ es2) st = run es2 (run es1 st).
Proof. unfold run. apply foldl_app. Qed.

Lemma keeps_up_app k es1 es2 st :
  keeps_up k (es1 ++ es2) st <-> keeps_up k es1 st /\ keeps_up k es2 (run es1 st).
Proof.
  revert st. induction es1 as [|e es1 IH]; intros st; cbn; [tauto|].
  rewrite IH. tauto.
Qed.

(** What a transition does to the channel of the request [k]. *)
Lemma waiting_step e st k c :
  aligned st -> conns st !! k = Some c ->
  match e with
  | Publish _ => length (waiting k st) < 100
  | Deliver j => j <> k
  | _ => True
  end ->
  waiting k (step e st) = waiting k st ++ published [e] /\
  (match e with Replay j => j <> k | _ => True end ->
   conns (step e st) !! k = Some c).
Proof.
  intros (Hlen & Hch & Hwf) Hc He. unfold waiting in He |- *. rewrite Hc.
  pose proof (Hch _ _ Hc) as Hk.
  destruct e as [|j|j|p]; cbn [step published omap].
  - unfold connect. cbn. rewrite lookup_app_l by (by eapply lookup_lt_Some).
    rewrite Hc, app_nil_r. split; [|done]. unfold pending. cbn.
    rewrite lookup_app_l; [done|]. rewrite <- Hlen, Hk. by eapply lookup_lt_Some.
  - unfold replay. destruct (conns st !! j) as [d|] eqn:Hd.
    + destruct (replayed d) eqn:Hrd; [by rewrite Hc, app_nil_r|]. cbn.
      destruct (decide (j = k)) as [->|Hne].
      * rewrite list_lookup_insert_eq by (by eapply lookup_lt_Some). cbn.
        rewrite app_nil_r. split; [congruence | done].
      * rewrite list_lookup_insert_ne by done. by rewrite Hc, app_nil_r.
    + by rewrite Hc, app_nil_r.
  - unfold deliver. destruct (conns st !! j) as [d|] eqn:Hd; [|by rewrite Hc, app_nil_r].
    destruct (replayed d); [|by rewrite Hc, app_nil_r].
    destruct (Receive (ch d) (hub st)) as [[msg h]|] eqn:Hr; [|by rewrite Hc, app_nil_r].
    apply Receive_inv in Hr as (ch0 & ch1 & H0 & Hb & ->). cbn.
    rewrite list_lookup_insert_ne by done. rewrite Hc, app_nil_r. split; [|done].
    unfold pending. cbn. rewrite list_lookup_insert_ne; [done|].
    rewrite (Hch _ _ Hd), Hk. done.
  - cbn. rewrite Hc. split; [|done]. unfold pending in *. cbn.
    rewrite list_lookup_fmap. rewrite Hc in He.
    destruct (subscribers (hub st) !! ch c) as [ch0|] eqn:H0; cbn.
    + eapply Forall_lookup_1 in Hwf as [Hcap _]; [|done].
      rewrite ?H0 in He. by rewrite trySend_room by lia.
    + apply lookup_ge_None in H0. apply lookup_lt_Some in Hc. lia.
Qed.


Lemma logs_step e st :
  sessionLogs (hub (step e st)) = sessionLogs (hub st) ++ published [e].
Proof.
  destruct e as [|j|j|p]; cbn [step published omap]; rewrite ?app_nil_r; try done.
  - unfold replay. destruct (conns st !! j) as [d|]; [|done]. by destruct (replayed d).
  - unfold deliver. destruct (conns st !! j) as [d|]; [|done].
    destruct (replayed d); [|done].
    destruct (Receive (ch d) (hub st)) as [[msg h]|] eqn:Hr; [|done].
    by apply Receive_inv in Hr as (ch0 & ch1 & H0 & Hb & ->).
Qed.

Lemma logs_run es st :
  sessionLogs (hub (run es st)) = sessionLogs (hub st) ++ published es.
Proof.
  revert st. induction es as [|e es IH]; intros st; [by rewrite app_nil_r|].
  cbn [run foldl]. fold (run es (step e st)). rewrite IH, logs_step.
  rewrite <- app_assoc. f_equal. symmetry. apply (published_app [e]).
Qed.

(** Before its replay, a request writes nothing and its channel collects
    what is published. *)
Lemma before_replay es st k c :
  aligned st -> conns st !! k = Some c -> replayed c = false ->
  Forall (fun e => e <> Replay k) es -> keeps_up k es st ->
  conns (run es st) !! k = Some c /\
  waiting k (run es st) = waiting k st ++ published es.
Proof.
  intros Hal Hc Hr Hes. revert st Hal Hc.
  induction Hes as [|e es He _ IH]; intros st Hal Hc Hup.
  - by rewrite app_nil_r.
  - destruct Hup as [Hroom Hup]. cbn [run foldl]. fold (run es (step e st)).
    assert (Hstep : conns (step e st) !! k = Some c /\
              waiting k (step e st) = waiting k st ++ published [e]).
    { destruct (decide (e = Deliver k)) as [->|Hne].
      - cbn [step]. unfold deliver. rewrite Hc, Hr. by rewrite app_nil_r.
      - destruct (waiting_step e st k c Hal Hc) as [Hw Hk].
        + destruct e; try done. congruence.
        + split; [|done]. apply Hk. destruct e; try done. congruence. }
    destruct Hstep as [Hc1 Hw1].
    destruct (IH _ (aligned_step e _ Hal) Hc1 Hup) as [Hc2 Hw2].
    split; [done|]. rewrite Hw2, Hw1, <- app_assoc. f_equal.
    symmetry. apply (published_app [e]).
Qed.

(** After its replay, what a request has written followed by what waits in
    its channel grows by what is published. *)
Lemma after_replay es st k c :
  aligned st -> conns st !! k = Some c -> replayed c = true ->
  keeps_up k es st ->
  exists c', conns (run es st) !! k = Some c' /\ replayed c' = true /\
    body c' ++ (frame <$> waiting k (run es st))
    = body c ++ (frame <$> waiting k st) ++ (frame <$> published es).
Proof.
  revert st c. induction es as [|e es IH]; intros st c Hal Hc Hr Hup.
  - exists c. by rewrite app_nil_r.
  - destruct Hup as [Hroom Hup]. cbn [run foldl]. fold (run es (step e st)).
    assert (Hstep : exists c1, conns (step e st) !! k = Some c1 /\
              replayed c1 = true /\
              body c1 ++ (frame <$> waiting k (step e st))
              = body c ++ (frame <$> waiting k st) ++ (frame <$> published [e])).
    { destruct (decide (e = Deliver k)) as [->|Hne];
        [|destruct (decide (e = Replay k)) as [->|Hne']].
      - cbn [step published omap]. unfold deliver. rewrite Hc, Hr.
        destruct (Receive (ch c) (hub st)) as [[msg h]|] eqn:Hrecv.
        + apply Receive_inv in Hrecv as (ch0 & ch1 & H0 & Hb & ->).
          cbn. rewrite list_lookup_insert_eq by (by eapply lookup_lt_Some).
          eexists. split; [done|]. split; [done|]. cbn. rewrite app_nil_r.
          unfold waiting. cbn.
          rewrite list_lookup_insert_eq by (by eapply lookup_lt_Some).
          rewrite Hc. unfold pending. cbn.
          rewrite list_lookup_insert_eq by (by eapply lookup_lt_Some).
          rewrite H0. apply recv_wf in Hb as [-> _]. cbn.
          by rewrite <- app_assoc.
        + exists c. by rewrite app_nil_r.
      - cbn [step published omap]. unfold replay. rewrite Hc, Hr.
        exists c. by rewrite app_nil_r.
      - destruct (waiting_step e st k c Hal Hc) as [Hw Hk].
        { destruct e; try done. congruence. }
        exists c. split; [|split; [done|]].
        + apply Hk. destruct e; try done. congruence.
        + by rewrite Hw, fmap_app. }
    destruct Hstep as (c1 & Hc1 & Hr1 & Hb1).
    destruct (IH _ c1 (aligned_step e _ Hal) Hc1 Hr1 Hup) as (c2 & Hc2 & Hr2 & Hb2).
    exists c2. split; [done|]. split; [done|].
    rewrite Hb2, !app_assoc, Hb1.
    change (e :: es) with ([e] ++ es). rewrite published_app, fmap_app.
    by rewrite !app_assoc.
Qed.

(** The stream of a request.  A request that connects when the session
    history is [H], has its replay after the lines [es2] were published and
    then delivers while [es3] are published, has written, or still holds in
    its channel, the history [H], the lines of [es2] twice (once from the
    replay, once from the channel) and the lines of [es3] once, in this
    order, provided its channel had room at every publish.  No line is
    lost; the lines published between [Subscribe] and [GetSessionLogs] are
    sent twice. *)
Theorem logsHandler_stream (es0 es2 es3 : list event) :
  let st := run es0 Stream.init in
  let k := length (conns st) in
  let st' := run (Connect :: es2 ++ Replay k :: es3) st in
  Forall (fun e => e <> Replay k) es2 ->
  keeps_up k (Connect :: es2 ++ Replay k :: es3) st ->
  sent k st' ++ (frame <$> waiting k st')
  = (frame <$> sessionLogs (hub st) ++ published es2)
    ++ (frame <$> published es2 ++ published es3).
Proof.
  intros st k st' Hes2 Hup.
  assert (Hal : aligned st) by apply aligned_run, aligned_init.
  destruct Hup as [_ Hup]. apply keeps_up_app in Hup as [Hup2 [_ Hup3]].
  set (st1 := step Connect st) in *.
  assert (Hal1 : aligned st1) by by apply aligned_step.
  assert (Hc1 : conns st1 !! k = Some (Conn k false [])).
  { unfold st1. cbn. unfold connect. cbn. unfold k.
    rewrite lookup_app_r by done. rewrite Nat.sub_diag. cbn.
    destruct Hal as (Hlen & _). by rewrite Hlen. }
  assert (Hw1 : waiting k st1 = []).
  { unfold waiting. rewrite Hc1. unfold pending, st1. cbn.
    destruct Hal as (Hlen & _). fold k in Hlen. rewrite Hlen.
    rewrite lookup_app_r by done. by rewrite Nat.sub_diag. }
  destruct (before_replay es2 st1 k _ Hal1 Hc1 eq_refl Hes2 Hup2) as [Hc2 Hw2].
  set (st2 := run es2 st1) in *.
  assert (Hal2 : aligned st2) by by apply aligned_run.
  assert (Hl2 : sessionLogs (hub st2) = sessionLogs (hub st) ++ published es2).
  { unfold st2. rewrite logs_run. f_equal. }
  set (st3 := step (Replay k) st2) in *.
  assert (Hc3 : conns st3 !! k
            = Some (Conn k true (frame <$> sessionLogs (hub st2)))).
  { unfold st3. cbn. unfold replay. rewrite Hc2. cbn.
    by rewrite list_lookup_insert_eq by (by eapply lookup_lt_Some). }
  assert (Hw3 : waiting k st3 = waiting k st2).
  { unfold waiting. rewrite Hc3, Hc2. unfold st3. cbn. unfold replay.
    by rewrite Hc2. }
  destruct (after_replay es3 st3 k _ (aligned_step _ _ Hal2) Hc3 eq_refl Hup3)
    as (c' & Hc' & _ & Hb).
  assert (Hst' : st' = run es3 st3).
  { unfold st', st3, st2, st1. cbn [run foldl].
    fold (run (es2 ++ Replay k :: es3) (step Connect st)).
    by rewrite run_events_app. }
  unfold sent. rewrite Hst', Hc', Hb. cbn [body].
  rewrite Hw3, Hw2, Hw1, Hl2. cbn [app]. by rewrite !fmap_app, !app_assoc.
Qed.

Lemma logsHandler_stream_witness :
  let st' := run [Publish "a"; Connect; Publish "b"; Replay 0; Publish "c";
                  Deliver 0; Deliver 0] Stream.init in
  sent 0 st' = [frame "a"; frame "b"; frame "b"; frame "c"] /\ waiting 0 st' = [].
Proof.
  intros st'.
  pose proof (logsHandler_stream [Publish "a"] [Publish "b"]
                [Publish "c"; Deliver 0; Deliver 0]) as H.
  cbv zeta in H. specialize (H ltac:(by repeat constructor)).
  specialize (H ltac:(vm_compute; repeat split; lia)).
  split; [|by vm_compute].
  vm_compute in H. vm_compute. exact H.
Defined.

End stream.

(** * Programs over calls *)

Section prog.
Import Prog.
Context {call : Type -> Type}.

Lemma traces_ret {R : Type} (x : R) (t : list (made call)) (r : R) :
  traces (mret x : prog call R) t r <-> t = [] /\ r = x.
Proof. done. Qed.

Lemma traces_bind {R S : Type} (p : prog call R) (f : R -> prog call S)
    (t : list (made call)) (s : S) :
  traces (p ≫= f) t s
  <-> exists t1 r t2, t = t1 ++ t2 /\ traces p t1 r /\ traces (f r) t2 s.
Proof.
  revert t. induction p as [x|A c k IH]; intros t.
  - split.
    + intros H. by exists [], x, t.
    + by intros (t1 & r & t2 & -> & [-> ->] & H).
  - split.
    + intros (a & t' & -> & H). apply IH in H as (t1 & r & t2 & -> & H1 & H2).
      exists (Made c a :: t1), r, t2. split; [done|]. split; [|done]. by exists a, t1.
    + intros (t1 & r & t2 & -> & (a & t1' & -> & H1) & H2).
      exists a, (t1' ++ t2). split; [done|]. apply IH. by exists t1', r, t2.
Qed.

Lemma traces_do {A S : Type} (c : call A) (f : A -> prog call S)
    (t : list (made call)) (s : S) :
  traces (do c ≫= f) t s <-> exists a t', t = Made c a :: t' /\ traces (f a) t' s.
Proof. done. Qed.

Lemma run_traces {R : Type} (o : os call) (p : prog call R) :
  traces p (run o p).1 (run o p).2.
Proof.
  induction p as [x|A c k IH]; [done|]. cbn.
  specialize (IH (o A c)). destruct (run o (k (o A c))). by eexists _, _.
Qed.

Lemma all_calls_traces {R : Type} (P : made call -> Prop) (p : prog call R)
    (t : list (made call)) (r : R) :
  all_calls P p -> traces p t r -> Forall P t.
Proof.
  revert t. induction p as [x|A c k IH]; intros t Hp.
  - intros [-> _]. constructor.
  - intros (a & t' & -> & H). destruct (Hp a). constructor; [done|]. by apply (IH a).
Qed.

Lemma all_calls_bind {R S : Type} (P : made call -> Prop)
    (p : prog call R) (f : R -> prog call S) :
  all_calls P p -> (forall r, all_calls P (f r)) -> all_calls P (p ≫= f).
Proof.
  intros Hp Hf. induction p as [r|A c k IH]; cbn; [apply Hf|].
  intros a. destruct (Hp a). split; [done|]. by apply IH.
Qed.

Lemma all_calls_do {A S : Type} (P : made call -> Prop) (c : call A) (f : A -> prog call S) :
  (forall a, P (Made c a)) -> (forall a, all_calls P (f a)) -> all_calls P (do c ≫= f).
Proof. intros Hc Hf a. split; [apply Hc | apply Hf]. Qed.

End prog.

Ltac bind_ret H :=
  repeat match type of H with
  | context [Prog.prog_bind _ _ ?f (Prog.Ret ?a)] =>
      change (Prog.prog_bind _ _ f (Prog.Ret a)) with (f a) in H; cbv beta in H
  end.

(** One statement of a run. *)
Ltac tstep H :=
  lazymatch type of H with
  | Prog.traces (match ?x with _ => _ end) _ _ => destruct x eqn:?
  | Prog.traces (Prog.do _ ≫= _) _ _ =>
      let a := fresh "a" in let t := fresh "t" in
      apply traces_do in H as (a & t & -> & H); bind_ret H
  | Prog.traces (mret _) _ _ => destruct H as [-> H]
  end.

(** * The file endpoints *)

Section files.
Import Stdlib.Strings.Ascii.
Import Prog Files.

(** The functions of the library on the examples of its documentation
    and of its tests. *)
Lemma Clean_examples :
  Forall (fun t => Clean t.1 = t.2)
    [("", "."); ("abc", "abc"); ("abc/def", "abc/def"); ("a/b/c", "a/b/c"); (".", ".");
     ("..", ".."); ("../..", "../.."); ("../../abc", "../../abc"); ("/abc", "/abc");
     ("/", "/"); ("abc/", "abc"); ("abc/def/", "abc/def"); ("a/b/c/", "a/b/c");
     ("./", "."); ("../", ".."); ("../../", "../.."); ("/abc/", "/abc");
     ("abc//def//ghi", "abc/def/ghi"); ("//abc", "/abc"); ("///abc", "/abc");
     ("//abc//", "/abc"); ("abc//", "abc"); ("abc/./def", "abc/def");
     ("/./abc/def", "/abc/def"); ("abc/.", "abc"); ("abc/def/ghi/../jkl", "abc/def/jkl");
     ("abc/def/../ghi/../jkl", "abc/jkl"); ("abc/def/..", "abc"); ("abc/def/../..", ".");
     ("/abc/def/../..", "/"); ("abc/def/../../..", ".."); ("/abc/def/../../..", "/");
     ("abc/def/../../../ghi/jkl/../../../mno", "../../mno"); ("/../abc", "/abc");
     ("abc/./../def", "def"); ("abc//./../def", "def"); ("abc/../../././../def", "../../def")].
Proof. repeat apply Forall_cons_2; try apply Forall_nil_2; reflexivity. Qed.

Lemma Join_examples :
  Forall (fun t => Join t.1 = t.2)
    [([], ""); ([""], ""); (["/"], "/"); (["a"], "a"); (["a"; "b"], "a/b"); (["a"; ""], "a");
     ([""; "b"], "b"); (["/"; "a"], "/a"); (["/"; "a/b"], "/a/b"); (["/"; ""], "/");
     (["/a"; "b"], "/a/b"); (["a"; "/b"], "a/b"); (["a/"; "b"], "a/b"); (["a/"; ""], "a");
     ([""; ""], "")].
Proof. repeat apply Forall_cons_2; try apply Forall_nil_2; reflexivity. Qed.

Lemma Dir_examples :
  Forall (fun t => Dir t.1 = t.2)
    [("", "."); (".", "."); ("/.", "/"); ("/", "/"); ("/foo", "/"); ("x/", "x");
     ("abc", "."); ("abc/def", "abc"); ("a/b/.x", "a/b"); ("a/b/c.", "a/b");
     ("a/b/c.x", "a/b")].
Proof. repeat apply Forall_cons_2; try apply Forall_nil_2; reflexivity. Qed.

Lemma Ext_examples :
  Forall (fun t => Ext t.1 = t.2)
    [("path.go", ".go"); ("path.pb.go", ".go"); ("a.dir/b", ""); ("a.dir/b.go", ".go");
     ("a.dir/", ""); ("", ""); (".bashrc", ".bashrc"); ("a.", ".")].
Proof. repeat apply Forall_cons_2; try apply Forall_nil_2; reflexivity. Qed.

Lemma TrimSpace_examples :
  TrimSpace (bytes [32; 9; 97; 32; 98; 194; 160; 226; 128; 168; 10]) = "a b"
  /\ TrimSpace " " = "" /\ TrimSpace "a" = "a" /\ TrimSpace "" = ""
  /\ TrimSpace (bytes [226; 128; 128; 128]) = bytes [128]
  /\ TrimPrefix "//a" "/" = "/a" /\ Contains "a..b" ".." = true
  /\ Contains "a.b" ".." = false /\ Contains "" "" = true
  /\ HasSuffix "x.tar.gz" ".tar.gz" = true /\ HasSuffix "gz" ".tar.gz" = false.
Proof. repeat split. Qed.

Lemma append_nil (b : string) : "" +:+ b = b.
Proof. done. Qed.

Lemma append_cons (x : ascii) (a b : string) : String x a +:+ b = String x (a +:+ b).
Proof. done. Qed.

Lemma append_assoc (a b c : string) : (a +:+ b) +:+ c = a +:+ b +:+ c.
Proof. induction a as [|x a IH]; [done|]. by rewrite !append_cons, IH. Qed.

Lemma strip_prefix_append (p r : string) : strip_prefix p (p +:+ r) = Some r.
Proof.
  induction p as [|a p IH]; [by destruct r|].
  rewrite append_cons. cbn. by rewrite decide_True.
Qed.

Lemma strip_prefix_Some (p s r : string) : strip_prefix p s = Some r -> s = p +:+ r.
Proof.
  revert s; induction p as [|a p IH]; intros s H.
  - destruct s; cbn in H; by simplify_eq.
  - destruct s as [|b s]; cbn in H; [done|].
    case_decide; [|done]. subst. rewrite append_cons. f_equal. by apply IH.
Qed.

Lemma HasPrefix_true (s p : string) : HasPrefix s p = true <-> exists r, s = p +:+ r.
Proof.
  unfold HasPrefix. rewrite bool_decide_eq_true. split.
  - intros [r H]. exists r. by apply strip_prefix_Some.
  - intros [r ->]. rewrite strip_prefix_append. by eexists.
Qed.

Lemma HasPrefix_append (a b p : string) :
  HasPrefix a p = true -> HasPrefix (a +:+ b) p = true.
Proof.
  rewrite !HasPrefix_true. intros [r ->]. exists (r +:+ b). apply append_assoc.
Qed.

Lemma Contains_append_l (a b sub : string) :
  Contains a sub = true -> Contains (a +:+ b) sub = true.
Proof.
  induction a as [|x a IH]; cbn [Contains].
  - rewrite orb_false_r. intros H. apply (HasPrefix_append _ b) in H.
    destruct ("" +:+ b) eqn:E; cbn [Contains]; rewrite H; done.
  - intros [H|H]%orb_true_iff.
    + apply (HasPrefix_append _ b) in H. rewrite append_cons in H |- *.
      cbn [Contains]. by rewrite H.
    + rewrite append_cons. cbn [Contains]. rewrite (IH H). apply orb_true_r.
Qed.

Lemma Contains_append_r (a b sub : string) :
  Contains b sub = true -> Contains (a +:+ b) sub = true.
Proof.
  intros H. induction a as [|x a IH]; [done|].
  rewrite append_cons. cbn [Contains]. rewrite IH. apply orb_true_r.
Qed.

Lemma Contains_join (es : list string) (e sub : string) :
  e ∈ es -> Contains e sub = true -> Contains (join es) sub = true.
Proof.
  intros He Hs. induction es as [|e1 es IH]; [by apply elem_of_nil in He|].
  apply elem_of_cons in He as [<-|He].
  - destruct es; [done|]. by apply Contains_append_l.
  - destruct es as [|e2 es]; [by apply elem_of_nil in He|].
    change (join (e1 :: e2 :: es)) with (e1 +:+ "/" +:+ join (e2 :: es)).
    apply Contains_append_r, Contains_append_r. by apply IH.
Qed.

Lemma Contains_slash (c : ascii) (e : string) :
  Contains (String c e) "/" = false <-> c <> "/"%char /\ Contains e "/" = false.
Proof.
  cbn [Contains]. rewrite orb_false_iff. unfold HasPrefix at 1. cbn [strip_prefix].
  rewrite bool_decide_eq_false. split.
  - intros [H1 H2]. split; [|done]. intros ->. apply H1. rewrite decide_True; [|done].
    destruct e; by eexists.
  - intros [H1 H2]. split; [|done]. rewrite decide_False; [|done]. by intros [? ?].
Qed.

Lemma split_nonempty (s : string) : split s <> [].
Proof. destruct s as [|c s]; cbn; [done|]. case_decide; [done|]. by destruct (split s). Qed.

Lemma split_append (a b : string) : split (a +:+ String "/" b) = split a ++ split b.
Proof.
  induction a as [|c a IH]; [done|].
  rewrite append_cons. cbn [split]. rewrite IH.
  case_decide; [done|].
  pose proof (split_nonempty a). by destruct (split a).
Qed.

Lemma split_element (e : string) : Contains e "/" = false -> split e = [e].
Proof.
  induction e as [|c e IH]; [done|].
  intros [H1 H2]%Contains_slash. cbn. rewrite decide_False; [|done]. by rewrite IH.
Qed.

Lemma split_join (es : list string) :
  es <> [] -> Forall (fun e => Contains e "/" = false) es -> split (join es) = es.
Proof.
  intros Hne H. induction H as [|e es He Hes IH]; [done|].
  destruct es as [|e2 es]; [by apply split_element|].
  change (join (e :: e2 :: es)) with (e +:+ String "/" (join (e2 :: es))).
  rewrite split_append, split_element, IH; done.
Qed.

Lemma split_elements (s : string) : Forall (fun e => Contains e "/" = false) (split s).
Proof.
  induction s as [|c s IH]; cbn; [by repeat constructor|].
  case_decide; [by constructor|].
  destruct (split s) as [|e es]; [by repeat constructor; apply Contains_slash|].
  apply Forall_cons in IH as [? ?]. constructor; [by apply Contains_slash | done].
Qed.

Lemma join_snoc (l : list string) (e : string) :
  l <> [] -> join (l ++ [e]) = join l +:+ String "/" e.
Proof.
  intros Hne. induction l as [|a l IH]; [done|].
  destruct l as [|b l]; [done|].
  change (join ((a :: b :: l) ++ [e])) with (a +:+ "/" +:+ join ((b :: l) ++ [e])).
  rewrite IH; [|done]. change (join (a :: b :: l)) with (a +:+ "/" +:+ join (b :: l)).
  by rewrite !append_assoc.
Qed.

Lemma element_split (e : string) : element e -> Contains e "/" = false.
Proof. by intros (_ & _ & _ & H). Qed.

Lemma clean_elems_skip (rooted : bool) (out rest : list string) (e : string) :
  e = "" \/ e = "." -> clean_elems rooted out (e :: rest) = clean_elems rooted out rest.
Proof. intros H. cbn [clean_elems]. by rewrite decide_True. Qed.

Lemma clean_elems_push (rooted : bool) (out rest : list string) (e : string) :
  element e -> clean_elems rooted out (e :: rest) = clean_elems rooted (e :: out) rest.
Proof.
  intros (H1 & H2 & H3 & _). cbn [clean_elems].
  rewrite decide_False; [|tauto]. by rewrite decide_False.
Qed.

Lemma clean_elems_elements (rooted : bool) (out es rest : list string) :
  Forall element es ->
  clean_elems rooted out (es ++ rest) = clean_elems rooted (reverse es ++ out) rest.
Proof.
  intros H. revert out. induction H as [|e es He Hes IH]; intros out; [done|].
  cbn [app]. rewrite clean_elems_push; [|done].
  rewrite IH, reverse_cons, <- app_assoc. done.
Qed.

Lemma clean_elems_dots (out ds rest : list string) :
  Forall (fun e => e = "..") out -> Forall (fun e => e = "..") ds ->
  clean_elems false out (ds ++ rest) = clean_elems false (reverse ds ++ out) rest.
Proof.
  intros Ho H. revert out Ho. induction H as [|e ds -> Hds IH]; intros out Ho; [done|].
  cbn [app clean_elems].
  rewrite decide_False; [|by intros [|]]. rewrite decide_True; [|done].
  rewrite reverse_cons, <- app_assoc. cbn [app].
  destruct Ho as [|o out -> Ho].
  - by apply IH; repeat constructor.
  - rewrite decide_True; [|done]. by apply IH; repeat constructor.
Qed.

Lemma clean_elems_form (rooted : bool) (elems out ds es : list string) :
  out = reverse es ++ reverse ds ->
  Forall (fun e => e = "..") ds -> Forall element es -> (rooted = true -> ds = []) ->
  Forall (fun e => Contains e "/" = false) elems ->
  exists ds' es',
    clean_elems rooted out elems = ds' ++ es'
    /\ Forall (fun e => e = "..") ds' /\ Forall element es' /\ (rooted = true -> ds' = []).
Proof.
  intros Ho Hds Hes Hr He. revert out ds es Ho Hds Hes Hr.
  induction He as [|e elems He Helems IH]; intros out ds es -> Hds Hes Hr.
  { exists ds, es. cbn [clean_elems].
    by rewrite reverse_app, !reverse_involutive. }
  destruct (decide (e = "" \/ e = ".")) as [H1|H1].
  { rewrite clean_elems_skip; [|done]. by apply (IH _ ds es). }
  destruct (decide (e = "..")) as [->|H2].
  - cbn [clean_elems]. rewrite decide_False; [|done]. rewrite decide_True; [|done].
    destruct es as [|o es _] using rev_ind.
    + rewrite reverse_nil. cbn [app].
      destruct (reverse ds) as [|o out] eqn:E.
      * destruct rooted.
        -- apply (IH _ ds []); [by rewrite E, reverse_nil|done..].
        -- apply (IH _ [".."] []); [reflexivity | by repeat constructor | constructor | done].
      * assert (o = "..") as ->.
        { assert (o ∈ reverse ds) as Ho by (rewrite E; left).
          rewrite elem_of_reverse in Ho. rewrite Forall_forall in Hds. by apply Hds. }
        rewrite decide_True; [|done].
        assert (rooted = false) as ->.
        { destruct rooted; [|done]. rewrite Hr in E; done. }
        apply (IH _ (ds ++ [".."]) []); [|  |done|done].
        -- by rewrite reverse_nil, reverse_app, reverse_singleton, E.
        -- apply Forall_app; split; [done | by repeat constructor].
    + rewrite reverse_app, reverse_singleton. cbn [app].
      apply Forall_app in Hes as [Hes Ho]. rewrite Forall_singleton in Ho.
      rewrite decide_False; [|by destruct Ho as (_ & _ & ? & _)].
      by apply (IH _ ds es).
  - rewrite clean_elems_push; [|unfold element; tauto].
    apply (IH _ ds (es ++ [e])); [|done| |done].
    + by rewrite reverse_app, reverse_singleton.
    + apply Forall_app; split; [done|]. apply Forall_singleton. unfold element; tauto.
Qed.

(** What [Clean] returns: a rooted path, the directory [.], or names after
    some [..]. *)
Lemma Clean_form (p : string) :
  (exists es, Clean p = "/" +:+ join es /\ Forall element es)
  \/ Clean p = "."
  \/ exists ds es, ds ++ es <> [] /\ Clean p = join (ds ++ es)
       /\ Forall (fun e => e = "..") ds /\ Forall element es.
Proof.
  unfold Clean. case_decide; [by right; left|].
  destruct (clean_elems_form (HasPrefix p "/") (split p) [] [] [])
    as (ds & es & E & Hds & Hes & Hr); [done|done|done|done|apply split_elements|].
  rewrite E.
  destruct (HasPrefix p "/").
  - left. rewrite Hr; [|done]. by exists es.
  - right. case_decide; [by left|]. right. by exists ds, es.
Qed.

Lemma join_head (e : string) (es : list string) : exists r, join (e :: es) = e +:+ r.
Proof.
  destruct es as [|e2 es].
  - exists "". cbn. induction e as [|c e IH]; [done|]. rewrite append_cons. by f_equal.
  - by eexists.
Qed.

Lemma join_first (l : list string) :
  l <> [] -> Forall (fun e => e = ".." \/ element e) l ->
  exists c r, join l = String c r /\ c <> "/"%char.
Proof.
  intros Hne H. destruct H as [|e es He Hes]; [done|].
  destruct (join_head e es) as [r ->].
  destruct He as [->|(H1 & _ & _ & H4)].
  - by eexists _, _.
  - destruct e as [|c e]; [done|]. apply Contains_slash in H4 as [? _].
    rewrite append_cons. by eexists _, _.
Qed.

Lemma HasPrefix_first (c : ascii) (r : string) :
  c <> "/"%char -> HasPrefix (String c r) "/" = false.
Proof.
  intros H. unfold HasPrefix. cbn [strip_prefix]. rewrite decide_False; [|done].
  apply bool_decide_eq_false. by intros [? ?].
Qed.

Lemma Clean_normal (ds es : list string) :
  ds ++ es <> [] -> Forall (fun e => e = "..") ds -> Forall element es ->
  Clean (join (ds ++ es)) = join (ds ++ es).
Proof.
  intros Hne Hds Hes.
  destruct (join_first (ds ++ es)) as (c & r & E & Hc); [done| |].
  { apply Forall_app; split; eapply Forall_impl; eauto; cbn; tauto. }
  unfold Clean. rewrite decide_False; [|by rewrite E].
  rewrite E, HasPrefix_first, <- E; [|done].
  rewrite split_join; [|done|].
  2: { apply Forall_app; split; eapply Forall_impl; eauto; cbn.
       - by intros ? ->.
       - apply element_split. }
  rewrite clean_elems_dots; [|done..].
  pose proof (clean_elems_elements false (reverse ds ++ []) es [] Hes) as X.
  rewrite !app_nil_r in X. rewrite app_nil_r, X.
  cbn [clean_elems]. rewrite reverse_app, !reverse_involutive.
  by rewrite decide_False.
Qed.

Lemma clean_elems_names (rooted : bool) (out l : list string) :
  Forall (fun e => (e = "" \/ e = ".") \/ element e) l ->
  clean_elems rooted out l = reverse out ++ filter (fun e => ~ (e = "" \/ e = ".")) l.
Proof.
  intros H. revert out. induction H as [|e l He Hl IH]; intros out.
  { by rewrite filter_nil, app_nil_r. }
  destruct He as [He|He].
  - rewrite clean_elems_skip, IH; [|done]. by rewrite filter_cons_False; [|tauto].
  - rewrite clean_elems_push, IH, reverse_cons, <- app_assoc; [|done].
    rewrite filter_cons_True; [done|]. destruct He as (? & ? & _). tauto.
Qed.

Lemma filter_elements (es : list string) :
  Forall element es -> filter (fun e => ~ (e = "" \/ e = ".")) es = es.
Proof.
  induction 1 as [|e es (? & ? & _) _ IH]; [done|].
  rewrite filter_cons_True; [|tauto]. by rewrite IH.
Qed.

Lemma filter_skipped (es : list string) :
  Forall (fun e => e = "" \/ e = ".") es -> filter (fun e => ~ (e = "" \/ e = ".")) es = [].
Proof.
  induction 1 as [|e es ? _ IH]; [done|]. by rewrite filter_cons_False; [|tauto].
Qed.

Lemma element_minecraft : element "minecraft".
Proof. by repeat split. Qed.

(** A path that is not rooted and whose elements are names, with empty
    elements and [.] anywhere between them, is cleaned to the names. *)
Lemma Clean_names (p : string) (c : ascii) (r : string) (l : list string) :
  p = String c r -> c <> "/"%char -> split p = l ->
  Forall (fun e => (e = "" \/ e = ".") \/ element e) l ->
  filter (fun e => ~ (e = "" \/ e = ".")) l <> [] ->
  Clean p = join (filter (fun e => ~ (e = "" \/ e = ".")) l).
Proof.
  intros -> Hc Hs Hl Hne. unfold Clean. rewrite decide_False; [|done].
  rewrite HasPrefix_first; [|done]. rewrite Hs, clean_elems_names; [|done].
  cbn [reverse app]. rewrite reverse_nil. cbn [app]. by rewrite decide_False.
Qed.

(** [filepath.Join] of the Minecraft directory and a path of names. *)
Lemma Join_root (c : string) (pre es : list string) :
  split c = pre ++ es -> Forall (fun e => e = "" \/ e = ".") pre -> Forall element es ->
  Join [MinecraftDir; c] = join ("minecraft" :: es).
Proof.
  intros Hs Hpre Hes.
  change (Join [MinecraftDir; c]) with (Clean ("./minecraft" +:+ String "/" c)).
  erewrite Clean_names; [| reflexivity | done | apply split_append | |].
  - change (split "./minecraft") with ["."; "minecraft"]. rewrite Hs.
    cbn [app]. rewrite filter_cons_False; [|tauto].
    rewrite filter_cons_True; [|by intros [|]].
    by rewrite filter_app, filter_skipped, filter_elements.
  - change (split "./minecraft") with ["."; "minecraft"]. rewrite Hs.
    repeat apply Forall_cons_2; [tauto | right; apply element_minecraft |].
    apply Forall_app; split; eapply Forall_impl; eauto; cbn; tauto.
  - change (split "./minecraft") with ["."; "minecraft"]. cbn [app].
    rewrite filter_cons_False; [|tauto]. by rewrite filter_cons_True; [|by intros [|]].
Qed.

Lemma join_cons_cons (a b : string) (l : list string) :
  join (a :: b :: l) = a +:+ String "/" (join (b :: l)).
Proof. done. Qed.

Lemma sanitizePath_inl (path fullPath : string) :
  sanitizePath path = inl fullPath ->
  (fullPath = MinecraftDir /\ (TrimSpace path = "" \/ TrimSpace path = "/"))
  \/ (TrimSpace path <> "" /\ TrimSpace path <> "/"
      /\ exists es, fullPath = join ("minecraft" :: es) /\ Forall element es
           /\ Forall (fun e => Contains e ".." = false) es).
Proof.
  unfold sanitizePath. case_decide as Ht; [intros [= <-]; by left|].
  destruct (Contains _ "..") eqn:Hc; [done|]. intros [= <-]. right.
  split; [tauto|]. split; [tauto|]. clear Ht.
  destruct (Clean_form (TrimPrefix (TrimSpace path) "/"))
    as [(es & E & Hes) | [E | (ds & es & Hne & E & Hds & Hes)]]; rewrite E in Hc |- *.
  - exists es. split; [|split; [done|]].
    + destruct es as [|e es].
      * by apply (Join_root _ [""; ""] []); repeat constructor.
      * apply (Join_root _ [""] (e :: es)); [|by repeat constructor|done].
        change ("/" +:+ join (e :: es)) with ("" +:+ String "/" (join (e :: es))).
        rewrite split_append, split_join; [done|done|].
        eapply Forall_impl; [done|]. apply element_split.
    + apply Forall_forall. intros e He. destruct (Contains e "..") eqn:X; [|done].
      rewrite Contains_append_r in Hc; [done|]. by eapply Contains_join.
  - exists []. split; [|by split; constructor].
    by apply (Join_root _ ["."] []); repeat constructor.
  - destruct Hds as [|d ds -> Hds].
    2: { rewrite (Contains_join _ "..") in Hc; [done|by left|done]. }
    cbn [app] in *. exists es. split; [|split; [done|]].
    + apply (Join_root _ [] es); [|done|done].
      rewrite split_join; [done|done|]. eapply Forall_impl; [done|]. apply element_split.
    + apply Forall_forall. intros e He. destruct (Contains e "..") eqn:X; [|done].
      rewrite (Contains_join _ e) in Hc; done.
Qed.

Lemma confined_first (p : string) :
  confined p -> p = MinecraftDir \/ exists r, p = String "m" r.
Proof.
  intros [->|(es & -> & _)]; [by left|]. right.
  destruct (join_head "minecraft" es) as [r ->]. by eexists.
Qed.

Lemma Clean_confined (p : string) :
  confined p -> exists es, Clean p = join ("minecraft" :: es) /\ Forall element es.
Proof.
  intros [->|(es & -> & Hes)]; [by exists []|].
  exists es. split; [|done].
  apply (Clean_normal [] ("minecraft" :: es)); [done|done|].
  constructor; [apply element_minecraft | done].
Qed.

Lemma upto_last_sep_element (e : string) : Contains e "/" = false -> upto_last_sep e = "".
Proof. intros H. destruct e as [|c e]; [done|]. cbn [upto_last_sep]. by rewrite H. Qed.

Lemma upto_last_sep_append (a b : string) :
  upto_last_sep (a +:+ String "/" b) = a +:+ String "/" (upto_last_sep b).
Proof.
  induction a as [|c a IH].
  - rewrite !append_nil. cbn [upto_last_sep Contains].
    by replace (HasPrefix (String "/" b) "/") with true
      by (symmetry; apply HasPrefix_true; by exists b).
  - rewrite !append_cons. cbn [upto_last_sep].
    assert (Contains (String c (a +:+ String "/" b)) "/" = true) as ->.
    { cbn [Contains]. rewrite (Contains_append_r a); [apply orb_true_r|].
      cbn [Contains].
      by replace (HasPrefix (String "/" b) "/") with true
        by (symmetry; apply HasPrefix_true; by exists b). }
    by rewrite IH.
Qed.

(** The directory of a confined path is confined, but for the Minecraft
    directory itself, whose directory is the working directory. *)
Lemma Dir_confined (p : string) :
  confined p ->
  ((p = MinecraftDir \/ p = "minecraft") /\ Dir p = ".") \/ confined (Dir p).
Proof.
  intros [->|(es & -> & Hes)]; [by left; split; [left|]|].
  destruct es as [|e es _] using rev_ind; [by left; split; [right|]|].
  right. right. exists es.
  apply Forall_app in Hes as [Hes He]. rewrite Forall_singleton in He.
  split; [|done]. unfold Dir.
  change ("minecraft" :: es ++ [e]) with (("minecraft" :: es) ++ [e]).
  rewrite join_snoc, upto_last_sep_append, upto_last_sep_element;
    [|by apply element_split|done].
  destruct (join_head "minecraft" es) as [r Hr].
  erewrite Clean_names;
    [| by rewrite Hr | done | apply split_append | |].
  - rewrite split_join; [|done|].
    2: { constructor; [done|]. eapply Forall_impl; [done|]. apply element_split. }
    rewrite filter_app, filter_elements; [by rewrite app_nil_r|].
    constructor; [apply element_minecraft | done].
  - rewrite split_join; [|done|].
    2: { constructor; [done|]. eapply Forall_impl; [done|]. apply element_split. }
    apply Forall_app; split; [|by repeat constructor; tauto].
    constructor; [right; apply element_minecraft|].
    eapply Forall_impl; [done|]. cbn; tauto.
  - rewrite split_join; [|done|].
    2: { constructor; [done|]. eapply Forall_impl; [done|]. apply element_split. }
    cbn [app]. by rewrite filter_cons_True; [|by intros [|]].
Qed.

(** The test of [extractTarGz] keeps a target in a confined destination. *)
Lemma target_confined (dest target : string) :
  confined dest ->
  negb (HasPrefix (Clean target) (Clean dest +:+ "/"))
    && negb (bool_decide (Clean target = Clean dest)) = false ->
  confined (Clean target).
Proof.
  intros (ds0 & Hd & Hds0)%Clean_confined Ht. right. rewrite Hd in Ht.
  apply andb_false_iff in Ht.
  assert (exists r, Clean target = join ("minecraft" :: ds0) +:+ r) as [r E].
  { destruct Ht as [Ht|Ht]; apply negb_false_iff in Ht.
    - apply HasPrefix_true in Ht as [r Ht]. rewrite append_assoc in Ht. by eexists.
    - apply bool_decide_eq_true in Ht. exists "". rewrite Ht.
      clear. induction (join _) as [|c s IH]; [done|]. rewrite append_cons. by f_equal. }
  assert (r = "" \/ exists r', r = String "/" r') as Hr.
  { destruct Ht as [Ht|Ht]; apply negb_false_iff in Ht.
    - apply HasPrefix_true in Ht as [r' Ht]. rewrite append_assoc, E in Ht.
      apply String.app_inj in Ht. right. by exists r'.
    - apply bool_decide_eq_true in Ht. rewrite E in Ht. left.
      revert Ht. clear. induction (join _) as [|c s IH]; [done|].
      rewrite append_cons. intros [= ?]. auto. }
  destruct (join_head "minecraft" ds0) as [r0 Hr0].
  destruct (Clean_form target)
    as [(es & E' & Hes) | [E' | (ds & es & Hne & E' & Hds & Hes)]];
    rewrite E' in E |- *; [by rewrite Hr0 in E | by rewrite Hr0 in E |].
  assert (Forall (fun e => Contains e "/" = false) (ds ++ es)) as Hsl.
  { apply Forall_app; split; eapply Forall_impl; eauto; cbn.
    - by intros ? ->.
    - apply element_split. }
  assert (Forall (fun e => Contains e "/" = false) ("minecraft" :: ds0)) as Hsl0.
  { constructor; [done|]. eapply Forall_impl; [done|]. apply element_split. }
  destruct Hr as [->|[r' ->]].
  - exists ds0. split; [|done]. rewrite E. clear.
    induction (join _) as [|c s IH]; [done|]. rewrite append_cons. by f_equal.
  - apply (f_equal split) in E.
    rewrite split_append, !split_join in E; [|done..].
    destruct Hds as [|d ds -> Hds]; [|done].
    cbn [app] in *. subst es. apply Forall_cons in Hes as [_ Hes]. by eexists.
Qed.

Lemma allowed_MkdirAll_Dir (p : string) (a : option string) :
  confined p -> allowed (Made (MkdirAll (Dir p)) a).
Proof.
  intros [[_ ->]|H]%Dir_confined; [by left; eexists|]. right. by apply Forall_singleton.
Qed.

Ltac names_ok :=
  cbn [names]; repeat first [apply Forall_nil_2 | apply Forall_cons_2; [assumption|]].

Ltac confine :=
  repeat match goal with
  | H : sanitizePath _ = inl ?p |- _ =>
      assert (confined p) by
        (apply sanitizePath_inl in H;
         destruct H as [[-> _]|(_ & _ & ? & -> & ? & _)]; [by left | right; by eexists]);
      clear H
  end.

Ltac calls :=
  repeat match goal with
  | |- all_calls _ (mret _) => exact I
  | |- all_calls _ (match ?x with _ => _ end) => destruct x eqn:?
  | |- all_calls _ (do _ ≫= _) => apply all_calls_do; [intros ?|intros ?]
  | |- all_calls _ (do _) => intros ?; split; [|exact I]
  | |- all_calls _ (_ ≫= _) => apply all_calls_bind; [|intros ?]
  | |- allowed (Made (MkdirAll (Dir _)) _) => confine; by apply allowed_MkdirAll_Dir
  | |- allowed _ => confine; right; by names_ok
  end.

Lemma listFiles_allowed (Rel : string -> string -> string + string) (path : string) :
  all_calls allowed (listFiles Rel path).
Proof. unfold listFiles. calls. Qed.

Lemma readFile_allowed (path : string) : all_calls allowed (readFile path).
Proof. unfold readFile. calls. Qed.

Lemma writeFile_allowed (request : string + string * string) :
  all_calls allowed (writeFile request).
Proof. unfold writeFile. calls. Qed.

Lemma deleteFile_allowed (path : string) : all_calls allowed (deleteFile path).
Proof. unfold deleteFile. calls. Qed.

Lemma createDirectory_allowed (request : string + string) :
  all_calls allowed (createDirectory request).
Proof. unfold createDirectory. calls. Qed.

Lemma moveFile_allowed (request : string + string * string) :
  all_calls allowed (moveFile request).
Proof. unfold moveFile. calls. Qed.

Lemma copyFile_allowed (request : string + string * string) :
  all_calls allowed (copyFile request).
Proof. unfold copyFile. calls. Qed.

Lemma uploadFile_allowed (file : option string) (path : string) :
  all_calls allowed (uploadFile file path).
Proof. unfold uploadFile. calls. Qed.

Lemma extract_allowed (dest : string) (headers : list header) (broken : option string)
    (extracted : list string) :
  confined dest -> all_calls allowed (extract dest headers broken extracted).
Proof.
  intros Hd. revert extracted.
  induction headers as [|h headers IH]; intros extracted; cbn [extract]; [calls|].
  destruct (negb _ && negb _) eqn:Ht; [exact I|].
  apply target_confined in Ht; [|done].
  calls; apply IH.
Qed.

Lemma extractTarGz_allowed (src dest : string) :
  confined src -> confined dest -> all_calls allowed (extractTarGz src dest).
Proof. intros Hs Hd. unfold extractTarGz. calls. by apply extract_allowed. Qed.

Lemma extractArchive_allowed (MapToLower : string -> string)
    (request : string + string * string) :
  all_calls allowed (extractArchive MapToLower request).
Proof.
  unfold extractArchive. calls.
  - confine. by apply extractTarGz_allowed.
  - confine. apply extractTarGz_allowed; [done|].
    match goal with H : confined ?p |- confined (Dir ?p) =>
      destruct (Dir_confined p H) as [[[->| ->] _]|]; [done|done|done] end.
Qed.

Lemma extract_inr (dest : string) (headers : list header) (broken : option string)
    (extracted files : list string) (t : list (made call)) :
  traces (extract dest headers broken extracted) t (inr files) ->
  broken = None
  /\ files = extracted
       ++ (Name <$> filter (fun h => Typeflag h = TypeDir \/ Typeflag h = TypeReg) headers)
  /\ omap unpacked t = [].
Proof.
  revert extracted t.
  induction headers as [|h headers IH]; intros extracted t; cbn [extract].
  { destruct broken; [by intros [_ [=]]|]. intros [-> [= <-]].
    split; [done|]. split; [|done]. symmetry. apply app_nil_r. }
  destruct (negb _ && negb _); [by intros [_ [=]]|].
  case_decide as Hd.
  - intros (a & t' & -> & H)%traces_do. destruct a; [by destruct H as [_ [=]]|].
    apply IH in H as (-> & -> & Ht). split; [done|]. split; [|done].
    rewrite filter_cons_True; [|by left]. by rewrite fmap_cons, <- app_assoc.
  - intros (a & t' & -> & H)%traces_do. destruct a; [by destruct H as [_ [=]]|].
    case_decide as Hr.
    + apply traces_do in H as (a & t1 & -> & H). destruct a; [by destruct H as [_ [=]]|].
      apply traces_do in H as (a & t2 & -> & H). destruct a; [by destruct H as [_ [=]]|].
      apply traces_do in H as (a & t3 & -> & H). bind_ret H.
      apply traces_bind in H as (t4 & [] & t5 & -> & H4 & H).
      apply IH in H as (-> & -> & Ht). split; [done|]. split.
      * rewrite filter_cons_True; [|by right]. by rewrite fmap_cons, <- app_assoc.
      * cbn. rewrite omap_app, Ht, app_nil_r.
        destruct a; [|by destruct H4 as [-> _]].
        by destruct H4 as (? & ? & -> & [-> _]).
    + apply IH in H as (-> & -> & Ht). split; [done|]. split; [|done].
      by rewrite filter_cons_False; [|by intros [|]].
Qed.

(** [sanitizePath] confines.  Whatever the path of a request, the path
    [sanitizePath] returns for it is the Minecraft directory, or
    [minecraft] followed by names of which none is empty, [.] or [..]:
    it does not leave the directory. *)
Theorem sanitizePath_confines (path fullPath : string) :
  sanitizePath path = inl fullPath -> confined fullPath.
Proof.
  intros [[-> _]|(_ & _ & es & -> & Hes & _)]%sanitizePath_inl; [by left|].
  right. by exists es.
Qed.

Lemma sanitizePath_confines_witness :
  sanitizePath " /plugins/./x/../a.jar" = inl "minecraft/plugins/a.jar"
  /\ confined "minecraft/plugins/a.jar".
Proof.
  split; [done|].
  by apply (sanitizePath_confines " /plugins/./x/../a.jar").
Defined.

(** The file endpoints stay in the Minecraft directory.  Whatever a
    request to a file endpoint holds and whatever the operating system
    answers, every name the handler hands to the operating system is a
    confined path; the one exception is the request to create the working
    directory [.], the parent of the Minecraft directory. *)
Theorem files_stay_in_the_directory (MapToLower : string -> string)
    (Rel : string -> string -> string + string) (r : request)
    (t : list (made call)) (answer : response) :
  traces (files MapToLower Rel r) t answer -> Forall allowed t.
Proof.
  apply all_calls_traces. destruct r; cbn [files].
  - apply listFiles_allowed.
  - apply readFile_allowed.
  - apply writeFile_allowed.
  - apply writeFile_allowed.
  - apply deleteFile_allowed.
  - apply createDirectory_allowed.
  - apply moveFile_allowed.
  - apply copyFile_allowed.
  - apply extractArchive_allowed.
  - apply uploadFile_allowed.
Qed.

Lemma files_stay_in_the_directory_witness :
  Forall allowed
    (run (succeeds "" (inl ""))
       (files id (fun _ _ => inl "") (POST_move (inr ("a/../b", "/c/./d"))))).1.
Proof.
  eapply (files_stay_in_the_directory id (fun _ _ => inl "")
            (POST_move (inr ("a/../b", "/c/./d")))).
  apply run_traces.
Defined.



(** What [extractTarGz] reports.  When [extractTarGz] returns without
    error, the tar stream was read to its end, and the names returned are
    those of its directories and regular files, in the order of the
    stream: an entry of another type is passed over without a word. *)
Theorem extractTarGz_reports (src dest : string) (files : list string)
    (t : list (made call)) :
  traces (extractTarGz src dest) t (inr files) ->
  exists headers,
    omap unpacked t = [inr (headers, None)]
    /\ files = Name <$> filter (fun h => Typeflag h = TypeDir \/ Typeflag h = TypeReg) headers.
Proof.
  unfold extractTarGz. intros (a & t' & -> & H)%traces_do.
  destruct a as [err|[err|[headers broken]]];
    [by destruct H as [_ [=]] | by destruct H as [_ [=]] |].
  apply extract_inr in H as (-> & -> & Ht). exists headers. cbn. by rewrite Ht.
Qed.

Lemma extractTarGz_reports_witness :
  let tar := [Header "a" TypeDir 493; Header "a/l" "2" 511; Header "a/f" TypeReg 420] in
  let run := run (succeeds "" (inr (tar, None))) (extractTarGz "minecraft/x.tgz" "minecraft") in
  run.2 = inr ["a"; "a/f"]
  /\ exists headers,
    omap unpacked run.1 = [inr (headers, None)]
    /\ ["a"; "a/f"]
       = Name <$> filter (fun h => Typeflag h = TypeDir \/ Typeflag h = TypeReg) headers.
Proof.
  intros tar r. split; [done|].
  apply (extractTarGz_reports "minecraft/x.tgz" "minecraft").
  apply (run_traces (succeeds "" (inr (tar, None)))).
Defined.

(** A refused request changes nothing.  A request to a file endpoint
    that is answered 400, 403 or 404 has made no call that changes the
    file system: at most it has asked for the status of a file. *)
Theorem refused_requests_change_nothing (MapToLower : string -> string)
    (Rel : string -> string -> string + string) (r : request)
    (t : list (made call)) (answer : response) :
  traces (files MapToLower Rel r) t answer ->
  status answer = StatusBadRequest \/ status answer = StatusForbidden
    \/ status answer = StatusNotFound ->
  Forall (fun m => changes m = false) t.
Proof.
  intros H Hs.
  destruct r; cbn [files] in H;
    unfold listFiles, readFile, writeFile, deleteFile, createDirectory, moveFile, copyFile,
      extractArchive, uploadFile in H.
  all: repeat tstep H.
  all: try (apply traces_bind in H as (t1 & res & t2 & -> & _ & H); repeat tstep H).
  all: subst answer; cbn in Hs; try by destruct Hs as [|[|]].
  all: by repeat constructor.
Qed.

Lemma refused_requests_change_nothing_witness :
  let run := run (succeeds "" (inl ""))
               (files id (fun _ _ => inl "") (POST_extract (inr ("a.zip", "")))) in
  status run.2 = StatusBadRequest /\ Forall (fun m => changes m = false) run.1.
Proof.
  intros r. split; [done|].
  apply (refused_requests_change_nothing id (fun _ _ => inl "")
           (POST_extract (inr ("a.zip", ""))) r.1 r.2).
  - apply run_traces.
  - by left.
Defined.

End files.

(** * The download of Paper *)

Section paper.
Import Prog Paper.

Lemma length_append (a b : string) :
  String.length (a +:+ b) = String.length a + String.length b.
Proof. induction a as [|c a IH]; [done|]. rewrite append_cons. cbn. by rewrite IH. Qed.

Lemma concat_app (l1 l2 : list string) : concat (l1 ++ l2) = concat l1 +:+ concat l2.
Proof. induction l1 as [|s l1 IH]; [done|]. cbn. by rewrite IH, append_assoc. Qed.

Lemma length_zero (p : string) : ~ 0 < String.length p -> p = "".
Proof. destruct p; [done|]. cbn. lia. Qed.

Lemma append_nil_r (a : string) : a +:+ "" = a.
Proof. induction a as [|c a IH]; [done|]. by rewrite append_cons, IH. Qed.

(** What a turn of the loop does: it stops on an error of [Write], or goes
    on having written what was read. *)
Lemma read_traces (start : Z) (p : string) (totalBytes : Z)
    (k : Z -> prog call (string + Z)) (t : list (made call)) (res : string + Z) :
  traces (read start p totalBytes k) t res ->
  exists t1 t2, t = t1 ++ t2
    /\ omap created t1 = [] /\ omap encoded t1 = [] /\ omap installed t1 = []
    /\ omap listed t1 = [] /\ omap body_read t1 = []
    /\ concat (omap written t1) = p
    /\ ((exists err, res = inl err /\ t2 = [])
        \/ traces (k (totalBytes + Z.of_nat (String.length p))%Z) t2 res).
Proof.
  unfold read. case_decide as Hp.
  - intros H. tstep H. destruct a.
    + tstep H. subst. eexists [_], []. repeat split; [cbn; by rewrite append_nil_r|].
      left. by eexists.
    + tstep H. tstep H. eexists [_; _; _], _. repeat split; [|by right].
      cbn. by rewrite append_nil_r.
  - intros H. exists [], t. apply length_zero in Hp as ->. repeat split.
    right. by rewrite Z.add_0_r.
Qed.

Lemma copy_traces (start : Z) (reads : list string) (last : string * option string)
    (totalBytes : Z) (t : list (made call)) (res : string + Z) :
  traces (copy start reads last totalBytes) t res ->
  omap created t = [] /\ omap encoded t = [] /\ omap installed t = []
  /\ omap listed t = [] /\ omap body_read t = []
  /\ forall n, res = inr n ->
       last.2 = None
       /\ concat (omap written t) = concat (reads ++ [last.1])
       /\ n = (totalBytes + Z.of_nat (String.length (concat (omap written t))))%Z.
Proof.
  revert totalBytes t. induction reads as [|p reads IH]; intros totalBytes t; cbn [copy].
  - intros (t1 & t2 & -> & H1 & H2 & H3 & H4 & H5 & H6 & [(err & -> & ->)|H])%read_traces.
    + rewrite app_nil_r. by split_and!.
    + destruct (last.2) eqn:E; destruct H as [-> ->]; rewrite app_nil_r;
        split_and!; try done.
      intros n [= <-]. rewrite H6. cbn. by rewrite append_nil_r.
  - intros (t1 & t2 & -> & H1 & H2 & H3 & H4 & H5 & H6 & [(err & -> & ->)|H])%read_traces.
    + rewrite app_nil_r. by split_and!.
    + apply IH in H as (G1 & G2 & G3 & G4 & G5 & G6).
      rewrite !omap_app, H1, H2, H3, H4, H5, G1, G2, G3, G4, G5.
      split_and!; try done. intros n (G & E & ->)%G6. split_and!; [done| |].
      * by rewrite concat_app, H6, E.
      * rewrite concat_app, H6, length_append. lia.
Qed.

Lemma download_traces (version : string) (latestBuild : Build)
    (t : list (made call)) (r : option string) :
  traces (download version latestBuild) t r ->
  omap installed t = [] /\ omap listed t = []
  /\ forall m, m ∈ omap encoded t ->
       exists reads last,
         omap body_read t = [(reads, (last, None))]
         /\ concat (omap written t) = concat (reads ++ [last])
         /\ manifest_size m = Z.of_nat (String.length (concat (omap written t)))
         /\ manifest_version m = version
         /\ manifest_build m = build latestBuild
         /\ omap created t = [mcDir +:+ "/" +:+ jarName; manifestPath]
         /\ omap encoded t = [m].
Proof.
  unfold download. intros H. repeat tstep H.
  all: try (split_and!; [done|done|]; by intros m ?%elem_of_nil).
  all: match goal with H : traces (copy _ ?b.1 _ _ ≫= _) _ _ |- _ =>
         destruct b as [reads [last ended]] end.
  all: apply traces_bind in H as (tc & copied & t' & -> & Hc & H).
  all: apply copy_traces in Hc as (C1 & C2 & C3 & C4 & C5 & C6).
  all: repeat tstep H.
  all: cbn; rewrite ?omap_app, ?C1, ?C2, ?C3, ?C4, ?C5; cbn.
  all: try (split_and!; [done|done|]; by intros m ?%elem_of_nil).
  all: destruct (C6 _ eq_refl) as (E1 & E2 & E3); cbn in E1, E2; subst ended.
  all: split_and!; [done|done|]; intros m ->%list_elem_of_singleton.
  all: exists reads, last; rewrite app_nil_r; split_and!; try done.
  all: cbn; rewrite E3; lia.
Qed.

Lemma install_traces (manual : bool) (version : string)
    (t : list (made call)) (r : option string) :
  traces (install manual version) t r ->
  (forall old, old ∈ omap installed t -> mcDir +:+ "/" +:+ jarName ∈ omap created t ->
     (manual = true /\ old.1 <> version)
     \/ exists builds b, (builds_url version, builds) ∈ omap listed t
          /\ last builds = Some b /\ old.1 = version /\ (old.2 < build b)%Z)
  /\ forall m, m ∈ omap encoded t ->
       exists reads last,
         omap body_read t = [(reads, (last, None))]
         /\ concat (omap written t) = concat (reads ++ [last])
         /\ manifest_size m = Z.of_nat (String.length (concat (omap written t)))
         /\ omap created t = [mcDir +:+ "/" +:+ jarName; manifestPath]
         /\ omap encoded t = [m].
Proof.
  unfold install. intros H. repeat tstep H.
  all: try (split; [by intros old ?%elem_of_nil | by intros m ?%elem_of_nil]).
  all: try (split; [by intros old _ ?%elem_of_nil | by intros m ?%elem_of_nil]).
  all: apply download_traces in H as (D1 & D2 & D3).
  all: cbn; rewrite ?D1, ?D2; split.
  all: try (intros m (reads & last & E1 & E2 & E3 & _ & _ & E4 & E5)%D3;
            by exists reads, last).
  all: try by intros old ?%elem_of_nil.
  all: intros old ->%list_elem_of_singleton _; cbn.
  - right. eexists _, _. split; [by left|]. split; [done|]. split; [done|]. lia.
  - by left.
Qed.

(** [GetPaper] and the installed version.  If a run of [GetPaper] has
    read the manifest of an installation and yet creates [server.jar]
    anew, then a version other than the installed one was asked for by
    name, or the list of the builds of the installed version ends with a
    build that is newer than the installed one. *)
Theorem GetPaper_replaces_only_by_newer (version : string) (t : list (made call))
    (r : option string) (old : string * Z) :
  traces (GetPaper version) t r ->
  old ∈ omap installed t ->
  mcDir +:+ "/" +:+ jarName ∈ omap created t ->
  (version <> "no_version" /\ old.1 <> version)
  \/ exists builds b, (builds_url old.1, builds) ∈ omap listed t
       /\ last builds = Some b /\ (old.2 < build b)%Z.
Proof.
  unfold GetPaper. intros H. repeat tstep H.
  all: try by intros ?%elem_of_nil.
  all: apply install_traces in H as [H _].
  all: cbn; intros Ho Hc; destruct (H old Ho Hc) as [[? ?]|(bs & b & ? & ? & <- & ?)];
    try done.
  all: try (right; by exists bs, b).
  left. split; [|done]. intros ->. done.
Qed.

Lemma GetPaper_replaces_only_by_newer_witness :
  let builds := [MkBuild 10 "default"; MkBuild 12 "experimental"] in
  let run := run (answers ["1.20"; "1.21"] builds "paper-1.21-12.jar" ["ab"; "c"]
                    (Some ("1.21", 10%Z)))
               (GetPaper "no_version") in
  run.2 = None
  /\ omap installed run.1 = [("1.21", 10%Z)]
  /\ omap created run.1 = [mcDir +:+ "/" +:+ jarName; manifestPath]
  /\ ("no_version" <> "no_version" /\ "1.21" <> "no_version"
      \/ exists builds b, (builds_url "1.21", builds) ∈ omap listed run.1
           /\ last builds = Some b /\ (10 < build b)%Z).
Proof.
  intros builds r.
  split; [by vm_compute|]. split; [by vm_compute|]. split; [by vm_compute|].
  apply (GetPaper_replaces_only_by_newer "no_version" r.1 r.2 ("1.21", 10%Z)).
  - apply run_traces.
  - vm_compute. left.
  - vm_compute. left.
Defined.

(** The manifest describes the download.  If a run of [GetPaper] hands
    a manifest to the encoder, then it has created [server.jar], read the
    body of the download to its end, written to the file all that was
    read, in order, and only then created [manifest.json]; the size in the
    manifest is the number of bytes written. *)
Theorem GetPaper_manifest_after_download (version : string) (t : list (made call))
    (r : option string) (m : manifest) :
  traces (GetPaper version) t r ->
  m ∈ omap encoded t ->
  exists reads last,
    omap body_read t = [(reads, (last, None))]
    /\ concat (omap written t) = concat (reads ++ [last])
    /\ manifest_size m = Z.of_nat (String.length (concat (omap written t)))
    /\ omap created t = [mcDir +:+ "/" +:+ jarName; manifestPath]
    /\ omap encoded t = [m].
Proof.
  unfold GetPaper. intros H. repeat tstep H.
  all: try by intros ?%elem_of_nil.
  all: apply install_traces in H as [_ H].
  all: cbn; intros Hm; by apply H.
Qed.

Lemma GetPaper_manifest_after_download_witness :
  let run := run (answers [] [MkBuild 7 "default"] "paper.jar" ["ab"; ""; "c"] None)
               (GetPaper "1.21") in
  let m := Manifest "paper.jar" "1.21" 7 3 (download_url "1.21" 7 "paper.jar") 0 in
  omap encoded run.1 = [m]
  /\ exists reads last,
    omap body_read run.1 = [(reads, (last, None))]
    /\ concat (omap written run.1) = concat (reads ++ [last])
    /\ manifest_size m = Z.of_nat (String.length (concat (omap written run.1)))
    /\ omap created run.1 = [mcDir +:+ "/" +:+ jarName; manifestPath]
    /\ omap encoded run.1 = [m].
Proof.
  intros r m. split; [by vm_compute|].
  apply (GetPaper_manifest_after_download "1.21" r.1 r.2 m).
  - apply run_traces.
  - vm_compute. left.
Defined.

End paper.

(** * The output of the child *)

Section console.
Import Stdlib.Strings.Ascii.
Import Files Console.

(** The scanner on a stream with a carriage return, an empty line and a
    last line without newline. *)
Lemma scan_examples :
  scan ("ab" +:+ nl +:+ "c" +:+ cr +:+ nl +:+ nl +:+ "d") "" = ["ab"; "c"; ""; "d"]
  /\ scan ("ab" +:+ nl) "" = ["ab"] /\ scan "" "" = [] /\ scan nl "" = [""].
Proof. repeat split. Qed.

Lemma Contains_nl (c : ascii) (e : string) :
  Contains (String c e) nl = false <-> c <> ascii_of_nat 10 /\ Contains e nl = false.
Proof.
  cbn [Contains]. rewrite orb_false_iff. unfold HasPrefix at 1, nl at 1. cbn [strip_prefix].
  rewrite bool_decide_eq_false. split.
  - intros [H1 H2]. split; [|done]. intros ->. apply H1. rewrite decide_True; [|done].
    destruct e; by eexists.
  - intros [H1 H2]. split; [|done]. rewrite decide_False; [|done]. by intros [? ?].
Qed.

Lemma MaxScanTokenSize_pos : 0 < MaxScanTokenSize.
Proof. unfold MaxScanTokenSize. lia. Qed.

(** Within a line, the scanner reads on. *)
Lemma scan_text (t data line : string) :
  Contains t nl = false -> scan (t +:+ data) line = scan data (line +:+ t).
Proof.
  revert line. induction t as [|c t IH]; intros line.
  - intros _. by rewrite append_nil, append_nil_r.
  - intros [Hc Ht]%Contains_nl. rewrite append_cons. cbn [scan].
    rewrite decide_False; [|done]. rewrite IH; [|done].
    by rewrite append_assoc.
Qed.

(** A line that has outgrown the buffer ends the scan. *)
Lemma scan_long (data line : string) :
  MaxScanTokenSize <= String.length line -> scan data line = [].
Proof.
  revert line. induction data as [|c data IH]; intros line Hl; cbn [scan].
  - case_decide; [done|]. by rewrite decide_True.
  - case_decide.
    + by rewrite decide_True.
    + apply IH. rewrite length_append. lia.
Qed.

Lemma scan_stream (ts : list string) (long rest : string) :
  Forall (fun t => Contains t nl = false /\ String.length t < MaxScanTokenSize) ts ->
  Contains long nl = false ->
  long +:+ rest = "" \/ MaxScanTokenSize <= String.length long ->
  scan (stream ts (long +:+ rest)) "" = dropCR <$> ts.
Proof.
  intros Hts Hlong Hl. induction Hts as [|t ts [Ht Hlt] _ IH]; cbn [stream foldr].
  - destruct Hl as [-> | Hl]; [done|].
    rewrite scan_text, append_nil; [|done]. by apply scan_long.
  - rewrite scan_text, append_nil; [|done].
    unfold nl at 1. rewrite append_cons, append_nil. cbn [scan].
    rewrite decide_True; [|done]. rewrite decide_False; [|lia].
    by rewrite fmap_cons, <- IH.
Qed.

Lemma Contains_filled (n : nat) : Contains (filled n) nl = false.
Proof. induction n as [|n IH]; [done|]. cbn [filled]. by apply Contains_nl. Qed.

Lemma length_filled (n : nat) : String.length (filled n) = n.
Proof. induction n as [|n IH]; [done|]. cbn. by rewrite IH. Qed.

(** The console in the log.  Of the output of the child, each line
    shorter than 64 KiB becomes one line of the log: the prefix, a space,
    the line without its carriage return, and a newline; after a line that
    holds the notice of Paper that it awaits the end of its I/O pool comes
    the line that the server has been stopped.  A line of 64 KiB or more
    ends the loop: neither it nor anything after it is logged. *)
Theorem pipeAndLog_lines (prefix : string) (ts : list string) (long rest : string) :
  Forall (fun t => Contains t nl = false /\ String.length t < MaxScanTokenSize) ts ->
  Contains long nl = false ->
  long +:+ rest = "" \/ MaxScanTokenSize <= String.length long ->
  Sprintln <$> pipeAndLog (stream ts (long +:+ rest)) prefix
  = t ← ts;
    (prefix +:+ " " +:+ dropCR t +:+ nl)
      :: (if Contains (dropCR t) stopping
          then ["[i] Server has been stopped!" +:+ nl] else []).
Proof.
  intros Hts Hlong Hl. unfold pipeAndLog. rewrite scan_stream; [|done..].
  clear. induction ts as [|t ts IH]; [done|].
  rewrite fmap_cons, !bind_cons, fmap_app, IH. f_equal.
  rewrite fmap_cons. unfold Sprintln at 1. cbn [spaced].
  rewrite !append_assoc. f_equal. by destruct (Contains (dropCR t) stopping).
Qed.

Lemma pipeAndLog_lines_witness :
  Sprintln <$> pipeAndLog
    (stream ["Done (3.2s)!" +:+ cr; stopping] (filled MaxScanTokenSize +:+ nl +:+ "lost" +:+ nl))
    "[g] "
  = ["[g]  Done (3.2s)!" +:+ nl; "[g]  " +:+ stopping +:+ nl;
     "[i] Server has been stopped!" +:+ nl].
Proof.
  rewrite (pipeAndLog_lines "[g] " ["Done (3.2s)!" +:+ cr; stopping]
             (filled MaxScanTokenSize) (nl +:+ "lost" +:+ nl)).
  - done.
  - assert (forall t, String.length t < 100 -> String.length t < MaxScanTokenSize) as H
      by (unfold MaxScanTokenSize; intros; lia).
    apply Forall_cons_2; [split; [done | apply H; vm_compute; lia]|].
    apply Forall_cons_2; [split; [done | apply H; vm_compute; lia]|].
    apply Forall_nil_2.
  - apply Contains_filled.
  - right. by rewrite length_filled.
Defined.

End console.
